(** * Wayfarer: segment buffering, playback bookkeeping and error paths

    A shallow embedding of the logic of [src/App.tsx],
    [src/services/geminiService.ts], [src/components/StoryPlayer.tsx] and
    [src/components/RoutePlanner.tsx].

    Conventions.
    - A JavaScript [number] that the code only uses as a count or an index
      is a [Z] (or a [nat] when it is an array position that starts at 0
      and is only ever incremented).
    - Durations and clock readings are exact rationals [Q] where the code
      compares them or passes them on.  Where the result depends on how
      the engine rounds, or on NaN and the infinities, the function is
      given a second time on IEEE 754 doubles: [Double] for the segment
      count, [StoryPlayerDouble] for pause and resume.
    - A promise is described by when and how it settles, relative to its
      creation; [async] bodies are written in a small monad over that
      description, handlers in a second one that also threads the React
      state.
    - The remote service, [JSON.parse], [String.prototype.trim] and the
      audio decoder are inputs of the model. *)

From Stdlib Require Import ZArith QArith Qround Lia Lqa Ascii String Floats.
From stdpp Require Import base list strings sorting pretty.

Local Open Scope Z_scope.

(* ===================================================================== *)
(** ** Values the code passes around *)
(* ===================================================================== *)

(** A JavaScript value as [JSON.parse] can produce it, plus [undefined],
    which reading past the end of an array produces. *)
#[warnings="-register-all"]
Inductive JsValue : Type :=
| VUndefined
| VNull
| VBool (b : bool)
| VNumber (n : Q)
| VString (s : string)
| VArray (items : list JsValue)
| VObject (fields : list (string * JsValue)).

(** [ToBoolean]: what [x || y] and [if (!x)] look at. *)
Definition truthy (v : JsValue) : bool :=
  match v with
  | VUndefined | VNull => false
  | VBool b => b
  | VNumber n => negb (Qeq_bool n 0)
  | VString s => negb (String.eqb s "")
  | VArray _ | VObject _ => true
  end.

Definition is_string (v : JsValue) : bool :=
  match v with VString _ => true | _ => false end.

(** A thrown [Error]: the code only ever reads its [message]. *)
Record Error := Err { message : string }.

(** [s.includes(sub)] *)
Fixpoint includes (s sub : string) : bool :=
  if String.prefix sub s then true
  else match s with
       | EmptyString => false
       | String _ rest => includes rest sub
       end.

(** A trim for the examples, which strips the white space and line
    terminators of the ASCII range (tab, LF, VT, FF, CR, space).  The
    engine's [String.prototype.trim] strips more (U+00A0, U+FEFF, U+2028
    and the other Unicode spaces); the model takes it as an input, see
    [trim] in [Env]. *)
Definition ascii_space (c : ascii) : bool :=
  let n := nat_of_ascii c in
  ((9 <=? n)%nat && (n <=? 13)%nat) || (n =? 32)%nat.

Fixpoint ascii_trim_start (s : string) : string :=
  match s with
  | String c rest => if ascii_space c then ascii_trim_start rest else s
  | EmptyString => EmptyString
  end.

Fixpoint ascii_trim_end (s : string) : string :=
  match s with
  | EmptyString => EmptyString
  | String c rest =>
      match ascii_trim_end rest with
      | EmptyString => if ascii_space c then EmptyString else String c EmptyString
      | rest' => String c rest'
      end
  end.

Definition ascii_trim (s : string) : string := ascii_trim_end (ascii_trim_start s).

(** [s.slice(-n)] for a positive [n]: the last [n] characters. *)
Definition slice_last (n : nat) (s : string) : string :=
  String.substring (String.length s - n) n s.

(* ===================================================================== *)
(** ** types.ts, as the sources use it *)
(* ===================================================================== *)

Inductive StoryStyle := NOIR | CHILDREN | HISTORICAL | FANTASY | OTHER_STYLE.

Inductive TravelMode := WALKING | DRIVING.

Record RouteDetails := {
  startAddress : string;
  endAddress : string;
  distance : string;
  duration : string;
  durationSeconds : Q;
  travelMode : TravelMode;
  voiceName : string;
  storyStyle : StoryStyle
}.

(** A decoded clip; the player reads its [duration] only. *)
Record AudioBuffer := { clip_id : nat; clip_duration : Q }.

Record StorySegment := {
  index : Z;
  text : string;
  audioBuffer : option AudioBuffer
}.

(** The [index] field, for places where [index] is also a local name. *)
Abbreviation index_of := index (only parsing).

Record AudioStory := {
  totalSegmentsEstimate : Z;
  outline : list JsValue;
  segments : list StorySegment
}.

(** The members of the [AppState] enum that the sources name.  The enum
    is declared in types.ts, which is not among the sources; its numeric
    values, which [appState < AppState.READY_TO_PLAY] compares, are a
    parameter [rank] of the definitions that need them. *)
Inductive AppState :=
| PLANNING
| GENERATING_INITIAL_SEGMENT
| READY_TO_PLAY
| PLAYING.

(** Numbering in the order the members are listed above, for examples. *)
Definition declaration_rank (a : AppState) : Z :=
  match a with
  | PLANNING => 0
  | GENERATING_INITIAL_SEGMENT => 1
  | READY_TO_PLAY => 2
  | PLAYING => 3
  end.

(* ===================================================================== *)
(** ** Promises and [async] bodies *)
(* ===================================================================== *)

Inductive Outcome (T : Type) : Type :=
| Fulfilled (v : T)
| Rejected (e : Error).
Arguments Fulfilled {T} v.
Arguments Rejected {T} e.

(** A promise, seen from the moment it is created: it settles [at_ms]
    milliseconds later with an outcome, or it stays pending for ever. *)
Inductive Promise (T : Type) : Type :=
| Settles (at_ms : Z) (o : Outcome T)
| NeverSettles.
Arguments Settles {T} at_ms o.
Arguments NeverSettles {T}.

Definition delay {T} (d : Z) (p : Promise T) : Promise T :=
  match p with
  | Settles t o => Settles (d + t) o
  | NeverSettles => NeverSettles
  end.

(** [return v] and [throw e] in an [async] body. *)
Definition ret {T} (v : T) : Promise T := Settles 0 (Fulfilled v).
Definition throw {T} (e : Error) : Promise T := Settles 0 (Rejected e).

(** [const x = await p; k x] *)
Definition await {A B} (k : A -> Promise B) (p : Promise A) : Promise B :=
  match p with
  | Settles t (Fulfilled v) => delay t (k v)
  | Settles t (Rejected e) => Settles t (Rejected e)
  | NeverSettles => NeverSettles
  end.

#[global] Instance promise_ret : MRet Promise := @ret.
#[global] Instance promise_bind : MBind Promise := @await.

(** [try { body } catch (error) { handler error }] *)
Definition try_catch {A} (body : Promise A) (handler : Error -> Promise A)
    : Promise A :=
  match body with
  | Settles t (Rejected e) => delay t (handler e)
  | _ => body
  end.

(** [Promise.race([a, b])].  The race is won by the promise that settles
    first; [b_first_on_tie] says who wins when both settle in the same
    millisecond, which the event loop decides. *)
Definition race {T} (b_first_on_tie : bool) (a b : Promise T) : Promise T :=
  match a, b with
  | NeverSettles, _ => b
  | _, NeverSettles => a
  | Settles ta _, Settles tb _ =>
      if (ta <? tb) || ((ta =? tb) && negb b_first_on_tie) then a else b
  end.

(** [new Promise((_, reject) => setTimeout(() => reject(new Error(msg)), ms))] *)
Definition rejectAfter {T} (ms : Z) (msg : string) : Promise T :=
  Settles (Z.max 0 ms) (Rejected (Err msg)).

(** App.tsx, [withTimeout].  [promise.then(val => { clearTimeout(timer);
    return val; })] settles as [promise] does. *)
Definition withTimeout {T} (timer_first_on_tie : bool)
    (promise : Promise T) (ms : Z) (errorMsg : string) : Promise T :=
  let timeoutPromise := rejectAfter ms errorMsg in
  race timer_first_on_tie (val ← promise; mret val) timeoutPromise.

(* ===================================================================== *)
(** ** The outside world *)
(* ===================================================================== *)

(** The three [ai.models.generateContent] call sites, with the data each
    one interpolates into its request. *)
Inductive Request :=
| OutlineRequest (route : RouteDetails) (totalSegments : Z)
| SegmentRequest (route : RouteDetails) (segmentIndex totalSegmentsEstimate : Z)
    (segmentOutline : JsValue) (previousContext : string)
| SpeechRequest (text : string) (voiceName : string).

(** What the code reads off a response: [response.text] and
    [response.candidates?.[0]?.content?.parts?.[0]?.inlineData?.data]. *)
Record Response := {
  response_text : option string;
  response_audioData : option string
}.

Record Env := {
  (** the remote service *)
  generateContent : Request -> Promise Response;
  (** [String.prototype.trim] *)
  trim : string -> string;
  (** [JSON.parse]; [None] when it throws a [SyntaxError] *)
  JSON_parse : string -> option JsValue;
  (** [base64ToArrayBuffer], [pcmToWav] and [decodeAudioData] in one *)
  decodeAudioData : string -> Promise AudioBuffer;
  (** the event loop's choice when a timer and a response are due in the
      same millisecond *)
  timer_first : bool
}.

(* ===================================================================== *)
(** ** geminiService.ts: segment count *)
(* ===================================================================== *)

Definition TARGET_SEGMENT_DURATION_SEC : Q := 45.

(** [Math.max(1, Math.ceil(durationSeconds / 45))] read in exact
    arithmetic, on a duration that is a rational number.  The engine
    computes on doubles: that is [Double.calculateTotalSegments] below,
    which gives the same number on every whole number of seconds that a
    route of the app can last. *)
Definition calculateTotalSegments (durationSeconds : Q) : Z :=
  Z.max 1 (Qceiling (durationSeconds / TARGET_SEGMENT_DURATION_SEC)).

(** The same function on the engine's numbers, IEEE 754 doubles. *)
Module Double.

(** The double of an integer; exact below 2^53 in absolute value. *)
Definition of_Z (n : Z) : float :=
  match n with
  | Z0 => 0%float
  | Zpos _ => of_uint63 (Uint63.of_Z n)
  | Zneg p => (- of_uint63 (Uint63.of_Z (Zpos p)))%float
  end.

(** [Math.ceil]: NaN, the infinities and the zeros are returned as they
    are, and so is a double [m * 2^e] with [0 <= e], which is an integer;
    with [e < 0] the mantissa [m] is below 2^53, and the result is the
    integer part of [m / 2^-e], one more when the double is positive and
    not an integer, with the sign kept so that the ceiling of a double in
    (-1, 0) is -0. *)
Definition Math_ceil (x : float) : float :=
  match Prim2SF x with
  | S754_finite sign m e =>
      if 0 <=? e then x
      else
        let whole := Z.pos m / 2 ^ (- e) in
        let exact := Z.pos m mod 2 ^ (- e) =? 0 in
        if sign then (- of_Z whole)%float
        else of_Z (if exact then whole else whole + 1)
  | _ => x
  end.

(** [Math.max] of two numbers: NaN when one of them is NaN, and +0
    rather than -0. *)
Definition Math_max (a b : float) : float :=
  if is_nan a || is_nan b then nan
  else if (a <? b)%float then b
  else if (b <? a)%float then a
  else if get_sign a then b else a.

Definition TARGET_SEGMENT_DURATION_SEC : float := 45.

Definition calculateTotalSegments (durationSeconds : float) : float :=
  Math_max 1 (Math_ceil (durationSeconds / TARGET_SEGMENT_DURATION_SEC)).

(** [test] holds of [count] integers in a row, from [first] on. *)
Fixpoint range_all (test : Z -> bool) (first : Z) (count : nat) : bool :=
  match count with
  | O => true
  | S count' => test first && range_all test (first + 1) count'
  end.

(** On [n] whole seconds the doubles give the exact number of segments. *)
Definition exact_at (n : Z) : bool :=
  PrimFloat.Leibniz.eqb (calculateTotalSegments (of_Z n))
    (of_Z (Z.max 1 (Qceiling (inject_Z n / 45)))).

(** The segments told at 45 seconds each cover [n] whole seconds, and 45
    seconds more add one segment. *)
Definition covered_at (n : Z) : bool :=
  (of_Z n <=? 45 * calculateTotalSegments (of_Z n))%float.

Definition one_more_at (n : Z) : bool :=
  PrimFloat.Leibniz.eqb (calculateTotalSegments (of_Z n + 45))
    (calculateTotalSegments (of_Z n) + 1)%float.

(** Among [count] integers from [first] on, the doubles of two integers
    are in the order of the integers. *)
Definition ordered_from (first : Z) (count : nat) : bool :=
  range_all
    (fun a =>
       range_all (fun b => negb (a <=? b) || (of_Z a <=? of_Z b)%float)
         first count)
    first count.

(** The sign of a double that is not NaN. *)
Definition has_sign (s : bool) (x : spec_float) : Prop :=
  match x with
  | S754_zero s' | S754_infinity s' | S754_finite s' _ _ => s' = s
  | S754_nan => False
  end.

(** A zero, of either sign, or a double below zero. *)
Definition not_positive (x : spec_float) : Prop :=
  match x with
  | S754_zero _ => True
  | S754_infinity s | S754_finite s _ _ => s = true
  | S754_nan => False
  end.

End Double.

(* ===================================================================== *)
(** ** geminiService.ts: outline, segment text, segment audio *)
(* ===================================================================== *)

(** The largest length a JavaScript array can have. *)
Definition MAX_ARRAY_LENGTH : Z := 4294967295.

(** [Array(n).fill(x)]; [Array(n)] throws a [RangeError] unless [n] is a
    valid array length. *)
Definition Array_fill {A} (n : Z) (x : A) : Promise (list A) :=
  if (n <? 0) || (MAX_ARRAY_LENGTH <? n)
  then throw (Err "Invalid array length")
  else ret (replicate (Z.to_nat n) x).

(** [l.slice(0, n)] *)
Definition slice0 {A} (n : Z) (l : list A) : list A :=
  if n <? 0 then take (Z.to_nat (Z.of_nat (length l) + n)) l
  else take (Z.to_nat n) l.

(** [l[l.length - 1]] *)
Definition last_item (l : list JsValue) : JsValue :=
  default VUndefined (last l).

(** [while (outline.length < totalSegments) outline.push(last)], with a
    bound on the number of iterations; running out of iterations is
    reported as a loop that does not end. *)
Fixpoint push_while (fuel : nat) (totalSegments : Z) (last : JsValue)
    (outline : list JsValue) : Promise (list JsValue) :=
  if Z.of_nat (length outline) <? totalSegments then
    match fuel with
    | O => NeverSettles
    | S fuel' =>
        if MAX_ARRAY_LENGTH <=? Z.of_nat (length outline)
        then throw (Err "Invalid array length")
        else push_while fuel' totalSegments last (outline ++ [last])
    end
  else ret outline.

Definition OUTLINE_FALLBACK : string :=
  "Continue the journey toward the destination.".

Definition generateStoryOutline (env : Env) (route : RouteDetails)
    (totalSegments : Z) : Promise (list JsValue) :=
  try_catch
    (response ← generateContent env (OutlineRequest route totalSegments);
     match trim env <$> response_text response with
     | None => throw (Err "No outline generated.")
     | Some text =>
         if String.eqb text "" then throw (Err "No outline generated.")
         else
           match JSON_parse env text with
           | None => throw (Err "Unexpected token in JSON")
           | Some (VArray outline) =>
               outline ← (if Z.of_nat (length outline) <? totalSegments
                          then push_while (Z.to_nat totalSegments) totalSegments
                                 (last_item outline) outline
                          else ret outline);
               mret (slice0 totalSegments outline)
           | Some _ => throw (Err "Invalid format.")
           end
     end)
    (fun error =>
       Array_fill totalSegments (VString OUTLINE_FALLBACK)).

Definition SEGMENT_FALLBACK : string := "The journey continues...".

(** [response.text?.trim() || "The journey continues..."] *)
Definition segment_text (env : Env) (response : Response) : string :=
  match trim env <$> response_text response with
  | Some t => if String.eqb t "" then SEGMENT_FALLBACK else t
  | None => SEGMENT_FALLBACK
  end.

Definition generateSegment (env : Env) (route : RouteDetails)
    (segmentIndex totalSegmentsEstimate : Z) (segmentOutline : JsValue)
    (previousContext : string) : Promise StorySegment :=
  try_catch
    (response ← generateContent env
        (SegmentRequest route segmentIndex totalSegmentsEstimate
           segmentOutline previousContext);
     mret {| index := segmentIndex;
             text := segment_text env response;
             audioBuffer := None |})
    (fun error => throw error).

Definition generateSegmentAudio (env : Env) (text : string)
    (voiceName : string) : Promise AudioBuffer :=
  try_catch
    (response ← generateContent env (SpeechRequest text voiceName);
     match response_audioData response with
     | None => throw (Err "No audio data.")
     | Some audioData =>
         if String.eqb audioData "" then throw (Err "No audio data.")
         else decodeAudioData env audioData
     end)
    (fun error => throw error).

(* ===================================================================== *)
(** ** Handlers: [async] functions that also update React state *)
(* ===================================================================== *)

(** How a handler run ends: after [t] milliseconds in state [s], normally
    or with an uncaught error; or stuck for ever on an [await], the state
    being what it was when it got stuck. *)
Inductive Run (S A : Type) : Type :=
| Done (t : Z) (s : S) (r : Outcome A)
| Hung (s : S).
Arguments Done {S A} t s r.
Arguments Hung {S A} s.

Definition Handler (S A : Type) : Type := S -> Run S A.

Definition later {S A} (d : Z) (r : Run S A) : Run S A :=
  match r with
  | Done t s o => Done (d + t) s o
  | Hung s => Hung s
  end.

Definition h_ret {S A} (v : A) : Handler S A := fun s => Done 0 s (Fulfilled v).

Definition h_bind {S A B} (k : A -> Handler S B) (m : Handler S A) : Handler S B :=
  fun s =>
    match m s with
    | Done t s' (Fulfilled v) => later t (k v s')
    | Done t s' (Rejected e) => Done t s' (Rejected e)
    | Hung s' => Hung s'
    end.

#[global] Instance handler_ret {S} : MRet (Handler S) := @h_ret S.
#[global] Instance handler_bind {S} : MBind (Handler S) := @h_bind S.

(** a state setter or a ref assignment *)
Definition modify {S} (f : S -> S) : Handler S unit :=
  fun s => Done 0 (f s) (Fulfilled tt).

(** [await p] in a handler *)
Definition h_await {S A} (p : Promise A) : Handler S A :=
  fun s =>
    match p with
    | Settles t o => Done t s o
    | NeverSettles => Hung s
    end.

Definition h_try_catch {S A} (body : Handler S A)
    (handler : Error -> Handler S A) : Handler S A :=
  fun s =>
    match body s with
    | Done t s' (Rejected e) => later t (handler e s')
    | r => r
    end.

(** [try { body } finally { fin }], for a [fin] that only assigns. *)
Definition h_finally {S A} (body : Handler S A) (fin : S -> S) : Handler S A :=
  fun s =>
    match body s with
    | Done t s' o => Done t (fin s') o
    | Hung s' => Hung s'
    end.

(* ===================================================================== *)
(** ** App.tsx *)
(* ===================================================================== *)

Module App.

Inductive LogEntry :=
| Log_starting (index : Z)
| Error_segment_failed (index : Z) (e : Error)
| Error_initial_failed (e : Error).

(** The component's state: the [useState] cells, the guard ref, and the
    browser console. *)
Record State := {
  appState : AppState;
  route : option RouteDetails;
  story : option AudioStory;
  loadingMessage : string;
  generationError : option string;
  isGeneratingRef : bool;
  isBackgroundGenerating : bool;
  currentPlayingIndex : nat;
  console : list LogEntry
}.

Definition initial : State :=
  {| appState := PLANNING; route := None; story := None;
     loadingMessage := ""; generationError := None;
     isGeneratingRef := false; isBackgroundGenerating := false;
     currentPlayingIndex := 0%nat; console := [] |}.

Definition setAppState (a : AppState) (s : State) : State :=
  {| appState := a; route := route s; story := story s;
     loadingMessage := loadingMessage s; generationError := generationError s;
     isGeneratingRef := isGeneratingRef s;
     isBackgroundGenerating := isBackgroundGenerating s;
     currentPlayingIndex := currentPlayingIndex s; console := console s |}.

Definition setRoute (r : option RouteDetails) (s : State) : State :=
  {| appState := appState s; route := r; story := story s;
     loadingMessage := loadingMessage s; generationError := generationError s;
     isGeneratingRef := isGeneratingRef s;
     isBackgroundGenerating := isBackgroundGenerating s;
     currentPlayingIndex := currentPlayingIndex s; console := console s |}.

(** [setStory(prev => f prev)] *)
Definition setStory (f : option AudioStory -> option AudioStory) (s : State) : State :=
  {| appState := appState s; route := route s; story := f (story s);
     loadingMessage := loadingMessage s; generationError := generationError s;
     isGeneratingRef := isGeneratingRef s;
     isBackgroundGenerating := isBackgroundGenerating s;
     currentPlayingIndex := currentPlayingIndex s; console := console s |}.

Definition setLoadingMessage (m : string) (s : State) : State :=
  {| appState := appState s; route := route s; story := story s;
     loadingMessage := m; generationError := generationError s;
     isGeneratingRef := isGeneratingRef s;
     isBackgroundGenerating := isBackgroundGenerating s;
     currentPlayingIndex := currentPlayingIndex s; console := console s |}.

Definition setGenerationError (e : option string) (s : State) : State :=
  {| appState := appState s; route := route s; story := story s;
     loadingMessage := loadingMessage s; generationError := e;
     isGeneratingRef := isGeneratingRef s;
     isBackgroundGenerating := isBackgroundGenerating s;
     currentPlayingIndex := currentPlayingIndex s; console := console s |}.

Definition setIsGeneratingRef (b : bool) (s : State) : State :=
  {| appState := appState s; route := route s; story := story s;
     loadingMessage := loadingMessage s; generationError := generationError s;
     isGeneratingRef := b;
     isBackgroundGenerating := isBackgroundGenerating s;
     currentPlayingIndex := currentPlayingIndex s; console := console s |}.

Definition setIsBackgroundGenerating (b : bool) (s : State) : State :=
  {| appState := appState s; route := route s; story := story s;
     loadingMessage := loadingMessage s; generationError := generationError s;
     isGeneratingRef := isGeneratingRef s;
     isBackgroundGenerating := b;
     currentPlayingIndex := currentPlayingIndex s; console := console s |}.

Definition setCurrentPlayingIndex (i : nat) (s : State) : State :=
  {| appState := appState s; route := route s; story := story s;
     loadingMessage := loadingMessage s; generationError := generationError s;
     isGeneratingRef := isGeneratingRef s;
     isBackgroundGenerating := isBackgroundGenerating s;
     currentPlayingIndex := i; console := console s |}.

Definition log (e : LogEntry) (s : State) : State :=
  {| appState := appState s; route := route s; story := story s;
     loadingMessage := loadingMessage s; generationError := generationError s;
     isGeneratingRef := isGeneratingRef s;
     isBackgroundGenerating := isBackgroundGenerating s;
     currentPlayingIndex := currentPlayingIndex s; console := console s ++ [e] |}.

(** *** The buffering effect *)

(** The effect's decision: [Some index] when it calls
    [generateNextSegment(index)]. *)
Definition bufferingEffect (rank : AppState -> Z) (s : State) : option Z :=
  match story s, route s with
  | Some story, Some _ =>
      if rank (appState s) <? rank READY_TO_PLAY then None
      else
        let totalGenerated := Z.of_nat (length (segments story)) in
        let neededBufferIndex := Z.of_nat (currentPlayingIndex s) + 3 in
        if (totalGenerated <? neededBufferIndex)
           && (totalGenerated <? totalSegmentsEstimate story)
           && negb (isGeneratingRef s)
        then Some (totalGenerated + 1)
        else None
  | _, _ => None
  end.

(** The effect's dependency array, [[story, route, appState,
    currentPlayingIndex]]: the effect runs again only after a render in
    which one of these differs from the render before. *)
Definition bufferingDeps (s : State)
    : option AudioStory * option RouteDetails * AppState * nat :=
  (story s, route s, appState s, currentPlayingIndex s).

(** *** generateNextSegment *)

(** [l[i]] and [x || d] on outline entries *)
Definition item_at (l : list JsValue) (i : Z) : JsValue :=
  if i <? 0 then VUndefined else default VUndefined (l !! Z.to_nat i).

Definition or_else (v d : JsValue) : JsValue := if truthy v then v else d.

(** [[...segments].sort((a, b) => a.index - b.index)]: the sort is
    stable, so it is the insertion of each element, from the right, in
    front of the first element that does not compare below it. *)
Fixpoint insert_by_index (x : StorySegment) (l : list StorySegment)
    : list StorySegment :=
  match l with
  | [] => [x]
  | y :: l' =>
      if index x - index y <=? 0 then x :: y :: l'
      else y :: insert_by_index x l'
  end.

Definition sort_by_index (l : list StorySegment) : list StorySegment :=
  foldr insert_by_index [] l.

(** [prev.segments.some(s => s.index === index)] *)
Definition has_index (index : Z) (l : list StorySegment) : bool :=
  existsb (fun s => index_of s =? index) l.

(** The function handed to [setStory] once both requests are back. *)
Definition appendSegment (index : Z) (segmentData : StorySegment)
    (audioBuffer : AudioBuffer) (prev : option AudioStory) : option AudioStory :=
  match prev with
  | None => None
  | Some prev =>
      if has_index index (segments prev) then Some prev
      else Some {| totalSegmentsEstimate := totalSegmentsEstimate prev;
                   outline := outline prev;
                   segments :=
                     sort_by_index
                       (segments prev ++
                          [ {| index_of := index_of segmentData;
                               text := text segmentData;
                               audioBuffer := Some audioBuffer |} ]) |}
  end.

(** [story.segments.map(s => s.text).join(" ").slice(-3000)] *)
Definition allPreviousText (story : AudioStory) : string :=
  slice_last 3000 (String.concat " " (map text (segments story))).

Definition NEXT_OUTLINE_FALLBACK : JsValue :=
  VString "Continue the journey towards the final destination.".

(** The two awaited requests of [generateNextSegment], which do not
    touch the component's state: the segment data and its audio. *)
Definition segmentRequests (env : Env) (route : RouteDetails)
    (story : AudioStory) (index : Z) : Promise (StorySegment * AudioBuffer) :=
  let segmentOutline :=
    or_else (item_at (outline story) (index - 1)) NEXT_OUTLINE_FALLBACK in
  segmentData ← withTimeout (timer_first env)
      (generateSegment env route index (totalSegmentsEstimate story)
         segmentOutline (allPreviousText story))
      60000 ("Text generation timed out for segment " +:+ pretty index);
  audioBuffer ← withTimeout (timer_first env)
      (generateSegmentAudio env (text segmentData) (voiceName route))
      100000 ("Audio generation timed out for segment " +:+ pretty index);
  mret (segmentData, audioBuffer).

(** The assignments in front of the first request. *)
Definition enterGeneration (index : Z) (s : State) : State :=
  log (Log_starting index)
    (setIsBackgroundGenerating true (setIsGeneratingRef true s)).

(** The [finally] block. *)
Definition leaveGeneration (s : State) : State :=
  setIsBackgroundGenerating false (setIsGeneratingRef false s).

(** [generateNextSegment], run from its call to its end with nothing
    else happening in between. *)
Definition generateNextSegment (env : Env) (index : Z) : Handler State unit :=
  fun s =>
    match route s, story s with
    | Some route, Some story =>
        if isGeneratingRef s then h_ret tt s
        else
          h_finally
            (h_try_catch
               (modify (setIsGeneratingRef true);;
                modify (setIsBackgroundGenerating true);;
                modify (log (Log_starting index));;
                '(segmentData, audioBuffer) ←
                   h_await (segmentRequests env route story index);
                modify (setStory (appendSegment index segmentData audioBuffer)))
               (fun e => modify (log (Error_segment_failed index e))))
            leaveGeneration s
    | _, _ => h_ret tt s
    end.

(** What runs when the requests of an outstanding call are back: the
    [setStory] update or the [catch] block, then the [finally] block. *)
Definition settleGeneration (index : Z)
    (o : Outcome (StorySegment * AudioBuffer)) (s : State) : State :=
  leaveGeneration
    match o with
    | Fulfilled (segmentData, audioBuffer) =>
        setStory (appendSegment index segmentData audioBuffer) s
    | Rejected e => log (Error_segment_failed index e) s
    end.

(** *** handleGenerateStory *)

Definition GENERIC_MESSAGE : string :=
  "We couldn't start the story. Please check your route.".
Definition TIMEOUT_MESSAGE : string :=
  "The journey is long, and our storytellers timed out. Try a shorter segment?".

(** The message chosen in the [catch] block. *)
Definition userMessage (error : Error) : string :=
  if negb (String.eqb (message error) "")
     && (includes (message error) "timed out"
         || includes (message error) "timeout")
  then TIMEOUT_MESSAGE
  else GENERIC_MESSAGE.

Definition handleGenerateStory (env : Env) (details : RouteDetails)
    : Handler State unit :=
  modify (setRoute (Some details));;
  modify (setGenerationError None);;
  h_try_catch
    (modify (setAppState GENERATING_INITIAL_SEGMENT);;
     let totalSegmentsEstimate :=
       calculateTotalSegments (durationSeconds details) in
     modify (setLoadingMessage "Mapping the narrative arc...");;
     outline ← h_await
       (withTimeout (timer_first env)
          (generateStoryOutline env details totalSegmentsEstimate)
          60000 "Story outline generation timed out");
     modify (setLoadingMessage "Writing the opening chapter...");;
     let firstOutlineBeat :=
       or_else (item_at outline 0) (VString "Begin the journey.") in
     seg1Data ← h_await
       (withTimeout (timer_first env)
          (generateSegment env details 1 totalSegmentsEstimate
             firstOutlineBeat "")
          60000 "Initial text generation timed out");
     modify (setLoadingMessage "Synthesizing neural voice...");;
     seg1Audio ← h_await
       (withTimeout (timer_first env)
          (generateSegmentAudio env (text seg1Data) (voiceName details))
          100000 "Initial audio generation timed out");
     modify (setStory (fun _ =>
       Some {| totalSegmentsEstimate := totalSegmentsEstimate;
               outline := outline;
               segments := [ {| index_of := index_of seg1Data;
                                text := text seg1Data;
                                audioBuffer := Some seg1Audio |} ] |}));;
     modify (setAppState READY_TO_PLAY))
    (fun error =>
       modify (log (Error_initial_failed error));;
       modify (setAppState PLANNING);;
       let message := userMessage error in
       modify (setGenerationError (Some message))).

(** The three awaited requests of [handleGenerateStory] on their own. *)
Definition initialRequests (env : Env) (details : RouteDetails)
    : Promise (list JsValue * StorySegment * AudioBuffer) :=
  let totalSegmentsEstimate := calculateTotalSegments (durationSeconds details) in
  outline ← withTimeout (timer_first env)
      (generateStoryOutline env details totalSegmentsEstimate)
      60000 "Story outline generation timed out";
  let firstOutlineBeat :=
    or_else (item_at outline 0) (VString "Begin the journey.") in
  seg1Data ← withTimeout (timer_first env)
      (generateSegment env details 1 totalSegmentsEstimate firstOutlineBeat "")
      60000 "Initial text generation timed out";
  seg1Audio ← withTimeout (timer_first env)
      (generateSegmentAudio env (text seg1Data) (voiceName details))
      100000 "Initial audio generation timed out";
  mret (outline, seg1Data, seg1Audio).

(** *** handleReset *)

Definition handleReset (s : State) : State :=
  setIsBackgroundGenerating false
    (setIsGeneratingRef false
       (setGenerationError None
          (setCurrentPlayingIndex 0
             (setStory (fun _ => None)
                (setRoute None
                   (setAppState PLANNING s)))))).

(** *** The component as a transition system

    Calls of [generateNextSegment] whose requests are not back yet are
    kept, each with the index it was called with and the promise its
    requests make up; the handlers and the effect are the events. *)

Record Flight := {
  flight_index : Z;
  flight_requests : Promise (StorySegment * AudioBuffer)
}.

Record Sys := {
  app : State;
  outstanding : list Flight
}.

Definition start : Sys := {| app := initial; outstanding := [] |}.

(** A call [generateNextSegment(index)], up to its first [await]. *)
Definition callGenerateNextSegment (env : Env) (index : Z) (sys : Sys) : Sys :=
  match route (app sys), story (app sys) with
  | Some route, Some story =>
      if isGeneratingRef (app sys) then sys
      else {| app := enterGeneration index (app sys);
              outstanding :=
                outstanding sys ++
                  [ {| flight_index := index;
                       flight_requests := segmentRequests env route story index |} ] |}
  | _, _ => sys
  end.

Inductive Event :=
| BufferingEffect (env : Env)
| RequestsBack (k : nat)
| ResetClicked
| SegmentChanged (i : nat)
| RouteFound (env : Env) (details : RouteDetails).

Definition final {A} (r : Run State A) : State :=
  match r with
  | Done _ s _ => s
  | Hung s => s
  end.

Definition step (rank : AppState -> Z) (sys : Sys) (ev : Event) : Sys :=
  match ev with
  | BufferingEffect env =>
      match bufferingEffect rank (app sys) with
      | Some index => callGenerateNextSegment env index sys
      | None => sys
      end
  | RequestsBack k =>
      match outstanding sys !! k with
      | Some f =>
          match flight_requests f with
          | Settles _ o =>
              {| app := settleGeneration (flight_index f) o (app sys);
                 outstanding := delete k (outstanding sys) |}
          | NeverSettles => sys
          end
      | None => sys
      end
  | ResetClicked =>
      {| app := handleReset (app sys); outstanding := outstanding sys |}
  | SegmentChanged i =>
      {| app := setCurrentPlayingIndex i (app sys);
         outstanding := outstanding sys |}
  | RouteFound env details =>
      {| app := final (handleGenerateStory env details (app sys));
         outstanding := outstanding sys |}
  end.

Definition run (rank : AppState -> Z) (sys : Sys) (evs : list Event) : Sys :=
  foldl (step rank) sys evs.

(** Strictly ascending indices: sorted by index and no index twice. *)
Definition ascending (l : list StorySegment) : Prop :=
  StronglySorted Z.lt (index <$> l).

Definition story_ascending (s : State) : Prop :=
  match story s with
  | Some st => ascending (segments st)
  | None => True
  end.

(** The effect finds the app in [READY_TO_PLAY] each time it runs, when
    the events are run with the numbering [declaration_rank]. *)
Definition effect_at_ready (sys : Sys) (ev : Event) : bool :=
  match ev with
  | BufferingEffect _ =>
      match appState (app sys) with
      | READY_TO_PLAY => true
      | _ => false
      end
  | _ => true
  end.

Fixpoint effects_at_ready (sys : Sys) (evs : list Event) : bool :=
  match evs with
  | [] => true
  | ev :: evs' =>
      effect_at_ready sys ev
      && effects_at_ready (step declaration_rank sys ev) evs'
  end.

(** An outstanding call gets back a segment with the index asked for. *)
Definition answers_own_index (f : Flight) : Prop :=
  forall t seg audio,
    flight_requests f = Settles t (Fulfilled (seg, audio)) ->
    index seg = flight_index f.

Definition well_formed (sys : Sys) : Prop :=
  story_ascending (app sys) /\ Forall answers_own_index (outstanding sys).

(** The guard agrees with the outstanding calls. *)
Definition guarded (sys : Sys) : Prop :=
  (length (outstanding sys) <= 1)%nat
  /\ (isGeneratingRef (app sys) = true <-> outstanding sys <> []).

(** A reset is quiet when no call is outstanding. *)
Definition quiet (sys : Sys) (ev : Event) : Prop :=
  match ev with
  | ResetClicked => outstanding sys = []
  | _ => True
  end.

Fixpoint quiet_run (rank : AppState -> Z) (sys : Sys) (evs : list Event) : Prop :=
  match evs with
  | [] => True
  | ev :: evs' => quiet sys ev /\ quiet_run rank (step rank sys ev) evs'
  end.

End App.

(* ===================================================================== *)
(** ** StoryPlayer.tsx *)
(* ===================================================================== *)

Module StoryPlayer.

(** The props the handlers read; a handler sees the props of the render
    that created it. *)
Record Props := {
  story : AudioStory;
  isBackgroundGenerating : bool
}.

(** A started [AudioBufferSourceNode]: its clip and the offset given to
    [source.start(0, offset)]. *)
Record Source := {
  buffer : AudioBuffer;
  startOffset : Q
}.

Record State := {
  isPlaying : bool;
  currentSegmentIndex : nat;
  isBuffering : bool;
  (** [audioContextRef.current] is set *)
  audioContextRef : bool;
  sourceRef : option Source;
  startTimeRef : Q;
  segmentOffsetRef : Q;
  indexRef : nat
}.

Definition initial : State :=
  {| isPlaying := false; currentSegmentIndex := 0; isBuffering := false;
     audioContextRef := false; sourceRef := None;
     startTimeRef := 0; segmentOffsetRef := 0; indexRef := 0 |}.

Definition setIsPlaying (b : bool) (s : State) : State :=
  {| isPlaying := b; currentSegmentIndex := currentSegmentIndex s;
     isBuffering := isBuffering s; audioContextRef := audioContextRef s;
     sourceRef := sourceRef s; startTimeRef := startTimeRef s;
     segmentOffsetRef := segmentOffsetRef s; indexRef := indexRef s |}.

Definition setCurrentSegmentIndex (i : nat) (s : State) : State :=
  {| isPlaying := isPlaying s; currentSegmentIndex := i;
     isBuffering := isBuffering s; audioContextRef := audioContextRef s;
     sourceRef := sourceRef s; startTimeRef := startTimeRef s;
     segmentOffsetRef := segmentOffsetRef s; indexRef := indexRef s |}.

Definition setIsBuffering (b : bool) (s : State) : State :=
  {| isPlaying := isPlaying s; currentSegmentIndex := currentSegmentIndex s;
     isBuffering := b; audioContextRef := audioContextRef s;
     sourceRef := sourceRef s; startTimeRef := startTimeRef s;
     segmentOffsetRef := segmentOffsetRef s; indexRef := indexRef s |}.

Definition setSegmentOffsetRef (q : Q) (s : State) : State :=
  {| isPlaying := isPlaying s; currentSegmentIndex := currentSegmentIndex s;
     isBuffering := isBuffering s; audioContextRef := audioContextRef s;
     sourceRef := sourceRef s; startTimeRef := startTimeRef s;
     segmentOffsetRef := q; indexRef := indexRef s |}.

Definition setIndexRef (i : nat) (s : State) : State :=
  {| isPlaying := isPlaying s; currentSegmentIndex := currentSegmentIndex s;
     isBuffering := isBuffering s; audioContextRef := audioContextRef s;
     sourceRef := sourceRef s; startTimeRef := startTimeRef s;
     segmentOffsetRef := segmentOffsetRef s; indexRef := i |}.

Definition stopAudio (s : State) : State :=
  {| isPlaying := isPlaying s; currentSegmentIndex := currentSegmentIndex s;
     isBuffering := isBuffering s; audioContextRef := audioContextRef s;
     sourceRef := None; startTimeRef := startTimeRef s;
     segmentOffsetRef := segmentOffsetRef s; indexRef := indexRef s |}.

(** [segment?.audioBuffer] *)
Definition clip (segment : option StorySegment) : option AudioBuffer :=
  segment ≫= audioBuffer.

(** [playSegment(segment, offset)]; [now] is
    [audioContextRef.current.currentTime] when the source is started. *)
Definition playSegment (segment : option StorySegment) (offset : Q)
    (now : Q) (s : State) : State :=
  match clip segment with
  | None => setIsBuffering true s
  | Some buf =>
      let s := stopAudio s in
      {| isPlaying := isPlaying s; currentSegmentIndex := currentSegmentIndex s;
         isBuffering := isBuffering s;
         audioContextRef := true;
         sourceRef := Some {| buffer := buf; startOffset := offset |};
         startTimeRef := (now - offset)%Q;
         segmentOffsetRef := segmentOffsetRef s; indexRef := indexRef s |}
  end.

Definition handleSegmentEnd (props : Props) (now : Q) (s : State) : State :=
  let currentIndex := indexRef s in
  let nextIndex := (currentIndex + 1)%nat in
  let s := setCurrentSegmentIndex nextIndex s in
  let s := setSegmentOffsetRef 0 s in
  match clip (segments (story props) !! nextIndex) with
  | Some _ => playSegment (segments (story props) !! nextIndex) 0 now s
  | None =>
      if (totalSegmentsEstimate (story props) <=? Z.of_nat nextIndex)
         && negb (isBackgroundGenerating props)
      then setIsPlaying false s
      else setIsBuffering true s
  end.

(** The [onended] callback that [playSegment(segment, _)] installs;
    [now] is the context's [currentTime] when the source ends. *)
Definition onended (segment : StorySegment) (props : Props) (now : Q)
    (s : State) : State :=
  match audioBuffer segment with
  | None => s
  | Some buf =>
      let duration := clip_duration buf in
      if negb (audioContextRef s) then s
      else
        let elapsed := (now - startTimeRef s)%Q in
        if Qle_bool (duration - 0.5)%Q elapsed
        then handleSegmentEnd props now s
        else s
  end.

Definition togglePlayback (props : Props) (now : Q) (s : State) : State :=
  let currentSegment := segments (story props) !! currentSegmentIndex s in
  if isPlaying s then
    let s := if audioContextRef s && negb (isBuffering s)
             then setSegmentOffsetRef (now - startTimeRef s)%Q s
             else s in
    let s := stopAudio s in
    setIsPlaying false s
  else
    let s := setIsPlaying true s in
    match clip currentSegment with
    | Some _ =>
        let s := setIsBuffering false s in
        playSegment currentSegment (segmentOffsetRef s) now s
    | None => setIsBuffering true s
    end.

(** The effects that run after a render: [indexRef] follows
    [currentSegmentIndex], and a clip that was waited for is started
    once it is there. *)
Definition syncIndexRef (s : State) : State :=
  setIndexRef (currentSegmentIndex s) s.

Definition resumeWhenReady (props : Props) (now : Q) (s : State) : State :=
  let segmentNowReady := segments (story props) !! currentSegmentIndex s in
  if isBuffering s && isPlaying s
     && bool_decide (is_Some (clip segmentNowReady))
  then playSegment segmentNowReady 0 now (setIsBuffering false s)
  else s.

End StoryPlayer.

(** The clock arithmetic of the player as the engine does it:
    [stopAudio], [playSegment] and [togglePlayback] once more, with
    [audioContext.currentTime], the recorded start and the recorded
    offset as doubles. *)
Module StoryPlayerDouble.

Record Source := {
  buffer : AudioBuffer;
  startOffset : float
}.

Record State := {
  isPlaying : bool;
  currentSegmentIndex : nat;
  isBuffering : bool;
  audioContextRef : bool;
  sourceRef : option Source;
  startTimeRef : float;
  segmentOffsetRef : float;
  indexRef : nat
}.

Definition initial : State :=
  {| isPlaying := false; currentSegmentIndex := 0; isBuffering := false;
     audioContextRef := false; sourceRef := None;
     startTimeRef := 0; segmentOffsetRef := 0; indexRef := 0 |}.

Definition setIsPlaying (b : bool) (s : State) : State :=
  {| isPlaying := b; currentSegmentIndex := currentSegmentIndex s;
     isBuffering := isBuffering s; audioContextRef := audioContextRef s;
     sourceRef := sourceRef s; startTimeRef := startTimeRef s;
     segmentOffsetRef := segmentOffsetRef s; indexRef := indexRef s |}.

Definition setIsBuffering (b : bool) (s : State) : State :=
  {| isPlaying := isPlaying s; currentSegmentIndex := currentSegmentIndex s;
     isBuffering := b; audioContextRef := audioContextRef s;
     sourceRef := sourceRef s; startTimeRef := startTimeRef s;
     segmentOffsetRef := segmentOffsetRef s; indexRef := indexRef s |}.

Definition setSegmentOffsetRef (x : float) (s : State) : State :=
  {| isPlaying := isPlaying s; currentSegmentIndex := currentSegmentIndex s;
     isBuffering := isBuffering s; audioContextRef := audioContextRef s;
     sourceRef := sourceRef s; startTimeRef := startTimeRef s;
     segmentOffsetRef := x; indexRef := indexRef s |}.

Definition stopAudio (s : State) : State :=
  {| isPlaying := isPlaying s; currentSegmentIndex := currentSegmentIndex s;
     isBuffering := isBuffering s; audioContextRef := audioContextRef s;
     sourceRef := None; startTimeRef := startTimeRef s;
     segmentOffsetRef := segmentOffsetRef s; indexRef := indexRef s |}.

Definition playSegment (segment : option StorySegment) (offset : float)
    (now : float) (s : State) : State :=
  match StoryPlayer.clip segment with
  | None => setIsBuffering true s
  | Some buf =>
      let s := stopAudio s in
      {| isPlaying := isPlaying s; currentSegmentIndex := currentSegmentIndex s;
         isBuffering := isBuffering s;
         audioContextRef := true;
         sourceRef := Some {| buffer := buf; startOffset := offset |};
         startTimeRef := (now - offset)%float;
         segmentOffsetRef := segmentOffsetRef s; indexRef := indexRef s |}
  end.

Definition togglePlayback (props : StoryPlayer.Props) (now : float)
    (s : State) : State :=
  let currentSegment :=
    segments (StoryPlayer.story props) !! currentSegmentIndex s in
  if isPlaying s then
    let s := if audioContextRef s && negb (isBuffering s)
             then setSegmentOffsetRef (now - startTimeRef s)%float s
             else s in
    let s := stopAudio s in
    setIsPlaying false s
  else
    let s := setIsPlaying true s in
    match StoryPlayer.clip currentSegment with
    | Some _ =>
        let s := setIsBuffering false s in
        playSegment currentSegment (segmentOffsetRef s) now s
    | None => setIsBuffering true s
    end.

End StoryPlayerDouble.

(* ===================================================================== *)
(** ** RoutePlanner.tsx: handleCalculate *)
(* ===================================================================== *)

Module RoutePlanner.

(** What the directions callback receives: [status] and, when it is
    [OK], the first leg of the first route. *)
Record Leg := {
  start_address : string;
  end_address : string;
  distance_text : string;
  duration_text : string;
  duration_value : Q
}.

Inductive DirectionsStatus := OK | NOT_FOUND | ZERO_RESULTS | REQUEST_DENIED.

Record State := {
  startAddress_in : string;
  endAddress_in : string;
  manualDuration : Z;
  travelMode_in : TravelMode;
  selectedStyle : StoryStyle;
  error : option string;
  isLoading : bool
}.

Definition setError (e : option string) (s : State) : State :=
  {| startAddress_in := startAddress_in s; endAddress_in := endAddress_in s;
     manualDuration := manualDuration s; travelMode_in := travelMode_in s;
     selectedStyle := selectedStyle s; error := e; isLoading := isLoading s |}.

Definition setIsLoading (b : bool) (s : State) : State :=
  {| startAddress_in := startAddress_in s; endAddress_in := endAddress_in s;
     manualDuration := manualDuration s; travelMode_in := travelMode_in s;
     selectedStyle := selectedStyle s; error := error s; isLoading := b |}.

(** The callback handed to [directionsService.route]: the new state and
    the argument of [onRouteFound], when it is called. *)
Definition directionsCallback (status : DirectionsStatus) (leg : Leg)
    (s : State) : State * option RouteDetails :=
  let s := setIsLoading false s in
  match status with
  | OK =>
      if negb (Qle_bool (duration_value leg) 14400)
      then (setError (Some "Journey too long. Try a route under 4 hours.") s, None)
      else (s, Some {| startAddress := start_address leg;
                       endAddress := end_address leg;
                       distance := distance_text leg;
                       duration := duration_text leg;
                       durationSeconds := duration_value leg;
                       travelMode := travelMode_in s;
                       voiceName := "Kore";
                       storyStyle := selectedStyle s |})
  | _ => (setError (Some "Could not find a route between these locations.") s, None)
  end.

(** The [setTimeout] fallback taken when the maps API is missing. *)
Definition fallbackCallback (finalStart finalEnd : string)
    (s : State) : State * option RouteDetails :=
  let s := setIsLoading false s in
  (s, Some {| startAddress := finalStart;
              endAddress := finalEnd;
              distance := "Unknown";
              duration := pretty (manualDuration s) +:+ " mins";
              durationSeconds := inject_Z (manualDuration s * 60);
              travelMode := travelMode_in s;
              voiceName := "Kore";
              storyStyle := selectedStyle s |}).

(** What [handleCalculate] leaves pending when it returns. *)
Inductive Pending :=
| DirectionsRequest (origin destination : string) (mode : TravelMode)
| FallbackTimer (finalStart finalEnd : string).

(** [x?.value || fallback] on an input element that may be absent. *)
Definition value_or (input : option string) (fallback : string) : string :=
  match input with
  | Some v => if String.eqb v "" then fallback else v
  | None => fallback
  end.

Definition handleCalculate (startInput endInput : option string)
    (mapApiAvailable mapsLoaded : bool) (s : State) : State * option Pending :=
  let finalStart := value_or startInput (startAddress_in s) in
  let finalEnd := value_or endInput (endAddress_in s) in
  if String.eqb finalStart "" || String.eqb finalEnd ""
  then (setError (Some "Please define your journey start and end.") s, None)
  else
    let s := setIsLoading true (setError None s) in
    if mapApiAvailable && mapsLoaded
    then (s, Some (DirectionsRequest finalStart finalEnd (travelMode_in s)))
    else (s, Some (FallbackTimer finalStart finalEnd)).

(** The directions path from the click to the callback's return: the
    final state and the [RouteDetails] handed to [onRouteFound], if any. *)
Definition directionsPath (startInput endInput : option string)
    (status : DirectionsStatus) (leg : Leg) (s : State)
    : State * option RouteDetails :=
  match handleCalculate startInput endInput true true s with
  | (s1, Some (DirectionsRequest _ _ _)) => directionsCallback status leg s1
  | (s1, _) => (s1, None)
  end.

End RoutePlanner.

(* ===================================================================== *)
(** ** App.tsx and geminiService.ts: the API key *)
(* ===================================================================== *)

Module Bootstrap.

(** The double quote and the apostrophe, the two characters of the
    character class that the key is cleaned of. *)
Definition is_quote (c : ascii) : bool :=
  (nat_of_ascii c =? 34)%nat || (nat_of_ascii c =? 39)%nat.

(** [key.replace(re, EMPTY)] for the global pattern [re] that matches one
    quote character. *)
Fixpoint strip_quotes (s : string) : string :=
  match s with
  | EmptyString => EmptyString
  | String c rest =>
      if is_quote c then strip_quotes rest else String c (strip_quotes rest)
  end.

(** App.tsx, [getApiKey]; [key] is [process.env.API_KEY], which may be
    undefined, and [trim] is the engine's [String.prototype.trim]. *)
Definition getApiKey (trim : string -> string) (key : option string)
    : option string :=
  match key with
  | None => None
  | Some k => if String.eqb k "" then None else Some (trim (strip_quotes k))
  end.

(** geminiService.ts, [API_KEY]. *)
Definition API_KEY (trim : string -> string) (RAW_API_KEY : option string)
    : string :=
  match RAW_API_KEY with
  | None => ""
  | Some k => if String.eqb k "" then "" else trim (strip_quotes k)
  end.

Definition MISSING_KEY_MESSAGE : string :=
  "API Key is missing. Please check your environment configuration.".

(** The first decision of the bootstrap effect: the value it gives to
    [scriptError], if it sets it. *)
Definition bootstrapError (trim : string -> string) (key : option string)
    : option string :=
  match getApiKey trim key with
  | None => Some MISSING_KEY_MESSAGE
  | Some apiKey =>
      if String.eqb apiKey "" then Some MISSING_KEY_MESSAGE else None
  end.

Definition not_quote (c : ascii) : bool := negb (is_quote c).

(** [trim] only cuts characters off the two ends of a string, as the
    engine's [String.prototype.trim] does. *)
Definition cuts (trim : string -> string) : Prop :=
  forall s, exists a b, s = (a ++ trim s ++ b)%string.

(** Every character of [s] passes [p]. *)
Fixpoint all_chars (p : ascii -> bool) (s : string) : bool :=
  match s with
  | EmptyString => true
  | String c rest => p c && all_chars p rest
  end.

End Bootstrap.

(* ===================================================================== *)
(** ** App.tsx: runs in which a story is not replaced under a request *)
(* ===================================================================== *)

Module AppRuns.
Import App.

(** [handleReset] and [handleGenerateStory] run while no call of
    [generateNextSegment] is outstanding. *)
Definition calm (sys : Sys) (ev : Event) : Prop :=
  match ev with
  | ResetClicked | RouteFound _ _ => outstanding sys = []
  | _ => True
  end.

Fixpoint calm_run (rank : AppState -> Z) (sys : Sys) (evs : list Event) : Prop :=
  match evs with
  | [] => True
  | ev :: evs' => calm sys ev /\ calm_run rank (step rank sys ev) evs'
  end.

(** The segment at position [k] of the array has index [k + 1]. *)
Definition positions_match (l : list StorySegment) : Prop :=
  forall k seg, l !! k = Some seg -> index seg = Z.of_nat k + 1.

(** The story holds segments 1 to n without a gap, n is at least 1 and at
    most the estimate, and an outstanding call is for segment n + 1,
    itself within the estimate. *)
Definition in_order (sys : Sys) : Prop :=
  match story (app sys) with
  | Some st =>
      positions_match (segments st)
      /\ (1 <= length (segments st))%nat
      /\ Z.of_nat (length (segments st)) <= totalSegmentsEstimate st
      /\ Forall (fun f =>
                   flight_index f = Z.of_nat (length (segments st)) + 1
                   /\ flight_index f <= totalSegmentsEstimate st)
                (outstanding sys)
  | None => outstanding sys = []
  end.

(** The same, counting from [c]. *)
Definition positions_from (c : Z) (l : list StorySegment) : Prop :=
  forall k seg, l !! k = Some seg -> index seg = c + Z.of_nat k.

(** What holds of every state of a calm run. *)
Definition steady (sys : Sys) : Prop :=
  well_formed sys /\ guarded sys /\ in_order sys.

End AppRuns.

(* ===================================================================== *)
(** ** StoryPlayer.tsx: the player as a transition system *)
(* ===================================================================== *)

Module PlayerRuns.
Import StoryPlayer.

(** The script column shows a segment at full opacity when
    [segment.index === currentSegmentIndex + 1]. *)
Definition isHighlighted (segment : StorySegment) (currentSegmentIndex : nat)
    : bool :=
  index segment =? Z.of_nat currentSegmentIndex + 1.

(** The effects of a render, in the order the component declares them. *)
Definition effects (props : Props) (now : Q) (s : State) : State :=
  resumeWhenReady props now (syncIndexRef s).

(** What can happen to the player: a click on the play button, the end of
    the source that [playSegment segment _] started, and a render with
    its effects.  Each event carries the props of the render whose
    closures run and the reading of the audio clock at that moment. *)
Inductive Event :=
| Toggle (props : Props) (now : Q)
| Ended (segment : StorySegment) (props : Props) (now : Q)
| Rendered (props : Props) (now : Q).

Definition step (s : State) (ev : Event) : State :=
  match ev with
  | Toggle props now => togglePlayback props now s
  | Ended segment props now => onended segment props now s
  | Rendered props now => effects props now s
  end.

Definition run (s : State) (evs : list Event) : State := foldl step s evs.

Definition clock (ev : Event) : Q :=
  match ev with
  | Toggle _ now | Ended _ _ now | Rendered _ now => now
  end.

(** The clock readings never go back, starting from [last]. *)
Fixpoint monotone (last : Q) (evs : list Event) : Prop :=
  match evs with
  | [] => True
  | ev :: evs' => (last <= clock ev)%Q /\ monotone (clock ev) evs'
  end.

(** The reading of the clock after the events. *)
Definition clock_after (last : Q) (evs : list Event) : Q :=
  foldl (fun _ ev => clock ev) last evs.

(** The bookkeeping is sound at clock reading [last]: the recorded offset
    is not negative, the recorded start is not in the future, and a
    source exists only with its context and was started at an offset that
    is not negative. *)
Definition timed (last : Q) (s : State) : Prop :=
  (0 <= segmentOffsetRef s)%Q
  /\ (startTimeRef s <= last)%Q
  /\ match sourceRef s with
     | Some src => audioContextRef s = true /\ (0 <= startOffset src)%Q
     | None => True
     end.

(** [indexRef] is the current index, or still the one before the last
    segment end. *)
Definition synced (s : State) : Prop :=
  (indexRef s <= currentSegmentIndex s <= S (indexRef s))%nat.

(** The number of clips that came to their end. *)
Definition is_ended (ev : Event) : bool :=
  match ev with
  | Ended _ _ _ => true
  | _ => false
  end.

Definition ended_count (evs : list Event) : nat :=
  length (List.filter is_ended evs).

End PlayerRuns.

(* ===================================================================== *)
(** ** RoutePlanner.tsx: the path without the maps API *)
(* ===================================================================== *)

Module ManualRoute.
Import RoutePlanner.

(** From the click to the end of the timer callback, when the maps API
    is not there: the final state and the [RouteDetails] handed to
    [onRouteFound], if any. *)
Definition fallbackPath (startInput endInput : option string)
    (mapApiAvailable mapsLoaded : bool) (s : State)
    : State * option RouteDetails :=
  match handleCalculate startInput endInput mapApiAvailable mapsLoaded s with
  | (s1, Some (FallbackTimer finalStart finalEnd)) =>
      fallbackCallback finalStart finalEnd s1
  | (s1, _) => (s1, None)
  end.

End ManualRoute.

(* ===================================================================== *)
(** ** Sample data for the examples *)
(* ===================================================================== *)

Module Sample.

Definition details : RouteDetails :=
  {| startAddress := "Pier 1"; endAddress := "Old Mill";
     distance := "1.2 km"; duration := "15 mins"; durationSeconds := 900;
     travelMode := WALKING; voiceName := "Kore"; storyStyle := NOIR |}.

Definition clip1 : AudioBuffer := {| clip_id := 1; clip_duration := 40 |}.
Definition clip2 : AudioBuffer := {| clip_id := 2; clip_duration := 44 |}.

Definition segment1 : StorySegment :=
  {| index := 1; text := "Rain on the pier."; audioBuffer := Some clip1 |}.
Definition segment2 : StorySegment :=
  {| index := 2; text := "The mill road."; audioBuffer := Some clip2 |}.

Definition story1 : AudioStory :=
  {| totalSegmentsEstimate := 20;
     outline := [VString "Departure"; VString "The road"; VString "Arrival"];
     segments := [segment1] |}.

Definition story2 : AudioStory :=
  {| totalSegmentsEstimate := 20;
     outline := outline story1;
     segments := [segment1; segment2] |}.

(** The app right after the first segment is ready. *)
Definition ready : App.State :=
  {| App.appState := READY_TO_PLAY; App.route := Some details;
     App.story := Some story1; App.loadingMessage := "Synthesizing neural voice...";
     App.generationError := None; App.isGeneratingRef := false;
     App.isBackgroundGenerating := false; App.currentPlayingIndex := 0%nat;
     App.console := [] |}.

(** A parser that knows a few texts. *)
Definition parse (text : string) : option JsValue :=
  if String.eqb text "[]" then Some (VArray [])
  else if String.eqb text "[1, 2]" then Some (VArray [VNumber 1; VNumber 2])
  else if String.eqb text "[3]" then Some (VArray [VNumber 3])
  else if String.eqb text "{}" then Some (VObject [])
  else None.

Definition quote : string := String (ascii_of_nat 34) EmptyString.

(** The text [["Departure"]], an array of one string. *)
Definition one_beat : string := "[" ++ quote ++ "Departure" ++ quote ++ "]".

Definition parse_beats (text : string) : option JsValue :=
  if String.eqb text one_beat then Some (VArray [VString "Departure"])
  else parse text.

Definition answer (text : string) : Response :=
  {| response_text := Some text; response_audioData := None |}.

(** A service that answers every request in a few seconds. *)
Definition env_ok : Env :=
  {| generateContent := fun req =>
       match req with
       | OutlineRequest _ _ => Settles 2000 (Fulfilled (answer one_beat))
       | SegmentRequest _ _ _ _ _ =>
           Settles 3000 (Fulfilled (answer "  The road bends.  "))
       | SpeechRequest _ _ =>
           Settles 4000
             (Fulfilled {| response_text := None;
                           response_audioData := Some "UklGRiQ" |})
       end;
     trim := ascii_trim;
     JSON_parse := parse_beats;
     decodeAudioData := fun _ => Settles 300 (Fulfilled clip2);
     timer_first := true |}.

(** A service that refuses every request. *)
Definition env_down : Env :=
  {| generateContent := fun _ => Settles 100 (Rejected (Err "503 Service Unavailable"));
     trim := ascii_trim;
     JSON_parse := parse_beats;
     decodeAudioData := fun _ => Settles 300 (Fulfilled clip2);
     timer_first := true |}.

(** A service that never answers. *)
Definition env_silent : Env :=
  {| generateContent := fun _ => NeverSettles;
     trim := ascii_trim;
     JSON_parse := parse_beats;
     decodeAudioData := fun _ => Settles 300 (Fulfilled clip2);
     timer_first := true |}.

(** A service whose outline is the given text. *)
Definition env_outline (text : string) : Env :=
  {| generateContent := fun req =>
       match req with
       | OutlineRequest _ _ => Settles 2000 (Fulfilled (answer text))
       | other => generateContent env_ok other
       end;
     trim := ascii_trim;
     JSON_parse := parse_beats;
     decodeAudioData := fun _ => Settles 300 (Fulfilled clip2);
     timer_first := true |}.

(** A service that answers every request with white space. *)
Definition env_blank : Env :=
  {| generateContent := fun _ => Settles 2000 (Fulfilled (answer "   "));
     trim := ascii_trim;
     JSON_parse := parse_beats;
     decodeAudioData := fun _ => Settles 300 (Fulfilled clip2);
     timer_first := true |}.

(** A service that takes its time for segments, within the deadlines. *)
Definition env_slow : Env :=
  {| generateContent := fun req =>
       match req with
       | SegmentRequest _ _ _ _ _ =>
           Settles 50000 (Fulfilled (answer "A long way round."))
       | SpeechRequest _ _ =>
           Settles 90000
             (Fulfilled {| response_text := None;
                           response_audioData := Some "UklGRiQ" |})
       | other => generateContent env_ok other
       end;
     trim := ascii_trim;
     JSON_parse := parse_beats;
     decodeAudioData := fun _ => Settles 300 (Fulfilled clip2);
     timer_first := true |}.

(** A first story, the first background request, a new start, a second
    story and its first background request. *)
Definition restart_trace : list App.Event :=
  [ App.RouteFound env_ok details;
    App.BufferingEffect env_slow;
    App.ResetClicked;
    App.RouteFound env_ok details;
    App.BufferingEffect env_ok ].

(** A first story, the first background request and its answer. *)
Definition plain_trace : list App.Event :=
  [ App.RouteFound env_ok details;
    App.BufferingEffect env_ok;
    App.RequestsBack 0;
    App.SegmentChanged 1;
    App.BufferingEffect env_ok ].

End Sample.

(* ===================================================================== *)
(** ** Theorems *)
(* ===================================================================== *)

Lemma Qceiling_le_iff (x : Q) (n : Z) : (Qceiling x <= n)%Z <-> (x <= inject_Z n)%Q.
Proof.
  split; intros H.
  - apply Qle_trans with (inject_Z (Qceiling x)); [apply Qle_ceiling|].
    rewrite <- Zle_Qle. exact H.
  - destruct (Z_le_gt_dec (Qceiling x) n) as [Hle|Hgt]; [exact Hle|exfalso].
    assert (Hlt : (inject_Z (Qceiling x - 1) < x)%Q) by apply Qceiling_lt.
    assert (Hn : (inject_Z n <= inject_Z (Qceiling x - 1))%Q)
      by (rewrite <- Zle_Qle; lia).
    apply (Qlt_irrefl x).
    eapply Qle_lt_trans; [exact H|]. eapply Qle_lt_trans; [exact Hn|exact Hlt].
Qed.

(** In exact arithmetic the number of segments is at least 1 for every
    duration, it is 1 for zero and for negative durations, and it is the
    least integer [n >= 1] with [d <= 45 n]. *)
Lemma exact_segments_spec (d : Q) :
  calculateTotalSegments d = Z.max 1 (Qceiling (d / 45))
  /\ 1 <= calculateTotalSegments d
  /\ ((d <= 0)%Q -> calculateTotalSegments d = 1)
  /\ (forall n : Z, calculateTotalSegments d <= n <->
                    1 <= n /\ (d <= 45 * inject_Z n)%Q).
Proof.
  assert (Hchar : forall n : Z,
             Qceiling (d / 45) <= n <-> (d <= 45 * inject_Z n)%Q).
  { intros n. rewrite Qceiling_le_iff. split; intros H.
    - assert (Hd : (d == d / 45 * 45)%Q) by field.
      rewrite Hd at 1. rewrite (Qmult_comm 45).
      apply Qmult_le_compat_r; [exact H|discriminate].
    - apply Qle_shift_div_r; [reflexivity|]. rewrite Qmult_comm. exact H. }
  unfold calculateTotalSegments, TARGET_SEGMENT_DURATION_SEC.
  repeat split.
  - lia.
  - intros Hd. assert (Qceiling (d / 45) <= 0).
    { apply Hchar. rewrite Qmult_0_r. exact Hd. }
    lia.
  - lia.
  - apply Hchar. lia.
  - intros [H1 H2]. apply Hchar in H2. lia.
Qed.

(** *** The segment count on doubles *)

Section DoubleFacts.
Import Double.

Lemma range_all_nat (test : Z -> bool) (count : nat) (first n : Z) :
  range_all test first count = true ->
  first <= n < first + Z.of_nat count -> test n = true.
Proof.
  revert first. induction count as [|count IH]; intros first H Hn; [lia|].
  simpl in H. apply andb_true_iff in H as [Hfirst Hrest].
  destruct (Z.eq_dec n first) as [->|Hne]; [exact Hfirst|].
  apply (IH (first + 1)); [exact Hrest|lia].
Qed.

Lemma range_all_spec (test : Z -> bool) (first count n : Z) :
  range_all test first (Z.to_nat count) = true ->
  first <= n < first + count -> test n = true.
Proof. intros H Hn. apply (range_all_nat _ _ _ _ H). lia. Qed.

Lemma is_nan_spec (x : float) : is_nan x = true <-> Prim2SF x = S754_nan.
Proof.
  unfold Prim2SF. destruct (is_nan x); [by split|].
  split; [discriminate|].
  destruct (is_zero x); [discriminate|].
  destruct (is_infinity x); [discriminate|].
  destruct (Z.frexp x) as [r e].
  destruct (shr_fexp prec emax _ _ _) as [mrs e'].
  by destruct (shr_m mrs).
Qed.

Lemma nan_only (x : float) : is_nan x = true -> x = nan.
Proof.
  intros H. apply is_nan_spec in H.
  rewrite <- (SF2Prim_Prim2SF x), H. reflexivity.
Qed.

Lemma not_nan_spec (x : float) : is_nan x = false <-> Prim2SF x <> S754_nan.
Proof.
  rewrite <- is_nan_spec. destruct (is_nan x); split; congruence.
Qed.

Lemma shr_1_nonneg (mrs : shr_record) : 0 <= shr_m mrs -> 0 <= shr_m (shr_1 mrs).
Proof.
  destruct mrs as [m r s]. simpl. destruct m as [|[p|p|]|p]; simpl; lia.
Qed.

Lemma iter_pos_nonneg (p : positive) (mrs : shr_record) :
  0 <= shr_m mrs -> 0 <= shr_m (SpecFloat.iter_pos shr_1 p mrs).
Proof.
  revert mrs. induction p as [p IH|p IH|]; intros mrs H; simpl.
  - apply IH, IH, shr_1_nonneg, H.
  - apply IH, IH, H.
  - apply shr_1_nonneg, H.
Qed.

Lemma shr_fexp_nonneg (m e : Z) (l : location) :
  0 <= m -> 0 <= shr_m (fst (shr_fexp prec emax m e l)).
Proof.
  intros H. unfold shr_fexp, shr.
  assert (H0 : 0 <= shr_m (shr_record_of_loc m l)) by (by destruct l as [|[]]).
  destruct (fexp prec emax (Zdigits2 m + e) - e); simpl; [exact H0| |exact H0].
  by apply iter_pos_nonneg.
Qed.

Lemma binary_round_aux_not_nan (sx : bool) (mx ex : Z) (lx : location) :
  0 <= mx -> binary_round_aux prec emax sx mx ex lx <> S754_nan.
Proof.
  intros H. unfold binary_round_aux.
  pose proof (shr_fexp_nonneg mx ex lx H) as H1.
  destruct (shr_fexp prec emax mx ex lx) as [mrs' e']. simpl in H1.
  assert (H2 : 0 <= round_nearest_even (shr_m mrs') (loc_of_shr_record mrs')).
  { unfold round_nearest_even. destruct (loc_of_shr_record mrs') as [|[]];
      try destruct (Z.even _); lia. }
  pose proof (shr_fexp_nonneg _ e' loc_Exact H2) as H3.
  destruct (shr_fexp prec emax _ e' loc_Exact) as [mrs'' e'']. simpl in H3.
  destruct (shr_m mrs'') as [|m|m]; [discriminate| |lia].
  by destruct (e'' <=? emax - prec).
Qed.

Lemma div_45_not_nan (d : float) : is_nan d = false -> is_nan (d / 45) = false.
Proof.
  intros Hd. apply not_nan_spec. apply not_nan_spec in Hd.
  rewrite div_spec.
  replace (Prim2SF 45) with (S754_finite false 6333186975989760 (-47))
    by (vm_compute; reflexivity).
  destruct (Prim2SF d) as [sd|sd| |sd md ed]; try discriminate; [contradiction|].
  unfold SF64div, SFdiv.
  destruct (SFdiv_core_binary prec emax (Z.pos md) ed 6333186975989760 (-47))
    as [[mz ez] lz] eqn:Hcore.
  apply binary_round_aux_not_nan.
  unfold SFdiv_core_binary in Hcore.
  destruct (Z.div_eucl _ 6333186975989760) as [q r] eqn:Hq in Hcore.
  injection Hcore as <- _ _.
  match type of Hq with Z.div_eucl ?a ?b = _ =>
    assert (Ha : 0 <= a); [|pose proof (Z_div_mod a b eq_refl) as Hdm;
                             rewrite Hq in Hdm] end.
  { destruct (ed - -47 - _) as [|s|s]; try lia. rewrite Z.shiftl_mul_pow2 by lia. lia. }
  nia.
Qed.

Lemma of_uint63_not_nan (n : PrimInt63.int) : is_nan (of_uint63 n) = false.
Proof.
  apply not_nan_spec. rewrite of_uint63_spec. unfold binary_normalize, binary_round.
  destruct (Uint63Axioms.to_Z n) as [|m|m]; [discriminate| |].
  - destruct (shl_align m 0 _) as [mz ez]. by apply binary_round_aux_not_nan.
  - destruct (shl_align m 0 _) as [mz ez]. by apply binary_round_aux_not_nan.
Qed.

Lemma opp_not_nan (x : float) : is_nan x = false -> is_nan (- x) = false.
Proof.
  intros H. apply not_nan_spec. apply not_nan_spec in H. rewrite opp_spec.
  by destruct (Prim2SF x).
Qed.

Lemma of_Z_not_nan (n : Z) : is_nan (of_Z n) = false.
Proof.
  destruct n; simpl; [reflexivity|apply of_uint63_not_nan|].
  apply opp_not_nan, of_uint63_not_nan.
Qed.

Lemma Math_ceil_not_nan (x : float) : is_nan x = false -> is_nan (Math_ceil x) = false.
Proof.
  intros H. unfold Math_ceil.
  destruct (Prim2SF x) as [| | |sign m e]; try exact H.
  destruct (0 <=? e); [exact H|].
  destruct sign; [apply opp_not_nan|]; apply of_Z_not_nan.
Qed.

Lemma ltb_leb (a b : float) : (a <? b)%float = true -> (a <=? b)%float = true.
Proof.
  rewrite ltb_spec, leb_spec. unfold SFltb, SFleb.
  by destruct (SFcompare _ _) as [[]|].
Qed.

Lemma Math_max_one (c : float) :
  is_nan c = false ->
  is_nan (Math_max 1 c) = false /\ (1 <=? Math_max 1 c)%float = true.
Proof.
  intros Hc. unfold Math_max.
  change (is_nan 1) with false. rewrite Hc. simpl.
  destruct (1 <? c)%float eqn:Hlt; [split; [exact Hc|by apply ltb_leb]|].
  destruct (c <? 1)%float; [by split|].
  change (get_sign 1) with false. by split.
Qed.

Lemma calculateTotalSegments_not_nan (d : float) :
  is_nan d = false ->
  is_nan (calculateTotalSegments d) = false
  /\ (1 <=? calculateTotalSegments d)%float = true.
Proof.
  intros H. apply Math_max_one, Math_ceil_not_nan, div_45_not_nan, H.
Qed.

Lemma binary_round_aux_sign (sx : bool) (mx ex : Z) (lx : location) :
  0 <= mx -> has_sign sx (binary_round_aux prec emax sx mx ex lx).
Proof.
  intros H. unfold binary_round_aux.
  pose proof (shr_fexp_nonneg mx ex lx H) as H1.
  destruct (shr_fexp prec emax mx ex lx) as [mrs' e']. simpl in H1.
  assert (H2 : 0 <= round_nearest_even (shr_m mrs') (loc_of_shr_record mrs')).
  { unfold round_nearest_even. destruct (loc_of_shr_record mrs') as [|[]];
      try destruct (Z.even _); lia. }
  pose proof (shr_fexp_nonneg _ e' loc_Exact H2) as H3.
  destruct (shr_fexp prec emax _ e' loc_Exact) as [mrs'' e'']. simpl in H3.
  destruct (shr_m mrs'') as [|m|m]; [reflexivity| |lia].
  by destruct (e'' <=? emax - prec).
Qed.

Lemma leb_zero (d : float) : (d <=? 0)%float = true -> not_positive (Prim2SF d).
Proof.
  rewrite leb_spec. change (Prim2SF 0) with (S754_zero false).
  unfold SFleb, SFcompare. by destruct (Prim2SF d) as [s|[]| |[] m e].
Qed.

Lemma div_45_not_positive (d : float) :
  not_positive (Prim2SF d) -> not_positive (Prim2SF (d / 45)).
Proof.
  intros Hd. rewrite div_spec.
  replace (Prim2SF 45) with (S754_finite false 6333186975989760 (-47))
    by (vm_compute; reflexivity).
  destruct (Prim2SF d) as [sd|sd| |sd md ed]; simpl in *;
    [exact I|by subst|contradiction|subst sd].
  unfold SF64div, SFdiv.
  destruct (SFdiv_core_binary prec emax (Z.pos md) ed 6333186975989760 (-47))
    as [[mz ez] lz] eqn:Hcore.
  assert (Hmz : 0 <= mz).
  { unfold SFdiv_core_binary in Hcore.
    destruct (Z.div_eucl _ 6333186975989760) as [q r] eqn:Hq in Hcore.
    injection Hcore as <- _ _.
    match type of Hq with Z.div_eucl ?a ?b = _ =>
      assert (Ha : 0 <= a); [|pose proof (Z_div_mod a b eq_refl) as Hdm;
                               rewrite Hq in Hdm] end.
    { destruct (ed - -47 - _) as [|s|s]; try lia.
      rewrite Z.shiftl_mul_pow2 by lia. lia. }
    nia. }
  pose proof (binary_round_aux_sign (xorb true false) mz ez lz Hmz) as Hs.
  by destruct (binary_round_aux _ _ _ _ _ _).
Qed.

Lemma of_uint63_sign (n : PrimInt63.int) : has_sign false (Prim2SF (of_uint63 n)).
Proof.
  rewrite of_uint63_spec. unfold binary_normalize, binary_round.
  pose proof (Uint63.to_Z_bounded n) as Hn.
  destruct (Uint63Axioms.to_Z n) as [|m|m]; [reflexivity| |lia].
  destruct (shl_align m 0 _) as [mz ez]. by apply binary_round_aux_sign.
Qed.

Lemma Math_ceil_not_positive (x : float) :
  not_positive (Prim2SF x) -> not_positive (Prim2SF (Math_ceil x)).
Proof.
  intros H. unfold Math_ceil.
  destruct (Prim2SF x) as [| | |sign m e] eqn:Hx; try (by rewrite Hx).
  destruct (0 <=? e) eqn:He; [by rewrite Hx|]. apply Z.leb_gt in He.
  simpl in H. subst sign. rewrite opp_spec.
  assert (Hw : has_sign false (Prim2SF (of_Z (Z.pos m / 2 ^ (- e))))).
  { destruct (Z.pos m / 2 ^ (- e)) as [|w|w] eqn:Hdiv; simpl.
    - reflexivity.
    - apply of_uint63_sign.
    - pose proof (Z.div_pos (Z.pos m) (2 ^ (- e))) as Hpos.
      assert (0 < 2 ^ (- e)) by (apply Z.pow_pos_nonneg; lia). lia. }
  destruct (Prim2SF (of_Z _)); simpl in *; try exact I; by subst.
Qed.

Lemma Math_max_one_not_positive (c : float) :
  not_positive (Prim2SF c) -> Math_max 1 c = 1%float.
Proof.
  intros H. unfold Math_max. change (is_nan 1) with false.
  assert (Hnan : is_nan c = false).
  { apply not_nan_spec. by destruct (Prim2SF c). }
  rewrite Hnan. simpl. rewrite !ltb_spec.
  replace (Prim2SF 1) with (S754_finite false 4503599627370496 (-52))
    by (vm_compute; reflexivity).
  unfold SFltb, SFcompare.
  destruct (Prim2SF c) as [s|s| |s m e]; simpl in H; try subst s;
    try contradiction; reflexivity.
Qed.

Lemma calculateTotalSegments_not_positive (d : float) :
  (d <=? 0)%float = true -> calculateTotalSegments d = 1%float.
Proof.
  intros H. apply Math_max_one_not_positive, Math_ceil_not_positive,
    div_45_not_positive, leb_zero, H.
Qed.

Lemma calculateTotalSegments_of_nan (d : float) :
  is_nan d = true -> calculateTotalSegments d = nan.
Proof. intros H. rewrite (nan_only d H). reflexivity. Qed.

Lemma whole_seconds_exact (n : Z) :
  -14400 <= n <= 14400 ->
  calculateTotalSegments (of_Z n) = of_Z (Z.max 1 (Qceiling (inject_Z n / 45))).
Proof.
  intros Hn. apply FloatAxioms.Leibniz.eqb_spec.
  apply (range_all_spec exact_at (-14400) 28801); [vm_compute; reflexivity|lia].
Qed.

End DoubleFacts.

(** C9, as amended.  On the engine's doubles, [calculateTotalSegments]
    is [Math.max(1, Math.ceil(durationSeconds / 45))] with the division
    rounded.  For NaN it is NaN.  For every other double it is a number
    that is at least 1, and it is 1 for every double that is zero or
    below zero, -0 and -Infinity included; for Infinity it is Infinity.
    For every whole number [n] of seconds from -14400 to 14400 it is
    exactly the integer max(1, ceil(n / 45)) of exact arithmetic, the
    least integer [k >= 1] with [n <= 45 k]. *)
Theorem calculateTotalSegments_spec :
  (forall d, is_nan d = true -> Double.calculateTotalSegments d = nan)
  /\ (forall d,
       is_nan d = false ->
       is_nan (Double.calculateTotalSegments d) = false
       /\ (1 <=? Double.calculateTotalSegments d)%float = true)
  /\ (forall d,
       (d <=? 0)%float = true -> Double.calculateTotalSegments d = 1%float)
  /\ (forall n,
       -14400 <= n <= 14400 ->
       exists k,
         Double.calculateTotalSegments (Double.of_Z n) = Double.of_Z k
         /\ k = Z.max 1 (Qceiling (inject_Z n / 45))
         /\ k = calculateTotalSegments (inject_Z n)
         /\ 1 <= k
         /\ (forall j, k <= j <-> 1 <= j /\ n <= 45 * j))
  /\ Double.calculateTotalSegments infinity = infinity.
Proof.
  split; [exact calculateTotalSegments_of_nan|].
  split; [exact calculateTotalSegments_not_nan|].
  split; [exact calculateTotalSegments_not_positive|].
  split; [|reflexivity].
  intros n Hn. exists (calculateTotalSegments (inject_Z n)).
  destruct (exact_segments_spec (inject_Z n)) as (_ & Hone & _ & Hleast).
  split; [by apply whole_seconds_exact|].
  split; [reflexivity|]. split; [reflexivity|]. split; [exact Hone|].
  intros j. rewrite Hleast.
  change 45%Q with (inject_Z 45). rewrite <- inject_Z_mult, <- Zle_Qle.
  reflexivity.
Qed.

(** What [Math.ceil] and [Math.max] are on some doubles: the ceiling of
    a double in (-1, 0) is -0, which [1 / x] tells from +0. *)
Example Math_ceil_values :
  Double.Math_ceil 2.5 = 3%float
  /\ Double.Math_ceil (-2.5) = (-2)%float
  /\ Double.Math_ceil 7 = 7%float
  /\ Double.Math_ceil 0x1p-1074 = 1%float
  /\ Double.Math_ceil (-0.5) = (-0)%float
  /\ (1 / Double.Math_ceil (-0.5))%float = neg_infinity
  /\ Double.Math_ceil 0x1p+60 = 0x1p+60%float
  /\ Double.Math_ceil neg_infinity = neg_infinity
  /\ Double.Math_ceil nan = nan.
Proof. repeat split. Qed.

Example Math_max_values :
  Double.Math_max 1 4 = 4%float
  /\ Double.Math_max 1 0.25 = 1%float
  /\ Double.Math_max 1 nan = nan
  /\ Double.Math_max nan 1 = nan
  /\ (1 / Double.Math_max (-0) 0)%float = infinity
  /\ (1 / Double.Math_max 0 (-0))%float = infinity
  /\ Double.Math_max 1 infinity = infinity.
Proof. repeat split. Qed.

(** C9, as it was stated, fails: the result for NaN is NaN, which is not
    at least 1; and where the division rounds, the result is not the
    exact integer: for 1e18 seconds it is 22222222222222224, while
    max(1, ceil(10^18 / 45)) is 22222222222222223. *)
Lemma calculateTotalSegments_nan_and_rounding :
  Double.calculateTotalSegments nan = nan
  /\ (1 <=? Double.calculateTotalSegments nan)%float = false
  /\ Double.calculateTotalSegments 1e18 = 22222222222222224%float
  /\ Double.of_Z (10 ^ 18) = 1e18%float
  /\ Z.max 1 (Qceiling (inject_Z (10 ^ 18) / 45)) = 22222222222222223.
Proof. repeat split. Qed.

Example calculateTotalSegments_zero : calculateTotalSegments 0 = 1.
Proof. reflexivity. Qed.

Example calculateTotalSegments_negative : calculateTotalSegments (-100) = 1.
Proof. reflexivity. Qed.

Example calculateTotalSegments_46 : calculateTotalSegments 46 = 2.
Proof. reflexivity. Qed.

Example calculateTotalSegments_four_hours : calculateTotalSegments 14400 = 320.
Proof. reflexivity. Qed.

(** *** RoutePlanner *)

(** C10.  On an OK answer of the directions service whose leg lasts more
    than 14400 seconds the callback sets the error message and does not
    call [onRouteFound]; so every [RouteDetails] that the directions path
    hands to [onRouteFound] has [durationSeconds] at most 14400. *)
Theorem directions_four_hour_limit
    (startInput endInput : option string)
    (status : RoutePlanner.DirectionsStatus) (leg : RoutePlanner.Leg)
    (s : RoutePlanner.State) :
  ((14400 < RoutePlanner.duration_value leg)%Q ->
   RoutePlanner.directionsCallback RoutePlanner.OK leg s =
     (RoutePlanner.setError
        (Some "Journey too long. Try a route under 4 hours.")
        (RoutePlanner.setIsLoading false s), None))
  /\ (forall s' details,
        RoutePlanner.directionsPath startInput endInput status leg s
          = (s', Some details) ->
        status = RoutePlanner.OK
        /\ durationSeconds details = RoutePlanner.duration_value leg
        /\ (durationSeconds details <= 14400)%Q).
Proof.
  split.
  - intros Hlong. unfold RoutePlanner.directionsCallback.
    destruct (Qle_bool (RoutePlanner.duration_value leg) 14400) eqn:Hle; [|reflexivity].
    apply Qle_bool_iff in Hle. exfalso.
    exact (Qlt_irrefl _ (Qle_lt_trans _ _ _ Hle Hlong)).
  - intros s' details. unfold RoutePlanner.directionsPath.
    destruct (RoutePlanner.handleCalculate startInput endInput true true s)
      as [s1 [[o d m|fs fe]|]]; try discriminate.
    unfold RoutePlanner.directionsCallback.
    destruct status; try discriminate.
    destruct (Qle_bool (RoutePlanner.duration_value leg) 14400) eqn:Hle;
      simpl; [|discriminate].
    intros [= <- <-]. simpl. apply Qle_bool_iff in Hle. auto.
Qed.

(** *** The player *)

Section Player.
Import StoryPlayer.

Lemma playSegment_clip (seg : option StorySegment) (buf : AudioBuffer)
    (offset now : Q) (s : State) :
  clip seg = Some buf ->
  playSegment seg offset now s =
    {| isPlaying := isPlaying s; currentSegmentIndex := currentSegmentIndex s;
       isBuffering := isBuffering s; audioContextRef := true;
       sourceRef := Some {| buffer := buf; startOffset := offset |};
       startTimeRef := (now - offset)%Q;
       segmentOffsetRef := segmentOffsetRef s; indexRef := indexRef s |}.
Proof. intros H. unfold playSegment. rewrite H. reflexivity. Qed.



(** Before that moment the callback leaves the player as it is. *)
Lemma onended_too_early
    (segment : StorySegment) (buf : AudioBuffer) (props : Props)
    (now : Q) (s : State) :
  audioBuffer segment = Some buf ->
  (now - startTimeRef s < clip_duration buf - 0.5)%Q ->
  onended segment props now s = s.
Proof.
  intros Hbuf Hearly. unfold onended. rewrite Hbuf.
  destruct (negb (audioContextRef s)); [reflexivity|].
  destruct (Qle_bool (clip_duration buf - 0.5) (now - startTimeRef s)) eqn:H;
    [|reflexivity].
  apply Qle_bool_iff in H. exfalso.
  exact (Qlt_irrefl _ (Qle_lt_trans _ _ _ H Hearly)).
Qed.





End Player.

(** *** The segment list *)

Section Segments.
Import App.

Lemma insert_by_index_perm (x : StorySegment) (l : list StorySegment) :
  insert_by_index x l ≡ₚ x :: l.
Proof.
  induction l as [|y l IH]; simpl; [reflexivity|].
  destruct (index x - index y <=? 0); [reflexivity|].
  rewrite IH. apply Permutation_swap.
Qed.

Lemma sort_by_index_perm (l : list StorySegment) : sort_by_index l ≡ₚ l.
Proof.
  induction l as [|x l IH]; simpl; [reflexivity|].
  rewrite insert_by_index_perm. by rewrite IH.
Qed.

Lemma ascending_cons (x : StorySegment) (l : list StorySegment) :
  ascending (x :: l) <-> Forall (fun y => index x < index y) l /\ ascending l.
Proof.
  unfold ascending. rewrite fmap_cons. split.
  - intros H. apply StronglySorted_inv in H as [Hl Hx].
    split; [|exact Hl]. rewrite Forall_fmap in Hx. exact Hx.
  - intros [Hx Hl]. constructor; [exact Hl|]. rewrite Forall_fmap. exact Hx.
Qed.

Lemma insert_by_index_ascending (x : StorySegment) (l : list StorySegment) :
  ascending l ->
  Forall (fun y => index y <> index x) l ->
  ascending (insert_by_index x l).
Proof.
  induction l as [|y l IH]; intros Hl Hfresh; simpl.
  - apply ascending_cons. split; constructor.
  - apply Forall_cons in Hfresh as [Hy Hfresh].
    pose proof Hl as Hl'. apply ascending_cons in Hl' as [Hyl Hl'].
    destruct (index x - index y <=? 0) eqn:Hcmp.
    + apply Z.leb_le in Hcmp. apply ascending_cons. split; [|exact Hl].
      constructor; [lia|].
      eapply Forall_impl; [exact Hyl|]. simpl. intros z Hz. lia.
    + apply Z.leb_gt in Hcmp. apply ascending_cons. split.
      * rewrite insert_by_index_perm. constructor; [lia|exact Hyl].
      * by apply IH.
Qed.

Lemma sort_by_index_ascending (l : list StorySegment) :
  NoDup (index <$> l) -> ascending (sort_by_index l).
Proof.
  induction l as [|x l IH]; simpl; intros Hnd.
  - constructor.
  - apply NoDup_cons in Hnd as [Hx Hnd].
    apply insert_by_index_ascending; [by apply IH|].
    rewrite sort_by_index_perm. apply Forall_forall. intros y Hy Heq.
    apply Hx. rewrite <- Heq. apply list_elem_of_fmap. by exists y.
Qed.

Lemma ascending_NoDup (l : list StorySegment) : ascending l -> NoDup (index <$> l).
Proof.
  induction l as [|x l IH]; simpl; intros H; [constructor|].
  apply ascending_cons in H as [Hx Hl]. apply NoDup_cons. split; [|by apply IH].
  intros Hin. apply list_elem_of_fmap in Hin as (y & Hy & Hin).
  rewrite Forall_forall in Hx. specialize (Hx y Hin). lia.
Qed.

Lemma ascending_sorted (l : list StorySegment) :
  ascending l -> Sorted Z.le (index <$> l).
Proof.
  induction l as [|x l IH]; intros H; [constructor|].
  apply ascending_cons in H as [Hx Hl]. rewrite fmap_cons.
  constructor; [by apply IH|].
  destruct l as [|y l]; [constructor|].
  rewrite fmap_cons. constructor. apply Forall_cons in Hx as [Hy _]. lia.
Qed.

Lemma has_index_false (i : Z) (l : list StorySegment) :
  has_index i l = false <-> i ∉ (index <$> l).
Proof.
  unfold has_index. induction l as [|y l IH]; simpl.
  - split; [intros _ Hin; inversion Hin|reflexivity].
  - rewrite orb_false_iff, IH, not_elem_of_cons, Z.eqb_neq. intuition.
Qed.

Lemma has_index_true (i : Z) (l : list StorySegment) :
  has_index i l = true <-> i ∈ (index <$> l).
Proof.
  destruct (has_index i l) eqn:H.
  - split; [intros _|reflexivity].
    destruct (decide (i ∈ (index <$> l))) as [Hin|Hout]; [exact Hin|].
    apply has_index_false in Hout. congruence.
  - apply has_index_false in H. split; [discriminate|contradiction].
Qed.

Lemma append_ascending (l : list StorySegment) (x : StorySegment) :
  ascending l -> index x ∉ (index <$> l) -> ascending (sort_by_index (l ++ [x])).
Proof.
  intros Hl Hx. apply sort_by_index_ascending.
  rewrite fmap_app. simpl. apply NoDup_app. split; [by apply ascending_NoDup|].
  split; [|apply NoDup_singleton].
  intros i Hi Hi'. apply list_elem_of_singleton in Hi'. by subst.
Qed.

Lemma appendSegment_ascending (i : Z) (segmentData : StorySegment)
    (audio : AudioBuffer) (prev st : AudioStory) :
  index segmentData = i ->
  ascending (segments prev) ->
  appendSegment i segmentData audio (Some prev) = Some st ->
  ascending (segments st).
Proof.
  intros Hi Hprev. unfold appendSegment.
  destruct (has_index i (segments prev)) eqn:Hhas; intros [= <-]; [exact Hprev|].
  simpl. apply append_ascending; [exact Hprev|]. simpl.
  rewrite Hi. by apply has_index_false.
Qed.

Lemma sorted_NoDup_ascending (l : list StorySegment) :
  NoDup (index <$> l) -> Sorted Z.le (index <$> l) -> ascending l.
Proof.
  induction l as [|x l IH]; [constructor|].
  rewrite fmap_cons. intros Hnd Hs. apply NoDup_cons in Hnd as [Hx Hnd].
  apply Sorted_StronglySorted in Hs; [|intros a b c; apply Z.le_trans].
  apply StronglySorted_inv in Hs as [Hs Hle].
  apply ascending_cons. split.
  - rewrite Forall_forall in Hle. apply Forall_forall. intros y Hy.
    assert (Hin : index y ∈ index <$> l) by (apply list_elem_of_fmap; by exists y).
    specialize (Hle _ Hin).
    assert (index x <> index y) by (intros Heq; apply Hx; by rewrite Heq).
    lia.
  - apply IH; [exact Hnd|]. by apply StronglySorted_Sorted.
Qed.

End Segments.

(** *** Time-outs *)

Lemma await_ret {T} (p : Promise T) : (val ← p; mret val) = p.
Proof.
  destruct p as [t [v|e]|]; try reflexivity.
  unfold mbind, promise_bind, await, mret, promise_ret, ret, delay.
  by rewrite Z.add_0_r.
Qed.

Lemma withTimeout_unfold {T} (tf : bool) (p : Promise T) (ms : Z) (msg : string) :
  withTimeout tf p ms msg =
    match p with
    | Settles t o =>
        if (t <? Z.max 0 ms) || ((t =? Z.max 0 ms) && negb tf)
        then Settles t o
        else Settles (Z.max 0 ms) (Rejected (Err msg))
    | NeverSettles => Settles (Z.max 0 ms) (Rejected (Err msg))
    end.
Proof.
  unfold withTimeout. rewrite await_ret. unfold race, rejectAfter.
  destruct p as [t o|]; reflexivity.
Qed.

(** A promise under [withTimeout] always settles, by the deadline, either
    as the promise itself did or with the time-out error. *)
Lemma withTimeout_settles {T} (tf : bool) (p : Promise T) (ms : Z) (msg : string) :
  exists t o, withTimeout tf p ms msg = Settles t o
              /\ t <= Z.max 0 ms
              /\ (p = Settles t o \/ o = Rejected (Err msg)).
Proof.
  rewrite withTimeout_unfold. destruct p as [t o|].
  - destruct ((t <? Z.max 0 ms) || ((t =? Z.max 0 ms) && negb tf)) eqn:H.
    + exists t, o. repeat split; [|by left].
      apply orb_true_iff in H as [H|H]; [apply Z.ltb_lt in H; lia|].
      apply andb_true_iff in H as [H _]. apply Z.eqb_eq in H. lia.
    + exists (Z.max 0 ms), (Rejected (Err msg)). repeat split; [lia|by right].
  - exists (Z.max 0 ms), (Rejected (Err msg)). repeat split; [lia|by right].
Qed.

Lemma withTimeout_fulfilled {T} (tf : bool) (p : Promise T) (ms : Z)
    (msg : string) (t : Z) (v : T) :
  withTimeout tf p ms msg = Settles t (Fulfilled v) -> p = Settles t (Fulfilled v).
Proof.
  destruct (withTimeout_settles tf p ms msg) as (t' & o & -> & _ & [Hp|Ho]);
    intros [= <- ->]; [exact Hp|discriminate].
Qed.

(** *** The service functions *)

Lemma generateSegment_index (env : Env) (route : RouteDetails) (i total : Z)
    (beat : JsValue) (context : string) (t : Z) (seg : StorySegment) :
  generateSegment env route i total beat context = Settles t (Fulfilled seg) ->
  index seg = i /\ audioBuffer seg = None.
Proof.
  unfold generateSegment, mbind, promise_bind, await.
  destruct (generateContent env (SegmentRequest route i total beat context))
    as [t' [r|e]|]; simpl; try discriminate.
  intros [= _ <-]. split; reflexivity.
Qed.

Lemma segmentRequests_index (env : Env) (route : RouteDetails)
    (story : AudioStory) (i : Z) (t : Z) (seg : StorySegment) (audio : AudioBuffer) :
  App.segmentRequests env route story i = Settles t (Fulfilled (seg, audio)) ->
  index seg = i.
Proof.
  unfold App.segmentRequests.
  destruct (withTimeout (timer_first env) (generateSegment _ _ _ _ _ _) _ _)
    as [t1 [seg1|e1]|] eqn:H1; try discriminate.
  unfold mbind at 1, promise_bind at 1, await at 1.
  destruct (withTimeout (timer_first env) (generateSegmentAudio _ _ _) _ _)
    as [t2 [a2|e2]|] eqn:H2; try discriminate.
  simpl. intros [= _ <- _].
  apply withTimeout_fulfilled in H1. by apply generateSegment_index in H1 as [? _].
Qed.

Lemma segmentRequests_settles (env : Env) (route : RouteDetails)
    (story : AudioStory) (i : Z) :
  exists t o, App.segmentRequests env route story i = Settles t o /\ t <= 160000.
Proof.
  unfold App.segmentRequests.
  destruct (withTimeout_settles (timer_first env)
              (generateSegment env route i (totalSegmentsEstimate story)
                 (App.or_else (App.item_at (outline story) (i - 1))
                    App.NEXT_OUTLINE_FALLBACK)
                 (App.allPreviousText story))
              60000 ("Text generation timed out for segment " +:+ pretty i))
    as (t1 & o1 & -> & Ht1 & _).
  destruct o1 as [seg|e]; [|exists t1, (Rejected e); split; [reflexivity|lia]].
  unfold mbind at 1, promise_bind at 1, await at 1.
  destruct (withTimeout_settles (timer_first env)
              (generateSegmentAudio env (text seg) (voiceName route))
              100000 ("Audio generation timed out for segment " +:+ pretty i))
    as (t2 & o2 & -> & Ht2 & _).
  destruct o2 as [a|e]; simpl; eexists _, _; (split; [reflexivity|lia]).
Qed.

(** *** generateNextSegment, in one piece and in steps *)

Lemma generateNextSegment_factors (env : Env) (i : Z) (s : App.State) :
  App.generateNextSegment env i s =
    match App.route s, App.story s with
    | Some route, Some story =>
        if App.isGeneratingRef s then Done 0 s (Fulfilled tt)
        else
          match App.segmentRequests env route story i with
          | Settles t o =>
              Done t (App.settleGeneration i o (App.enterGeneration i s))
                (Fulfilled tt)
          | NeverSettles => Hung (App.enterGeneration i s)
          end
    | _, _ => Done 0 s (Fulfilled tt)
    end.
Proof.
  unfold App.generateNextSegment.
  destruct (App.route s) as [route|]; [|reflexivity].
  destruct (App.story s) as [story|]; [|reflexivity].
  destruct (App.isGeneratingRef s); [reflexivity|].
  unfold h_finally, h_try_catch, mbind, handler_bind, h_bind, modify, h_await, later.
  cbn beta iota.
  destruct (App.segmentRequests env route story i) as [t [[seg audio]|e]|];
    [f_equal; lia | f_equal; lia | reflexivity].
Qed.

(** *** handleGenerateStory *)

(** [handleGenerateStory] always comes to an end, within the three
    deadlines, and how it ends is decided by its three requests: when
    they are all fulfilled the story holds its first segment and the app
    is ready to play; when one is rejected, or timed out, the error is
    caught, the app is back to planning and the message for the user is
    set. *)
Lemma handleGenerateStory_outcome (env : Env) (details : RouteDetails)
    (s : App.State) :
  exists t s',
    App.handleGenerateStory env details s = Done t s' (Fulfilled tt)
    /\ t <= 220000
    /\ App.route s' = Some details
    /\ App.isGeneratingRef s' = App.isGeneratingRef s
    /\ match App.initialRequests env details with
       | Settles t' (Fulfilled (beats, seg, audio)) =>
           t' = t
           /\ App.appState s' = READY_TO_PLAY
           /\ App.generationError s' = None
           /\ App.console s' = App.console s
           /\ App.story s' =
               Some {| totalSegmentsEstimate :=
                         calculateTotalSegments (durationSeconds details);
                       outline := beats;
                       segments := [ {| index := 1; text := text seg;
                                        audioBuffer := Some audio |} ] |}
       | Settles t' (Rejected e) =>
           t' = t
           /\ App.appState s' = PLANNING
           /\ App.generationError s' = Some (App.userMessage e)
           /\ App.story s' = App.story s
           /\ App.console s' = App.console s ++ [App.Error_initial_failed e]
       | NeverSettles => False
       end.
Proof.
  unfold App.handleGenerateStory, App.initialRequests.
  unfold h_try_catch, mbind, handler_bind, h_bind, modify, h_await, later,
    promise_bind, await, mret, promise_ret, ret, delay.
  cbn beta iota.
  destruct (withTimeout_settles (timer_first env)
              (generateStoryOutline env details
                 (calculateTotalSegments (durationSeconds details)))
              60000 "Story outline generation timed out")
    as (t1 & o1 & -> & Ht1 & _).
  destruct o1 as [beats|e1].
  2:{ eexists _, _. split; [reflexivity|]. cbn. repeat split; lia. }
  cbn beta iota.
  destruct (withTimeout_settles (timer_first env)
              (generateSegment env details 1
                 (calculateTotalSegments (durationSeconds details))
                 (App.or_else (App.item_at beats 0) (VString "Begin the journey."))
                 "")
              60000 "Initial text generation timed out")
    as (t2 & o2 & H2 & Ht2 & _).
  rewrite H2.
  destruct o2 as [seg|e2].
  2:{ eexists _, _. split; [reflexivity|]. cbn. repeat split; lia. }
  cbn beta iota.
  apply withTimeout_fulfilled in H2. apply generateSegment_index in H2 as [Hi _].
  destruct (withTimeout_settles (timer_first env)
              (generateSegmentAudio env (text seg) (voiceName details))
              100000 "Initial audio generation timed out")
    as (t3 & o3 & -> & Ht3 & _).
  destruct o3 as [audio|e3].
  2:{ eexists _, _. split; [reflexivity|]. cbn. repeat split; lia. }
  eexists _, _. split; [reflexivity|]. cbn. rewrite Hi. repeat split; lia.
Qed.

Lemma handleGenerateStory_story (env : Env) (details : RouteDetails)
    (s : App.State) :
  App.story_ascending s ->
  App.story_ascending (App.final (App.handleGenerateStory env details s)).
Proof.
  intros Hs.
  destruct (handleGenerateStory_outcome env details s)
    as (t & s' & -> & _ & _ & _ & H).
  simpl. unfold App.story_ascending.
  destruct (App.initialRequests env details) as [t' [[[beats seg] audio]|e]|];
    [| |contradiction].
  - destruct H as (_ & _ & _ & _ & ->). simpl.
    apply ascending_cons. split; constructor.
  - destruct H as (_ & _ & _ & -> & _). exact Hs.
Qed.

(** *** What every reachable state satisfies *)

Section Reachable.
Import App.
Variable rank : AppState -> Z.

Lemma well_formed_start : well_formed start.
Proof. split; [exact I|constructor]. Qed.

Lemma well_formed_step (sys : Sys) (ev : Event) :
  well_formed sys -> well_formed (step rank sys ev).
Proof.
  intros [Hstory Hout]. destruct ev as [env|k| |i|env details]; simpl.
  - destruct (bufferingEffect rank (app sys)) as [i|]; [|by split].
    unfold callGenerateNextSegment.
    destruct (route (app sys)) as [rt|] eqn:Hrt; [|by split].
    destruct (story (app sys)) as [st|] eqn:Hst; [|by split].
    destruct (isGeneratingRef (app sys)); [by split|].
    split; simpl.
    + unfold story_ascending in *. simpl. by rewrite Hst in *.
    + apply Forall_app. split; [exact Hout|]. constructor; [|constructor].
      intros t seg audio H. simpl in *. by apply segmentRequests_index in H.
  - destruct (outstanding sys !! k) as [f|] eqn:Hf; [|by split].
    destruct (flight_requests f) as [t o|] eqn:Hreq; [|by split].
    split; simpl; [|by apply Forall_delete].
    unfold story_ascending in *. destruct o as [[seg audio]|e]; simpl; [|exact Hstory].
    destruct (story (app sys)) as [prev|]; simpl; [|exact I].
    destruct (has_index (flight_index f) (segments prev)) eqn:Hhas; [exact Hstory|].
    simpl. apply append_ascending; [exact Hstory|]. simpl.
    rewrite Forall_lookup in Hout. rewrite (Hout k f Hf _ _ _ Hreq).
    by apply has_index_false.
  - split; [exact I|exact Hout].
  - split; [exact Hstory|exact Hout].
  - split; [by apply handleGenerateStory_story|exact Hout].
Qed.

Lemma well_formed_run (evs : list Event) (sys : Sys) :
  well_formed sys -> well_formed (run rank sys evs).
Proof.
  revert sys. induction evs as [|ev evs IH]; intros sys H; [exact H|].
  simpl. apply IH. by apply well_formed_step.
Qed.

Lemma guarded_start : guarded start.
Proof. split; simpl; [lia|]. split; [discriminate|congruence]. Qed.

Lemma guarded_step (sys : Sys) (ev : Event) :
  guarded sys -> quiet sys ev -> guarded (step rank sys ev).
Proof.
  intros Hsame Hquiet. pose proof Hsame as [Hlen Hguard].
  destruct ev as [env|k| |i|env details]; simpl.
  - destruct (bufferingEffect rank (app sys)) as [i|]; [|exact Hsame].
    unfold callGenerateNextSegment.
    destruct (route (app sys)) as [rt|]; [|exact Hsame].
    destruct (story (app sys)) as [st|]; [|exact Hsame].
    destruct (isGeneratingRef (app sys)) eqn:Hg; [exact Hsame|].
    assert (Hnone : outstanding sys = []).
    { destruct (outstanding sys) as [|f l]; [reflexivity|].
      assert (false = true) by (apply Hguard; discriminate). discriminate. }
    rewrite Hnone. split; simpl; [lia|]. split; [discriminate|reflexivity].
  - destruct (outstanding sys !! k) as [f|] eqn:Hf; [|exact Hsame].
    destruct (flight_requests f) as [t o|]; [|exact Hsame].
    clear Hsame. revert Hlen Hguard Hf.
    destruct (outstanding sys) as [|f0 [|f1 l]]; simpl; intros Hlen Hguard Hf;
      [discriminate| |exfalso; lia].
    destruct k as [|k]; [|discriminate].
    split; cbn; [lia|]. split; [discriminate|congruence].
  - simpl in Hquiet. rewrite Hquiet. split; simpl; [lia|].
    split; [discriminate|congruence].
  - exact Hsame.
  - destruct (handleGenerateStory_outcome env details (app sys))
      as (t & s' & -> & _ & _ & Hkeep & _).
    split; simpl; [exact Hlen|]. rewrite Hkeep. exact Hguard.
Qed.

Lemma guarded_run (evs : list Event) (sys : Sys) :
  guarded sys -> quiet_run rank sys evs -> guarded (run rank sys evs).
Proof.
  revert sys. induction evs as [|ev evs IH]; intros sys H Hq; [exact H|].
  destruct Hq as [Hq Hqs]. simpl. apply IH; [by apply guarded_step|exact Hqs].
Qed.

End Reachable.

(** C8.  The function handed to [setStory] returns the previous story
    unchanged when a segment with the incoming index is already there,
    and otherwise appends the new segment and sorts by index; it keeps
    the list free of repeated indices and in ascending order of index,
    and so is the list of every state the component can reach. *)
Theorem segments_sorted_and_distinct :
  (forall i seg audio prev,
     App.has_index i (segments prev) = true ->
     App.appendSegment i seg audio (Some prev) = Some prev)
  /\ (forall i seg audio prev,
       App.has_index i (segments prev) = false ->
       App.appendSegment i seg audio (Some prev) =
         Some {| totalSegmentsEstimate := totalSegmentsEstimate prev;
                 outline := outline prev;
                 segments :=
                   App.sort_by_index
                     (segments prev ++
                        [ {| index := index seg; text := text seg;
                             audioBuffer := Some audio |} ]) |})
  /\ (forall i seg audio prev st,
       index seg = i ->
       NoDup (index <$> segments prev) ->
       Sorted Z.le (index <$> segments prev) ->
       App.appendSegment i seg audio (Some prev) = Some st ->
       NoDup (index <$> segments st) /\ Sorted Z.le (index <$> segments st))
  /\ (forall rank evs st,
       App.story (App.app (App.run rank App.start evs)) = Some st ->
       NoDup (index <$> segments st) /\ Sorted Z.le (index <$> segments st)).
Proof.
  repeat split.
  - intros i seg audio prev H. unfold App.appendSegment. by rewrite H.
  - intros i seg audio prev H. unfold App.appendSegment. by rewrite H.
  - apply ascending_NoDup. eapply appendSegment_ascending; eauto.
    by apply sorted_NoDup_ascending.
  - apply ascending_sorted. eapply appendSegment_ascending; eauto.
    by apply sorted_NoDup_ascending.
  - apply ascending_NoDup.
    destruct (well_formed_run rank evs App.start well_formed_start) as [Hs _].
    unfold App.story_ascending in Hs. by rewrite H in Hs.
  - apply ascending_sorted.
    destruct (well_formed_run rank evs App.start well_formed_start) as [Hs _].
    unfold App.story_ascending in Hs. by rewrite H in Hs.
Qed.

Lemma segments_sorted_and_distinct_witness :
  exists st,
    App.story (App.app (App.run declaration_rank App.start Sample.plain_trace))
      = Some st
    /\ index <$> segments st = [1; 2]
    /\ NoDup (index <$> segments st)
    /\ Sorted Z.le (index <$> segments st).
Proof.
  eexists. split; [vm_compute; reflexivity|]. split; [reflexivity|].
  apply (proj2 (proj2 (proj2 segments_sorted_and_distinct))
           declaration_rank Sample.plain_trace).
  vm_compute. reflexivity.
Defined.

(** The sort puts a late answer in its place. *)
Example appendSegment_out_of_order :
  index <$> App.sort_by_index
    [Sample.segment1;
     {| index := 3; text := "c"; audioBuffer := None |};
     Sample.segment2]
  = [1; 2; 3].
Proof. reflexivity. Qed.

(** *** One request at a time *)

(** C2, as amended.  [generateNextSegment] returns at once, whatever the
    service would answer, when the guard is up; otherwise it raises the
    guard before its requests go out, and the guard is down again when
    they are back, fulfilled or rejected.  As long as [handleReset] does
    not run while a call is outstanding, at most one call is outstanding
    and the guard is up exactly while one is. *)
Theorem one_request_between_resets :
  (forall env i s,
     App.isGeneratingRef s = true ->
     App.generateNextSegment env i s = Done 0 s (Fulfilled tt))
  /\ (forall env i sys,
       App.isGeneratingRef (App.app sys) = true ->
       App.callGenerateNextSegment env i sys = sys)
  /\ (forall env i sys route story,
       App.route (App.app sys) = Some route ->
       App.story (App.app sys) = Some story ->
       App.isGeneratingRef (App.app sys) = false ->
       App.isGeneratingRef (App.app (App.callGenerateNextSegment env i sys)) = true
       /\ App.outstanding (App.callGenerateNextSegment env i sys) =
            App.outstanding sys ++
              [ {| App.flight_index := i;
                   App.flight_requests := App.segmentRequests env route story i |} ])
  /\ (forall i o s, App.isGeneratingRef (App.settleGeneration i o s) = false)
  /\ (forall rank sys evs,
       App.guarded sys ->
       App.quiet_run rank sys evs ->
       App.guarded (App.run rank sys evs)).
Proof.
  split; [|split; [|split; [|split]]].
  - intros env i s H. rewrite generateNextSegment_factors, H.
    by destruct (App.route s), (App.story s).
  - intros env i sys H. unfold App.callGenerateNextSegment. rewrite H.
    by destruct (App.route (App.app sys)), (App.story (App.app sys)).
  - intros env i sys route story Hr Hs Hg.
    unfold App.callGenerateNextSegment. rewrite Hr, Hs, Hg. by split.
  - intros i [[seg audio]|e] s; reflexivity.
  - intros rank sys evs. apply guarded_run.
Qed.

Lemma one_request_between_resets_witness :
  App.guarded (App.run declaration_rank App.start Sample.plain_trace).
Proof.
  apply (proj2 (proj2 (proj2 (proj2 one_request_between_resets)))
           declaration_rank App.start Sample.plain_trace).
  - exact (guarded_start).
  - vm_compute. repeat split.
Defined.

(** C2, as it was stated, fails: after a reset the guard is down while
    the call made for the first story is still outstanding, and the
    effect of the second story starts another one. *)
Lemma second_request_after_reset :
  let before := App.run declaration_rank App.start (take 4 Sample.restart_trace) in
  let after := App.step declaration_rank before (App.BufferingEffect Sample.env_ok) in
  length (App.outstanding before) = 1%nat
  /\ App.isGeneratingRef (App.app before) = false
  /\ App.flight_index <$> App.outstanding after = [2; 2]
  /\ (exists r1 r2, App.flight_requests <$> App.outstanding after
                      = [Settles 140300 r1; Settles 7300 r2])
  /\ after = App.run declaration_rank App.start Sample.restart_trace
  /\ ~ App.guarded after.
Proof.
  vm_compute. repeat split; [by eexists _, _|]. intros [H _]. lia.
Qed.

(** The numbering of [AppState] plays no part in it. *)
Lemma step_at_ready (rank : AppState -> Z) (sys : App.Sys) (ev : App.Event) :
  App.effect_at_ready sys ev = true ->
  App.step rank sys ev = App.step declaration_rank sys ev.
Proof.
  destruct ev as [env|k| |i|env details]; try reflexivity.
  simpl. unfold App.bufferingEffect.
  destruct (App.appState (App.app sys)); try discriminate.
  intros _. by rewrite !Z.ltb_irrefl.
Qed.

Lemma run_at_ready (rank : AppState -> Z) (evs : list App.Event) (sys : App.Sys) :
  App.effects_at_ready sys evs = true ->
  App.run rank sys evs = App.run declaration_rank sys evs.
Proof.
  revert sys. induction evs as [|ev evs IH]; intros sys H; [reflexivity|].
  simpl in H. apply andb_true_iff in H as [Hev Hevs].
  simpl. rewrite (step_at_ready rank) by exact Hev. by apply IH.
Qed.

Lemma second_request_after_reset_any_rank (rank : AppState -> Z) :
  length (App.outstanding (App.run rank App.start Sample.restart_trace)) = 2%nat.
Proof. rewrite run_at_ready; vm_compute; reflexivity. Qed.

(** *** The buffering effect *)

(** C1, as amended.  The buffering effect starts a call of
    [generateNextSegment] only when fewer than [currentPlayingIndex + 3]
    segments are there, fewer than [totalSegmentsEstimate] are there, and
    the guard is down; the call is for index (number of segments) + 1,
    which is therefore at most [currentPlayingIndex + 3] and at most
    [totalSegmentsEstimate].  The guard being down means that no request
    is in flight when the guard agrees with the outstanding calls, which
    it does in every run in which [handleReset] never runs while a call
    is outstanding. *)
Theorem buffering_effect_starts_only_when_needed
    (rank : AppState -> Z) (env : Env) (sys : App.Sys) :
  App.outstanding (App.step rank sys (App.BufferingEffect env))
    <> App.outstanding sys ->
  exists story route,
    App.story (App.app sys) = Some story
    /\ App.route (App.app sys) = Some route
    /\ let totalGenerated := Z.of_nat (length (segments story)) in
       let index := totalGenerated + 1 in
       totalGenerated < Z.of_nat (App.currentPlayingIndex (App.app sys)) + 3
       /\ totalGenerated < totalSegmentsEstimate story
       /\ App.isGeneratingRef (App.app sys) = false
       /\ App.bufferingEffect rank (App.app sys) = Some index
       /\ App.outstanding (App.step rank sys (App.BufferingEffect env))
            = App.outstanding sys ++
                [ {| App.flight_index := index;
                     App.flight_requests :=
                       App.segmentRequests env route story index |} ]
       /\ index <= Z.of_nat (App.currentPlayingIndex (App.app sys)) + 3
       /\ index <= totalSegmentsEstimate story
       /\ (App.guarded sys -> App.outstanding sys = [])
       /\ (forall evs,
             App.quiet_run rank App.start evs ->
             sys = App.run rank App.start evs ->
             App.outstanding sys = []).
Proof.
  simpl. unfold App.bufferingEffect, App.callGenerateNextSegment.
  destruct (App.story (App.app sys)) as [st|]; [|congruence].
  destruct (App.route (App.app sys)) as [rt|]; [|congruence].
  destruct (rank (App.appState (App.app sys)) <? rank READY_TO_PLAY); [congruence|].
  destruct (Z.of_nat (length (segments st))
              <? Z.of_nat (App.currentPlayingIndex (App.app sys)) + 3) eqn:H1;
    simpl; [|congruence].
  destruct (Z.of_nat (length (segments st)) <? totalSegmentsEstimate st) eqn:H2;
    simpl; [|congruence].
  destruct (App.isGeneratingRef (App.app sys)) eqn:H3; simpl; [congruence|].
  intros _. exists st, rt. apply Z.ltb_lt in H1, H2.
  assert (Hnone : App.guarded sys -> App.outstanding sys = []).
  { intros [_ Hguard]. destruct (App.outstanding sys) as [|f fs]; [reflexivity|].
    assert (Hup : App.isGeneratingRef (App.app sys) = true)
      by (apply Hguard; discriminate).
    congruence. }
  split; [reflexivity|]. split; [reflexivity|].
  split; [exact H1|]. split; [exact H2|]. split; [reflexivity|].
  split; [reflexivity|]. split; [reflexivity|].
  split; [lia|]. split; [lia|]. split; [exact Hnone|].
  intros evs Hquiet ->. apply Hnone.
  apply guarded_run; [exact guarded_start|exact Hquiet].
Qed.

(** C1, as it was stated, fails: the guard is down after a reset although
    the request made for the first story is still in flight, so the
    effect of the second story finds its three conditions true and starts
    a generation next to it. *)
Lemma effect_starts_with_request_in_flight :
  let before := App.run declaration_rank App.start (take 4 Sample.restart_trace) in
  let effect := App.BufferingEffect Sample.env_ok in
  App.flight_index <$> App.outstanding before = [2]
  /\ (exists o, App.flight_requests <$> App.outstanding before = [Settles 140300 o])
  /\ App.isGeneratingRef (App.app before) = false
  /\ App.bufferingEffect declaration_rank (App.app before) = Some 2
  /\ length (App.outstanding (App.step declaration_rank before effect)) = 2%nat.
Proof. vm_compute. repeat split. by eexists. Qed.

(** *** Time-outs around every request *)

Lemma withTimeout_late {T} (tf : bool) (p : Promise T) (ms : Z) (msg : string) :
  0 <= ms ->
  p = NeverSettles \/ (exists t o, p = Settles t o /\ ms < t) ->
  withTimeout tf p ms msg = Settles ms (Rejected (Err msg)).
Proof.
  intros Hms H. rewrite withTimeout_unfold.
  replace (Z.max 0 ms) with ms by lia.
  destruct H as [->|(t & o & -> & Hlate)]; [reflexivity|].
  replace (t <? ms) with false by (symmetry; apply Z.ltb_ge; lia).
  replace (t =? ms) with false by (symmetry; apply Z.eqb_neq; lia).
  reflexivity.
Qed.

Lemma withTimeout_in_time {T} (tf : bool) (p : Promise T) (ms : Z)
    (msg : string) (t : Z) (o : Outcome T) :
  p = Settles t o -> t < ms -> withTimeout tf p ms msg = Settles t o.
Proof.
  intros -> Ht. rewrite withTimeout_unfold.
  replace (t <? Z.max 0 ms) with true by (symmetry; apply Z.ltb_lt; lia).
  reflexivity.
Qed.

(** C6.  [withTimeout(promise, ms, errorMsg)] resolves with the promise's
    value when the promise resolves before [ms] milliseconds are over,
    and rejects with [Error(errorMsg)] when the promise has not settled
    after [ms] milliseconds; the outline, segment text and segment audio
    requests are each under such a time-out, so that a service that does
    not answer makes them fail with their time-out message and both
    handlers come to an end within the sum of their deadlines. *)
Theorem withTimeout_spec :
  (forall (T : Type) (tf : bool) (p : Promise T) ms msg t v,
     p = Settles t (Fulfilled v) -> t < ms ->
     withTimeout tf p ms msg = Settles t (Fulfilled v))
  /\ (forall (T : Type) (tf : bool) (p : Promise T) ms msg,
       0 <= ms ->
       p = NeverSettles \/ (exists t o, p = Settles t o /\ ms < t) ->
       withTimeout tf p ms msg = Settles ms (Rejected (Err msg)))
  /\ (forall env details,
       generateStoryOutline env details
         (calculateTotalSegments (durationSeconds details)) = NeverSettles ->
       App.initialRequests env details =
         Settles 60000 (Rejected (Err "Story outline generation timed out")))
  /\ (forall env route story i,
       generateSegment env route i (totalSegmentsEstimate story)
         (App.or_else (App.item_at (outline story) (i - 1))
            App.NEXT_OUTLINE_FALLBACK)
         (App.allPreviousText story) = NeverSettles ->
       App.segmentRequests env route story i =
         Settles 60000
           (Rejected (Err ("Text generation timed out for segment " +:+ pretty i))))
  /\ (forall env route story i t seg,
       generateSegment env route i (totalSegmentsEstimate story)
         (App.or_else (App.item_at (outline story) (i - 1))
            App.NEXT_OUTLINE_FALLBACK)
         (App.allPreviousText story) = Settles t (Fulfilled seg) ->
       t < 60000 ->
       generateSegmentAudio env (text seg) (voiceName route) = NeverSettles ->
       App.segmentRequests env route story i =
         Settles (t + 100000)
           (Rejected (Err ("Audio generation timed out for segment " +:+ pretty i))))
  /\ (forall env details s, exists t s',
       App.handleGenerateStory env details s = Done t s' (Fulfilled tt)
       /\ t <= 220000)
  /\ (forall env i s, exists t s',
       App.generateNextSegment env i s = Done t s' (Fulfilled tt)
       /\ t <= 160000).
Proof.
  split; [|split; [|split; [|split; [|split; [|split]]]]].
  - intros T tf p ms msg t v Hp Ht. by apply withTimeout_in_time.
  - intros T tf p ms msg. apply withTimeout_late.
  - intros env details H. unfold App.initialRequests.
    rewrite H. by rewrite withTimeout_late by (lia || by left).
  - intros env route story i H. unfold App.segmentRequests.
    rewrite H. by rewrite withTimeout_late by (lia || by left).
  - intros env route story i t seg Hseg Ht Haudio. unfold App.segmentRequests.
    rewrite (withTimeout_in_time _ _ _ _ t (Fulfilled seg)) by assumption.
    unfold mbind at 1, promise_bind at 1, await at 1.
    rewrite Haudio. by rewrite withTimeout_late by (lia || by left).
  - intros env details s.
    destruct (handleGenerateStory_outcome env details s) as (t & s' & H & Ht & _).
    by exists t, s'.
  - intros env i s. rewrite generateNextSegment_factors.
    destruct (App.route s) as [route|]; [|exists 0, s; split; [reflexivity|lia]].
    destruct (App.story s) as [story|]; [|exists 0, s; split; [reflexivity|lia]].
    destruct (App.isGeneratingRef s); [exists 0, s; split; [reflexivity|lia]|].
    destruct (segmentRequests_settles env route story i) as (t & o & -> & Ht).
    eexists _, _. split; [reflexivity|exact Ht].
Qed.

Lemma withTimeout_spec_witness :
  withTimeout true (Settles 3000 (Fulfilled 7)) 60000 "late" = Settles 3000 (Fulfilled 7)
  /\ withTimeout true (Settles 61000 (Fulfilled 7)) 60000 "late"
       = Settles 60000 (Rejected (Err "late"))
  /\ App.initialRequests Sample.env_silent Sample.details =
       Settles 60000 (Rejected (Err "Story outline generation timed out")).
Proof.
  split; [|split].
  - apply (proj1 withTimeout_spec Z true _ 60000 "late" 3000 7);
      [reflexivity|lia].
  - apply (proj1 (proj2 withTimeout_spec) Z true _ 60000 "late"); [lia|].
    right. exists 61000, (Fulfilled 7). split; [reflexivity|lia].
  - apply (proj1 (proj2 (proj2 withTimeout_spec)) Sample.env_silent Sample.details).
    reflexivity.
Defined.

(** Without the time-out a request to a silent service stays pending. *)
Example outline_request_alone_hangs :
  generateStoryOutline Sample.env_silent Sample.details 20 = NeverSettles.
Proof. reflexivity. Qed.

Example silent_service_times_out :
  App.generationError
    (App.final (App.handleGenerateStory Sample.env_silent Sample.details App.initial))
  = Some App.TIMEOUT_MESSAGE.
Proof. vm_compute. reflexivity. Qed.

(** A response in the very millisecond of the deadline goes either way. *)
Example withTimeout_tie :
  withTimeout true (Settles 60000 (Fulfilled 7)) 60000 "late"
    = Settles 60000 (Rejected (Err "late"))
  /\ withTimeout false (Settles 60000 (Fulfilled 7)) 60000 "late"
    = Settles 60000 (Fulfilled 7).
Proof. split; reflexivity. Qed.

(** *** Fallback texts *)

Lemma push_while_spec (fuel : nat) (n : Z) (last : JsValue) (items : list JsValue) :
  n <= MAX_ARRAY_LENGTH ->
  (Z.to_nat n - length items <= fuel)%nat ->
  push_while fuel n last items =
    ret (items ++ replicate (Z.to_nat n - length items) last).
Proof.
  revert items. induction fuel as [|fuel IH]; intros items Hmax Hfuel; simpl.
  - destruct (Z.of_nat (length items) <? n) eqn:Hlt.
    + apply Z.ltb_lt in Hlt. lia.
    + apply Z.ltb_ge in Hlt.
      replace (Z.to_nat n - length items)%nat with 0%nat by lia.
      by rewrite app_nil_r.
  - destruct (Z.of_nat (length items) <? n) eqn:Hlt.
    + apply Z.ltb_lt in Hlt.
      replace (MAX_ARRAY_LENGTH <=? Z.of_nat (length items)) with false
        by (symmetry; apply Z.leb_gt; lia).
      rewrite IH by (rewrite ?length_app; simpl; lia).
      rewrite length_app. simpl.
      replace (Z.to_nat n - length items)%nat
        with (S (Z.to_nat n - (length items + 1)))%nat by lia.
      simpl. by rewrite <- app_assoc.
    + apply Z.ltb_ge in Hlt.
      replace (Z.to_nat n - length items)%nat with 0%nat by lia.
      by rewrite app_nil_r.
Qed.

Lemma Array_fill_ok {A} (n : Z) (x : A) :
  0 <= n <= MAX_ARRAY_LENGTH ->
  Array_fill n x = ret (replicate (Z.to_nat n) x).
Proof.
  intros Hn. unfold Array_fill.
  replace (n <? 0) with false by (symmetry; apply Z.ltb_ge; lia).
  replace (MAX_ARRAY_LENGTH <? n) with false by (symmetry; apply Z.ltb_ge; lia).
  reflexivity.
Qed.

(** What [generateStoryOutline] makes of an answer of the service. *)
Lemma generateStoryOutline_answered (env : Env) (route : RouteDetails)
    (n t : Z) (r : Response) :
  0 <= n <= MAX_ARRAY_LENGTH ->
  generateContent env (OutlineRequest route n) = Settles t (Fulfilled r) ->
  generateStoryOutline env route n =
    Settles t (Fulfilled
      match trim env <$> response_text r with
      | Some text =>
          if String.eqb text "" then replicate (Z.to_nat n) (VString OUTLINE_FALLBACK)
          else
            match JSON_parse env text with
            | Some (VArray items) =>
                take (Z.to_nat n)
                  (items ++ replicate (Z.to_nat n - length items) (last_item items))
            | _ => replicate (Z.to_nat n) (VString OUTLINE_FALLBACK)
            end
      | None => replicate (Z.to_nat n) (VString OUTLINE_FALLBACK)
      end).
Proof.
  intros Hn Hr. unfold generateStoryOutline.
  unfold mbind at 1, promise_bind at 1, await at 1. rewrite Hr.
  assert (Hfall : forall e : Error,
            try_catch (delay t (throw e))
              (fun _ => Array_fill n (VString OUTLINE_FALLBACK))
            = Settles t (Fulfilled (replicate (Z.to_nat n) (VString OUTLINE_FALLBACK)))).
  { intros e. rewrite Array_fill_ok by exact Hn. simpl. f_equal. lia. }
  destruct (trim env <$> response_text r) as [text|]; [|apply Hfall].
  destruct (String.eqb text ""); [apply Hfall|].
  destruct (JSON_parse env text) as [[| | | | |items|]|]; try apply Hfall.
  assert (Hpad :
    (if Z.of_nat (length items) <? n
     then push_while (Z.to_nat n) n (last_item items) items
     else ret items)
    = ret (items ++ replicate (Z.to_nat n - length items) (last_item items))).
  { destruct (Z.of_nat (length items) <? n) eqn:Hlt.
    - apply push_while_spec; lia.
    - apply Z.ltb_ge in Hlt.
      replace (Z.to_nat n - length items)%nat with 0%nat by lia.
      by rewrite app_nil_r. }
  rewrite Hpad. simpl. unfold slice0.
  replace (n <? 0) with false by (symmetry; apply Z.ltb_ge; lia).
  f_equal. lia.
Qed.

Lemma take_pad_length (n : nat) (items : list JsValue) (x : JsValue) :
  length (take n (items ++ replicate (n - length items) x)) = n.
Proof. rewrite length_take, length_app, length_replicate. lia. Qed.

(** C7, as amended.  For a valid array length [totalSegments],
    [generateStoryOutline] never rejects, and whenever the service
    settles it returns an array of exactly [totalSegments] entries:
    [totalSegments] copies of the fallback sentence when the request is
    rejected, when the answer has no text or a text that the engine's
    [trim] reduces to the empty string, when the trimmed text is not
    JSON, and when it is JSON but not an array; and, when it
    is a JSON array with at least one entry, that array cut to
    [totalSegments] entries or filled up with its last entry, the entries
    being whatever values the array holds.  [generateSegment] returns the
    text [The journey continues...] when the answer has no text or a
    text that [trim] reduces to the empty string. *)
Theorem fallback_texts :
  (forall env route n t o,
     0 <= n <= MAX_ARRAY_LENGTH ->
     generateStoryOutline env route n = Settles t o ->
     exists beats, o = Fulfilled beats /\ Z.of_nat (length beats) = n)
  /\ (forall env route n t o,
       0 <= n <= MAX_ARRAY_LENGTH ->
       generateContent env (OutlineRequest route n) = Settles t o ->
       exists beats, generateStoryOutline env route n = Settles t (Fulfilled beats))
  /\ (forall env route n t o,
       0 <= n <= MAX_ARRAY_LENGTH ->
       generateContent env (OutlineRequest route n) = Settles t o ->
       match o with
       | Rejected _ => True
       | Fulfilled r =>
           match trim env <$> response_text r with
           | None => True
           | Some text =>
               text = "" \/
               match JSON_parse env text with
               | Some (VArray _) => False
               | _ => True
               end
           end
       end ->
       generateStoryOutline env route n =
         Settles t (Fulfilled (replicate (Z.to_nat n) (VString OUTLINE_FALLBACK))))
  /\ (forall env route n t r text items,
       0 <= n <= MAX_ARRAY_LENGTH ->
       generateContent env (OutlineRequest route n) = Settles t (Fulfilled r) ->
       trim env <$> response_text r = Some text ->
       text <> "" ->
       JSON_parse env text = Some (VArray items) ->
       items <> [] ->
       exists final,
         last items = Some final
         /\ generateStoryOutline env route n =
              Settles t (Fulfilled
                (take (Z.to_nat n)
                   (items ++ replicate (Z.to_nat n - length items) final))))
  /\ (forall env route i total beat context t r,
       generateContent env (SegmentRequest route i total beat context)
         = Settles t (Fulfilled r) ->
       response_text r = None \/ (exists text, response_text r = Some text
                                               /\ trim env text = "") ->
       generateSegment env route i total beat context =
         Settles t (Fulfilled {| index := i; text := SEGMENT_FALLBACK;
                                 audioBuffer := None |})).
Proof.
  split; [|split; [|split; [|split]]].
  - intros env route n t o Hn H.
    destruct (generateContent env (OutlineRequest route n)) as [t' [r|e]|] eqn:Hreq.
    + rewrite (generateStoryOutline_answered env route n t' r Hn Hreq) in H.
      injection H as _ <-. eexists. split; [reflexivity|].
      destruct (trim env <$> response_text r) as [text|];
        [|rewrite length_replicate; lia].
      destruct (String.eqb text ""); [rewrite length_replicate; lia|].
      destruct (JSON_parse env text) as [[| | | | |items|]|];
        rewrite ?length_replicate, ?take_pad_length; lia.
    + unfold generateStoryOutline, mbind, promise_bind, await in H.
      rewrite Hreq in H. simpl in H. rewrite Array_fill_ok in H by exact Hn.
      simpl in H. injection H as _ <-. eexists. split; [reflexivity|].
      rewrite length_replicate. lia.
    + unfold generateStoryOutline, mbind, promise_bind, await in H.
      rewrite Hreq in H. discriminate.
  - intros env route n t [r|e] Hn Hreq.
    + eexists. by apply generateStoryOutline_answered.
    + unfold generateStoryOutline, mbind, promise_bind, await.
      rewrite Hreq. simpl. rewrite Array_fill_ok by exact Hn.
      simpl. eexists. f_equal. lia.
  - intros env route n t [r|e] Hn Hreq Hbad.
    + rewrite (generateStoryOutline_answered env route n t r Hn Hreq).
      destruct (trim env <$> response_text r) as [text|]; [|reflexivity].
      destruct (String.eqb text "") eqn:Hempty; [reflexivity|].
      destruct Hbad as [->|Hbad]; [discriminate|].
      by destruct (JSON_parse env text) as [[| | | | |items|]|].
    + unfold generateStoryOutline, mbind, promise_bind, await.
      rewrite Hreq. simpl. rewrite Array_fill_ok by exact Hn.
      simpl. f_equal. lia.
  - intros env route n t r text items Hn Hreq Htext Hne Hparse Hitems.
    rewrite (generateStoryOutline_answered env route n t r Hn Hreq).
    rewrite Htext, Hparse.
    replace (String.eqb text "") with false
      by (symmetry; by apply String.eqb_neq).
    destruct (last items) as [final|] eqn:Hlast.
    + exists final. split; [reflexivity|]. unfold last_item. by rewrite Hlast.
    + apply last_None in Hlast. contradiction.
  - intros env route i total beat context t r Hreq Htext.
    unfold generateSegment, mbind, promise_bind, await. rewrite Hreq. simpl.
    assert (Hfall : segment_text env r = SEGMENT_FALLBACK).
    { unfold segment_text.
      destruct Htext as [->|(text & -> & Htrim)]; [reflexivity|].
      simpl. by rewrite Htrim. }
    rewrite Hfall. f_equal. lia.
Qed.

Lemma fallback_texts_witness :
  generateStoryOutline Sample.env_down Sample.details 3 =
    Settles 100 (Fulfilled (replicate 3 (VString OUTLINE_FALLBACK)))
  /\ (exists final,
        last [VString "Departure"] = Some final
        /\ generateStoryOutline Sample.env_ok Sample.details 3 =
             Settles 2000 (Fulfilled
               (take 3 ([VString "Departure"] ++ replicate (3 - 1) final))))
  /\ generateSegment Sample.env_blank Sample.details 1 3 VUndefined "" =
       Settles 2000 (Fulfilled {| index := 1; text := SEGMENT_FALLBACK;
                                  audioBuffer := None |}).
Proof.
  split; [|split].
  - apply (proj1 (proj2 (proj2 fallback_texts))
             Sample.env_down Sample.details 3 100
             (Rejected (Err "503 Service Unavailable")));
      [vm_compute; split; discriminate | reflexivity | exact I].
  - apply (proj1 (proj2 (proj2 (proj2 fallback_texts)))
             Sample.env_ok Sample.details 3 2000
             (Sample.answer Sample.one_beat) Sample.one_beat
             [VString "Departure"]);
      [vm_compute; split; discriminate | reflexivity | reflexivity
      | discriminate | reflexivity | discriminate].
  - apply (proj2 (proj2 (proj2 (proj2 fallback_texts)))
             Sample.env_blank Sample.details 1 3 VUndefined "" 2000
             (Sample.answer "   ")).
    + reflexivity.
    + right. exists "   ". split; reflexivity.
Defined.

(** C7, as it was stated, fails: the entries of the array the service
    sends are passed on as they are, strings or not. *)
Lemma outline_entries_need_not_be_strings :
  generateStoryOutline (Sample.env_outline "[1, 2]") Sample.details 2
    = Settles 2000 (Fulfilled [VNumber 1; VNumber 2])
  /\ forallb is_string [VNumber 1; VNumber 2] = false
  /\ [VNumber 1; VNumber 2] <> replicate 2 (VString OUTLINE_FALLBACK).
Proof. repeat split. discriminate. Qed.

(** An empty array is filled up with [undefined]. *)
Example outline_of_empty_array :
  generateStoryOutline (Sample.env_outline "[]") Sample.details 2
    = Settles 2000 (Fulfilled [VUndefined; VUndefined]).
Proof. reflexivity. Qed.

(** An array that is too long is cut, one that is too short is filled up
    with its last entry. *)
Example outline_cut :
  generateStoryOutline (Sample.env_outline "[1, 2]") Sample.details 1
    = Settles 2000 (Fulfilled [VNumber 1]).
Proof. reflexivity. Qed.

Example outline_filled_up :
  generateStoryOutline (Sample.env_outline "[1, 2]") Sample.details 4
    = Settles 2000 (Fulfilled [VNumber 1; VNumber 2; VNumber 2; VNumber 2]).
Proof. reflexivity. Qed.

(** [Array(n)] refuses a length that is not valid, inside the [catch]. *)
Example outline_invalid_length :
  generateStoryOutline Sample.env_down Sample.details (-1)
    = Settles 100 (Rejected (Err "Invalid array length")).
Proof. reflexivity. Qed.

(** *** Errors *)

Lemma userMessage_cases (e : Error) :
  App.userMessage e = App.GENERIC_MESSAGE \/ App.userMessage e = App.TIMEOUT_MESSAGE.
Proof. unfold App.userMessage. destruct (_ && _); auto. Qed.

Lemma userMessage_timed_out (e : Error) :
  includes (message e) "timed out" = true ->
  App.userMessage e = App.TIMEOUT_MESSAGE.
Proof.
  intros H. unfold App.userMessage. rewrite H.
  destruct (message e) eqn:Hm; [discriminate|reflexivity].
Qed.

Lemma userMessage_exact (e : Error) :
  App.userMessage e =
    if includes (message e) "timed out" || includes (message e) "timeout"
    then App.TIMEOUT_MESSAGE else App.GENERIC_MESSAGE.
Proof.
  unfold App.userMessage. destruct (message e) as [|c m]; reflexivity.
Qed.

(** C5, as amended.  Every error raised while a story is generated is
    caught where the request is made.  A failure or a time-out of the
    initial generation puts the app back to [PLANNING] and sets
    [generationError] to one of the two messages for the user: the
    time-out one exactly when the error's message contains [timed out] or
    [timeout], the generic one in every other case.  A failure of a
    background segment generation is caught and written to the console,
    and the guard is lowered; no message for the user is set and the
    story, the app state and the loading message stay as they were. *)
Theorem generation_errors_are_caught :
  (forall env details s, exists t s',
     App.handleGenerateStory env details s = Done t s' (Fulfilled tt)
     /\ match App.initialRequests env details with
        | Settles _ (Fulfilled _) =>
            App.appState s' = READY_TO_PLAY /\ App.generationError s' = None
        | Settles _ (Rejected e) =>
            App.appState s' = PLANNING
            /\ App.generationError s' = Some (App.userMessage e)
            /\ (App.userMessage e = App.GENERIC_MESSAGE
                \/ App.userMessage e = App.TIMEOUT_MESSAGE)
            /\ (includes (message e) "timed out" = true ->
                App.userMessage e = App.TIMEOUT_MESSAGE)
            /\ App.userMessage e =
                 (if includes (message e) "timed out"
                     || includes (message e) "timeout"
                  then App.TIMEOUT_MESSAGE else App.GENERIC_MESSAGE)
            /\ App.TIMEOUT_MESSAGE <> App.GENERIC_MESSAGE
        | NeverSettles => False
        end)
  /\ (forall env i s route story t e,
       App.route s = Some route ->
       App.story s = Some story ->
       App.isGeneratingRef s = false ->
       App.segmentRequests env route story i = Settles t (Rejected e) ->
       exists s',
         App.generateNextSegment env i s = Done t s' (Fulfilled tt)
         /\ App.console s' =
              App.console s ++ [App.Log_starting i; App.Error_segment_failed i e]
         /\ App.isGeneratingRef s' = false
         /\ App.isBackgroundGenerating s' = false
         /\ App.generationError s' = App.generationError s
         /\ App.loadingMessage s' = App.loadingMessage s
         /\ App.appState s' = App.appState s
         /\ App.story s' = App.story s
         /\ App.route s' = App.route s).
Proof.
  split.
  - intros env details s.
    destruct (handleGenerateStory_outcome env details s)
      as (t & s' & H & _ & _ & _ & Hout).
    exists t, s'. split; [exact H|].
    destruct (App.initialRequests env details) as [t' [[[beats seg] audio]|e]|];
      [| |exact Hout].
    + destruct Hout as (_ & Hs & He & _). by split.
    + destruct Hout as (_ & Hs & He & _).
      repeat split; [exact Hs|exact He|apply userMessage_cases|
                     apply userMessage_timed_out|apply userMessage_exact|
                     discriminate].
  - intros env i s route story t e Hr Hs Hg Hreq.
    rewrite generateNextSegment_factors, Hr, Hs, Hg, Hreq.
    eexists. split; [reflexivity|]. cbn.
    rewrite <- app_assoc. repeat split; assumption.
Qed.

Lemma generation_errors_are_caught_witness :
  exists s',
    App.generateNextSegment Sample.env_down 2 Sample.ready
      = Done 100 s' (Fulfilled tt)
    /\ App.console s' =
         [App.Log_starting 2;
          App.Error_segment_failed 2 (Err "503 Service Unavailable")]
    /\ App.isGeneratingRef s' = false
    /\ App.isBackgroundGenerating s' = false
    /\ App.generationError s' = None
    /\ App.loadingMessage s' = "Synthesizing neural voice..."
    /\ App.appState s' = READY_TO_PLAY
    /\ App.story s' = Some Sample.story1
    /\ App.route s' = Some Sample.details.
Proof.
  apply (proj2 generation_errors_are_caught
           Sample.env_down 2 Sample.ready Sample.details Sample.story1 100
           (Err "503 Service Unavailable")); reflexivity.
Defined.

(** C5, as it was stated, fails: with the service down, a background
    generation ends with nothing but two lines on the console; no message
    for the user is set. *)
Lemma background_failure_is_only_logged :
  App.generateNextSegment Sample.env_down 2 Sample.ready =
    Done 100
      (App.log (App.Error_segment_failed 2 (Err "503 Service Unavailable"))
         (App.log (App.Log_starting 2) Sample.ready))
      (Fulfilled tt)
  /\ App.generationError
       (App.final (App.generateNextSegment Sample.env_down 2 Sample.ready)) = None.
Proof. split; reflexivity. Qed.

(** The same service at the first generation: the user is told. *)
Example initial_failure_is_surfaced :
  let s := App.final (App.handleGenerateStory Sample.env_down Sample.details App.initial) in
  App.appState s = PLANNING /\ App.generationError s = Some App.GENERIC_MESSAGE.
Proof. split; reflexivity. Qed.

(** *** Examples for the remaining statements *)

Lemma calculateTotalSegments_spec_witness :
  (1 <=? Double.calculateTotalSegments 0.5)%float = true
  /\ Double.calculateTotalSegments (-30) = 1%float
  /\ (exists k,
        Double.calculateTotalSegments (Double.of_Z 100) = Double.of_Z k
        /\ k = Z.max 1 (Qceiling (inject_Z 100 / 45))).
Proof.
  split; [|split].
  - apply (proj1 (proj2 calculateTotalSegments_spec) 0.5%float). reflexivity.
  - apply (proj1 (proj2 (proj2 calculateTotalSegments_spec)) (-30)%float).
    reflexivity.
  - destruct (proj1 (proj2 (proj2 (proj2 calculateTotalSegments_spec))) 100)
      as (k & Hk & Hexact & _); [lia|].
    exists k. split; [exact Hk|exact Hexact].
Defined.

Lemma directions_four_hour_limit_witness :
  let leg_long := {| RoutePlanner.start_address := "A"; RoutePlanner.end_address := "B";
                     RoutePlanner.distance_text := "600 km";
                     RoutePlanner.duration_text := "5 hours";
                     RoutePlanner.duration_value := 18000 |} in
  let leg_short := {| RoutePlanner.start_address := "A"; RoutePlanner.end_address := "B";
                      RoutePlanner.distance_text := "1 km";
                      RoutePlanner.duration_text := "15 mins";
                      RoutePlanner.duration_value := 900 |} in
  let s := {| RoutePlanner.startAddress_in := "A"; RoutePlanner.endAddress_in := "B";
              RoutePlanner.manualDuration := 30;
              RoutePlanner.travelMode_in := WALKING;
              RoutePlanner.selectedStyle := NOIR;
              RoutePlanner.error := None; RoutePlanner.isLoading := false |} in
  snd (RoutePlanner.directionsCallback RoutePlanner.OK leg_long s) = None
  /\ RoutePlanner.error (fst (RoutePlanner.directionsCallback RoutePlanner.OK leg_long s))
       = Some "Journey too long. Try a route under 4 hours."
  /\ (durationSeconds Sample.details <= 14400)%Q.
Proof.
  cbv zeta. split; [|split].
  - rewrite (proj1 (directions_four_hour_limit None None RoutePlanner.OK _ _));
      reflexivity.
  - rewrite (proj1 (directions_four_hour_limit None None RoutePlanner.OK _ _));
      reflexivity.
  - exact (proj2 (proj2 (proj2 (directions_four_hour_limit None None RoutePlanner.OK
             {| RoutePlanner.start_address := "Pier 1";
                RoutePlanner.end_address := "Old Mill";
                RoutePlanner.distance_text := "1.2 km";
                RoutePlanner.duration_text := "15 mins";
                RoutePlanner.duration_value := 900 |}
             {| RoutePlanner.startAddress_in := "A"; RoutePlanner.endAddress_in := "B";
                RoutePlanner.manualDuration := 30;
                RoutePlanner.travelMode_in := WALKING;
                RoutePlanner.selectedStyle := NOIR;
                RoutePlanner.error := None; RoutePlanner.isLoading := false |})
             _ Sample.details eq_refl))).
Defined.

Lemma buffering_effect_starts_only_when_needed_witness :
  exists story route,
    App.story Sample.ready = Some story
    /\ App.route Sample.ready = Some route
    /\ Z.of_nat (length (segments story)) < Z.of_nat 0 + 3
    /\ Z.of_nat (length (segments story)) < totalSegmentsEstimate story
    /\ App.bufferingEffect declaration_rank Sample.ready = Some 2.
Proof.
  destruct (buffering_effect_starts_only_when_needed declaration_rank Sample.env_ok
              {| App.app := Sample.ready; App.outstanding := [] |})
    as (story & route & Hs & Hr & H1 & H2 & _ & H4 & _).
  - vm_compute. discriminate.
  - exists story, route.
    split; [exact Hs|]. split; [exact Hr|]. split; [exact H1|]. split; [exact H2|].
    change (App.story Sample.ready) with (Some Sample.story1) in Hs.
    injection Hs as <-. exact H4.
Defined.



(* ===================================================================== *)
(** ** Further properties *)
(* ===================================================================== *)

(** *** Segments come in order *)

Section InOrder.
Import App AppRuns.
Variable rank : AppState -> Z.

Lemma positions_match_from (l : list StorySegment) :
  positions_match l <-> positions_from 1 l.
Proof.
  unfold positions_match, positions_from.
  split; intros H k seg Hk; specialize (H k seg Hk); lia.
Qed.

Lemma positions_from_ascending (c : Z) (l : list StorySegment) :
  positions_from c l -> ascending l.
Proof.
  revert c. induction l as [|x l IH]; intros c H; [constructor|].
  apply ascending_cons. split.
  - apply Forall_lookup. intros k y Hy.
    rewrite (H 0%nat x eq_refl), (H (S k) y Hy). lia.
  - apply (IH (c + 1)). intros k y Hy. rewrite (H (S k) y Hy). lia.
Qed.

Lemma sort_by_index_ascending_id (l : list StorySegment) :
  ascending l -> sort_by_index l = l.
Proof.
  induction l as [|x l IH]; intros H; [reflexivity|].
  apply ascending_cons in H as [Hx Hl]. simpl. rewrite (IH Hl).
  destruct l as [|y l]; [reflexivity|]. simpl.
  apply Forall_cons in Hx as [Hy _].
  replace (index x - index y <=? 0) with true by (symmetry; apply Z.leb_le; lia).
  reflexivity.
Qed.

Lemma positions_match_app (l : list StorySegment) (x : StorySegment) :
  positions_match l ->
  index x = Z.of_nat (length l) + 1 ->
  positions_match (l ++ [x]).
Proof.
  intros Hl Hx k seg Hk.
  apply lookup_app_Some in Hk as [Hk|[Hlen Hk]]; [by apply Hl|].
  apply list_lookup_singleton_Some in Hk as [Hk ->]. rewrite Hx. lia.
Qed.

Lemma positions_match_fresh (l : list StorySegment) :
  positions_match l -> has_index (Z.of_nat (length l) + 1) l = false.
Proof.
  intros Hl. apply has_index_false. intros Hin.
  apply list_elem_of_fmap in Hin as (y & Hy & Hin).
  apply list_elem_of_lookup in Hin as [k Hk].
  pose proof (lookup_lt_Some _ _ _ Hk). rewrite (Hl k y Hk) in Hy. lia.
Qed.

(** Appending segment n + 1 to segments 1 .. n needs no reordering. *)
Lemma appendSegment_next (seg : StorySegment) (audio : AudioBuffer)
    (prev : AudioStory) :
  positions_match (segments prev) ->
  index seg = Z.of_nat (length (segments prev)) + 1 ->
  appendSegment (index seg) seg audio (Some prev) =
    Some {| totalSegmentsEstimate := totalSegmentsEstimate prev;
            outline := outline prev;
            segments := segments prev ++
                          [ {| index := index seg; text := text seg;
                               audioBuffer := Some audio |} ] |}.
Proof.
  intros Hprev Hseg. unfold appendSegment.
  rewrite Hseg at 1. rewrite positions_match_fresh by exact Hprev.
  do 2 f_equal. apply sort_by_index_ascending_id.
  apply (positions_from_ascending 1). apply positions_match_from.
  by apply positions_match_app.
Qed.

Lemma calm_quiet (sys : Sys) (ev : Event) : calm sys ev -> quiet sys ev.
Proof. by destruct ev. Qed.

Lemma steady_start : steady start.
Proof.
  split; [exact well_formed_start|]. split; [exact guarded_start|reflexivity].
Qed.

Lemma in_order_step (sys : Sys) (ev : Event) :
  steady sys -> calm sys ev -> in_order (step rank sys ev).
Proof.
  intros (Hwf & Hg & Hin) Hcalm. unfold in_order in *.
  destruct ev as [env|k| |i|env details]; simpl.
  - unfold bufferingEffect, callGenerateNextSegment.
    destruct (story (app sys)) as [st|] eqn:Hst; [|by rewrite Hst].
    destruct (route (app sys)) as [rt|]; [|by rewrite Hst].
    destruct (rank (appState (app sys)) <? rank READY_TO_PLAY); [by rewrite Hst|].
    destruct (Z.of_nat (length (segments st))
                <? Z.of_nat (currentPlayingIndex (app sys)) + 3); simpl;
      [|by rewrite Hst].
    destruct (Z.of_nat (length (segments st)) <? totalSegmentsEstimate st) eqn:Hlt;
      simpl; [|by rewrite Hst].
    destruct (isGeneratingRef (app sys)); simpl; rewrite Hst; [exact Hin|].
    destruct Hin as (Hp & H1 & Hle & Hf).
    repeat split; try assumption.
    apply Forall_app. split; [exact Hf|]. constructor; [|constructor]. simpl.
    apply Z.ltb_lt in Hlt. lia.
  - destruct (outstanding sys !! k) as [f|] eqn:Hk; [|exact Hin].
    destruct (flight_requests f) as [t o|] eqn:Hreq; [|exact Hin].
    destruct Hg as [Hlen _]. destruct Hwf as [_ Hown].
    destruct (outstanding sys) as [|f0 [|f1 l]] eqn:Hout;
      [discriminate| |simpl in Hlen; exfalso; lia].
    destruct k as [|k]; [|discriminate]. injection Hk as ->. cbn.
    destruct (story (app sys)) as [st|] eqn:Hst; [|discriminate].
    destruct Hin as (Hp & H1 & Hle & Hf).
    apply Forall_cons in Hf as [[Hfi Hfle] _].
    destruct o as [[seg audio]|e]; cbn; rewrite Hst; cbn.
    + apply Forall_cons in Hown as [Hown _].
      specialize (Hown t seg audio Hreq).
      rewrite <- Hown.
      assert (Hnext : index seg = Z.of_nat (length (segments st)) + 1) by lia.
      pose proof (appendSegment_next seg audio st Hp Hnext) as Happ.
      unfold appendSegment in Happ. rewrite Happ.
      cbn. rewrite length_app. simpl. repeat split.
      * apply positions_match_app; [exact Hp|]. simpl. lia.
      * lia.
      * lia.
      * constructor.
    + repeat split; try assumption. constructor.
  - exact Hcalm.
  - exact Hin.
  - simpl in Hcalm. rewrite Hcalm in *.
    destruct (handleGenerateStory_outcome env details (app sys))
      as (t & s' & -> & _ & _ & _ & Hout).
    simpl.
    destruct (initialRequests env details) as [t' [[[beats seg] audio]|e]|];
      [| |contradiction].
    + destruct Hout as (_ & _ & _ & _ & ->). simpl. repeat split.
      * intros [|k] x Hx; [|discriminate]. by injection Hx as <-.
      * lia.
      * unfold calculateTotalSegments. lia.
      * constructor.
    + destruct Hout as (_ & _ & _ & -> & _).
      destruct (story (app sys)) as [st|]; [|reflexivity].
      destruct Hin as (Hp & H1 & Hle & _). repeat split; try assumption.
      constructor.
Qed.

Lemma steady_step (sys : Sys) (ev : Event) :
  steady sys -> calm sys ev -> steady (step rank sys ev).
Proof.
  intros H Hcalm. pose proof H as (Hwf & Hg & _).
  split; [by apply well_formed_step|].
  split; [apply guarded_step; [exact Hg|by apply calm_quiet]|].
  by apply in_order_step.
Qed.

Lemma steady_run (evs : list Event) (sys : Sys) :
  steady sys -> calm_run rank sys evs -> steady (run rank sys evs).
Proof.
  revert sys. induction evs as [|ev evs IH]; intros sys H Hc; [exact H|].
  destruct Hc as [Hc Hcs]. simpl. apply IH; [by apply steady_step|exact Hcs].
Qed.

End InOrder.

Lemma positions_match_seqZ (l : list StorySegment) :
  AppRuns.positions_match l -> index <$> l = seqZ 1 (Z.of_nat (length l)).
Proof.
  intros H. apply list_eq. intros k. rewrite list_lookup_fmap.
  destruct (l !! k) as [seg|] eqn:Hk; simpl.
  - pose proof (lookup_lt_Some _ _ _ Hk).
    rewrite lookup_seqZ_lt by lia. f_equal. rewrite (H k seg Hk). lia.
  - apply lookup_ge_None in Hk. symmetry. apply lookup_seqZ_ge. lia.
Qed.

(** X1.  As long as a story is not reset or replaced while a call of
    [generateNextSegment] is outstanding, the story's segments are
    segments 1, 2, ..., n in this order, with n at least 1 and at most
    [totalSegmentsEstimate]; at most one call is outstanding, and it is
    for segment n + 1, which is within the estimate. *)
Theorem segments_in_order (rank : AppState -> Z) (evs : list App.Event)
    (st : AudioStory) :
  AppRuns.calm_run rank App.start evs ->
  App.story (App.app (App.run rank App.start evs)) = Some st ->
  let n := Z.of_nat (length (segments st)) in
  index <$> segments st = seqZ 1 n
  /\ 1 <= n <= totalSegmentsEstimate st
  /\ (length (App.outstanding (App.run rank App.start evs)) <= 1)%nat
  /\ Forall (fun f => App.flight_index f = n + 1
                      /\ App.flight_index f <= totalSegmentsEstimate st)
            (App.outstanding (App.run rank App.start evs)).
Proof.
  intros Hcalm Hst.
  destruct (steady_run rank evs App.start steady_start Hcalm)
    as (_ & [Hlen _] & Hin).
  unfold AppRuns.in_order in Hin. rewrite Hst in Hin.
  destruct Hin as (Hp & H1 & Hle & Hf). cbv zeta.
  split; [by apply positions_match_seqZ|]. split; [lia|]. by split.
Qed.

Lemma segments_in_order_witness :
  exists st,
    App.story (App.app (App.run declaration_rank App.start Sample.plain_trace))
      = Some st
    /\ index <$> segments st = seqZ 1 2
    /\ App.flight_index <$>
         App.outstanding (App.run declaration_rank App.start Sample.plain_trace)
       = [3].
Proof.
  eexists. split; [vm_compute; reflexivity|].
  destruct (segments_in_order declaration_rank Sample.plain_trace _
              ltac:(vm_compute; repeat split) ltac:(vm_compute; reflexivity))
    as (Hidx & _ & _ & _).
  split; [exact Hidx|reflexivity].
Defined.

(** X2.  In such a run the segment at array position k is the one with
    index k + 1, so the segment the player plays,
    [story.segments[currentSegmentIndex]], is the one and only segment
    that the script column highlights. *)
Theorem played_segment_is_highlighted (rank : AppState -> Z)
    (evs : list App.Event) (st : AudioStory) (k i : nat) (seg : StorySegment) :
  AppRuns.calm_run rank App.start evs ->
  App.story (App.app (App.run rank App.start evs)) = Some st ->
  segments st !! k = Some seg ->
  index seg = Z.of_nat k + 1
  /\ (PlayerRuns.isHighlighted seg i = true <-> k = i).
Proof.
  intros Hcalm Hst Hk.
  destruct (steady_run rank evs App.start steady_start Hcalm) as (_ & _ & Hin).
  unfold AppRuns.in_order in Hin. rewrite Hst in Hin.
  destruct Hin as (Hp & _). specialize (Hp k seg Hk).
  split; [exact Hp|]. unfold PlayerRuns.isHighlighted. rewrite Z.eqb_eq. lia.
Qed.

Lemma played_segment_is_highlighted_witness :
  exists st seg,
    App.story (App.app (App.run declaration_rank App.start Sample.plain_trace))
      = Some st
    /\ segments st !! 1%nat = Some seg
    /\ index seg = 2
    /\ (PlayerRuns.isHighlighted seg 1 = true <-> 1%nat = 1%nat)
    /\ (PlayerRuns.isHighlighted seg 0 = true <-> 1%nat = 0%nat).
Proof.
  eexists _, _. split; [vm_compute; reflexivity|]. split; [reflexivity|].
  pose proof (fun i =>
    played_segment_is_highlighted declaration_rank Sample.plain_trace _ 1 i _
      ltac:(vm_compute; repeat split) ltac:(vm_compute; reflexivity) eq_refl) as H.
  split; [exact (proj1 (H 0%nat))|].
  split; [exact (proj2 (H 1%nat))|exact (proj2 (H 0%nat))].
Defined.

(** *** Time-outs and the service functions *)

(** X3.  A promise under [withTimeout] settles no later than the
    deadline, either as the promise itself settled or, exactly at the
    deadline, with the time-out error; a promise that is rejected before
    the deadline is passed on with its own error, not with the time-out
    message. *)
Theorem withTimeout_deadline {T} (tf : bool) (p : Promise T) (ms : Z)
    (msg : string) :
  (exists t o,
     withTimeout tf p ms msg = Settles t o
     /\ t <= Z.max 0 ms
     /\ (p = Settles t o \/ (t = Z.max 0 ms /\ o = Rejected (Err msg))))
  /\ (forall t e,
       p = Settles t (Rejected e) -> t < ms ->
       withTimeout tf p ms msg = Settles t (Rejected e)).
Proof.
  split.
  - rewrite withTimeout_unfold. destruct p as [t o|].
    + destruct ((t <? Z.max 0 ms) || ((t =? Z.max 0 ms) && negb tf)) eqn:H.
      * exists t, o. repeat split; [|by left].
        apply orb_true_iff in H as [H|H]; [apply Z.ltb_lt in H; lia|].
        apply andb_true_iff in H as [H _]. apply Z.eqb_eq in H. lia.
      * eexists _, _. split; [reflexivity|]. split; [lia|]. by right.
    + eexists _, _. split; [reflexivity|]. split; [lia|]. by right.
  - intros t e Hp Ht. by apply withTimeout_in_time.
Qed.

Lemma withTimeout_deadline_witness :
  withTimeout true (Settles 1500 (Rejected (Err "quota"))) 60000 "late"
    = Settles 1500 (Rejected (Err "quota") : Outcome nat).
Proof.
  apply (proj2 (withTimeout_deadline true
                  (Settles 1500 (Rejected (Err "quota"))) 60000 "late"));
    [reflexivity|lia].
Defined.

Lemma segment_text_not_empty (env : Env) (r : Response) :
  segment_text env r <> "".
Proof.
  unfold segment_text. destruct (response_text r) as [t|]; simpl; [|discriminate].
  destruct (String.eqb (trim env t) "") eqn:H; [discriminate|].
  by apply String.eqb_neq in H.
Qed.

(** X4.  [generateSegment] settles when the service settles and not
    otherwise.  A rejection of the service is rethrown with the same
    error.  An answer gives a segment with the index asked for, no audio
    yet, and a text that is never empty: the answer's text as the engine
    trims it, or the fallback sentence when that is empty or there is no
    text. *)
Theorem generateSegment_outcomes (env : Env) (route : RouteDetails)
    (i total : Z) (beat : JsValue) (context : string) :
  match generateContent env (SegmentRequest route i total beat context) with
  | Settles t (Fulfilled r) =>
      exists seg,
        generateSegment env route i total beat context = Settles t (Fulfilled seg)
        /\ index seg = i /\ audioBuffer seg = None
        /\ text seg <> ""
        /\ match response_text r with
           | Some answer =>
               if String.eqb (trim env answer) ""
               then text seg = SEGMENT_FALLBACK
               else text seg = trim env answer
           | None => text seg = SEGMENT_FALLBACK
           end
  | Settles t (Rejected e) =>
      generateSegment env route i total beat context = Settles t (Rejected e)
  | NeverSettles =>
      generateSegment env route i total beat context = NeverSettles
  end.
Proof.
  unfold generateSegment, mbind, promise_bind, await.
  destruct (generateContent env (SegmentRequest route i total beat context))
    as [t [r|e]|]; simpl.
  - eexists. split; [f_equal; lia|]. simpl.
    split; [reflexivity|]. split; [reflexivity|].
    split; [apply segment_text_not_empty|].
    unfold segment_text. destruct (response_text r) as [answer|]; simpl;
      [|reflexivity].
    by destruct (String.eqb (trim env answer) "").
  - f_equal. lia.
  - reflexivity.
Qed.

Lemma generateSegmentAudio_outcomes (env : Env) (words voice : string) :
  match generateContent env (SpeechRequest words voice) with
  | Settles t (Fulfilled r) =>
      match response_audioData r with
      | Some data =>
          if String.eqb data ""
          then generateSegmentAudio env words voice
                 = Settles t (Rejected (Err "No audio data."))
          else generateSegmentAudio env words voice
                 = delay t (decodeAudioData env data)
      | None =>
          generateSegmentAudio env words voice
            = Settles t (Rejected (Err "No audio data."))
      end
  | Settles t (Rejected e) =>
      generateSegmentAudio env words voice = Settles t (Rejected e)
  | NeverSettles => generateSegmentAudio env words voice = NeverSettles
  end.
Proof.
  unfold generateSegmentAudio, mbind, promise_bind, await.
  destruct (generateContent env (SpeechRequest words voice)) as [t [r|e]|]; simpl.
  - destruct (response_audioData r) as [data|]; simpl; [|f_equal; lia].
    destruct (String.eqb data ""); simpl; [f_equal; lia|].
    destruct (decodeAudioData env data) as [t' [a|e]|]; simpl;
      [reflexivity|f_equal; lia|reflexivity].
  - f_equal. lia.
  - reflexivity.
Qed.

(** X5.  [generateSegmentAudio] is fulfilled only when the service
    answered with inline audio data that is not empty and the decoder
    accepted it, and then with the decoder's buffer, at the sum of the two
    delays; an answer without audio data is rejected with
    [No audio data.] as soon as it arrives. *)
Theorem generateSegmentAudio_fulfilled (env : Env) (words voice : string) :
  (forall t audio,
     generateSegmentAudio env words voice = Settles t (Fulfilled audio) ->
     exists t1 r data t2,
       generateContent env (SpeechRequest words voice) = Settles t1 (Fulfilled r)
       /\ response_audioData r = Some data
       /\ data <> ""
       /\ decodeAudioData env data = Settles t2 (Fulfilled audio)
       /\ t = t1 + t2)
  /\ (forall t r,
       generateContent env (SpeechRequest words voice) = Settles t (Fulfilled r) ->
       response_audioData r = None \/ response_audioData r = Some "" ->
       generateSegmentAudio env words voice
         = Settles t (Rejected (Err "No audio data."))).
Proof.
  pose proof (generateSegmentAudio_outcomes env words voice) as H.
  split.
  - intros t audio Hok.
    destruct (generateContent env (SpeechRequest words voice)) as [t1 [r|e]|];
      [|congruence|congruence].
    destruct (response_audioData r) as [data|] eqn:Hdata; [|congruence].
    destruct (String.eqb data "") eqn:Hempty; [congruence|].
    rewrite H in Hok.
    destruct (decodeAudioData env data) as [t2 [a|e]|] eqn:Hdec;
      simpl in Hok; try discriminate.
    injection Hok as <- <-. exists t1, r, data, t2.
    apply String.eqb_neq in Hempty. by repeat split.
  - intros t r Hreq Hnone. rewrite Hreq in H.
    destruct Hnone as [Hn|Hn]; rewrite Hn in H; exact H.
Qed.

Lemma generateSegmentAudio_fulfilled_witness :
  (exists t1 r data t2,
     generateContent Sample.env_ok (SpeechRequest "The road bends." "Kore")
       = Settles t1 (Fulfilled r)
     /\ response_audioData r = Some data
     /\ data <> ""
     /\ decodeAudioData Sample.env_ok data = Settles t2 (Fulfilled Sample.clip2)
     /\ 4300 = t1 + t2)
  /\ generateSegmentAudio Sample.env_blank "The road bends." "Kore"
       = Settles 2000 (Rejected (Err "No audio data.")).
Proof.
  split.
  - apply (proj1 (generateSegmentAudio_fulfilled Sample.env_ok "The road bends." "Kore")).
    reflexivity.
  - apply (proj2 (generateSegmentAudio_fulfilled Sample.env_blank "The road bends." "Kore")
             2000 (Sample.answer "   ")); [reflexivity|by left].
Defined.

(** *** Reset *)

(** X6.  After [handleReset], whatever the state was, the buffering
    effect starts nothing, a call of [generateNextSegment] returns at
    once, and the answer to a call that was still outstanding leaves the
    story empty; resetting twice is resetting once. *)
Theorem reset_stops_generation (rank : AppState -> Z) (env : Env) (i : Z)
    (o : Outcome (StorySegment * AudioBuffer)) (s : App.State) :
  let r := App.handleReset s in
  App.appState r = PLANNING
  /\ App.story r = None /\ App.route r = None
  /\ App.generationError r = None
  /\ App.currentPlayingIndex r = 0%nat
  /\ App.bufferingEffect rank r = None
  /\ App.generateNextSegment env i r = Done 0 r (Fulfilled tt)
  /\ App.story (App.settleGeneration i o r) = None
  /\ App.handleReset r = r.
Proof.
  cbv zeta. repeat split.
  by destruct o as [[seg audio]|e].
Qed.

(** *** The number of segments *)

Lemma segments_le_iff (d : Q) (n : Z) :
  calculateTotalSegments d <= n <-> 1 <= n /\ (d <= 45 * inject_Z n)%Q.
Proof.
  unfold calculateTotalSegments, TARGET_SEGMENT_DURATION_SEC.
  assert (Hchar : Qceiling (d / 45) <= n <-> (d <= 45 * inject_Z n)%Q).
  { rewrite Qceiling_le_iff. split; intros H.
    - assert (Hd : (d == d / 45 * 45)%Q) by field.
      rewrite Hd at 1. rewrite (Qmult_comm 45).
      apply Qmult_le_compat_r; [exact H|discriminate].
    - apply Qle_shift_div_r; [reflexivity|]. rewrite Qmult_comm. exact H. }
  split.
  - intros H. split; [lia|]. apply Hchar. lia.
  - intros [H1 H2]. apply Hchar in H2. lia.
Qed.

(** *** The first segment *)

Lemma generateStoryOutline_length (env : Env) (route : RouteDetails)
    (n t : Z) (beats : list JsValue) :
  0 <= n <= MAX_ARRAY_LENGTH ->
  generateStoryOutline env route n = Settles t (Fulfilled beats) ->
  Z.of_nat (length beats) = n.
Proof.
  intros Hn H.
  destruct (generateContent env (OutlineRequest route n)) as [t' [r|e]|] eqn:Hreq.
  - rewrite (generateStoryOutline_answered env route n t' r Hn Hreq) in H.
    injection H as _ <-.
    destruct (trim env <$> response_text r) as [text|];
      [|rewrite length_replicate; lia].
    destruct (String.eqb text ""); [rewrite length_replicate; lia|].
    destruct (JSON_parse env text) as [[| | | | |items|]|];
      rewrite ?length_replicate, ?take_pad_length; lia.
  - unfold generateStoryOutline, mbind, promise_bind, await in H.
    rewrite Hreq in H. simpl in H. rewrite Array_fill_ok in H by exact Hn.
    simpl in H. injection H as _ <-. rewrite length_replicate. lia.
  - unfold generateStoryOutline, mbind, promise_bind, await in H.
    rewrite Hreq in H. discriminate.
Qed.

(** What the three requests of a start give when they all succeed. *)
Lemma initialRequests_fulfilled (env : Env) (details : RouteDetails) (t : Z)
    (beats : list JsValue) (seg : StorySegment) (audio : AudioBuffer) :
  App.initialRequests env details = Settles t (Fulfilled (beats, seg, audio)) ->
  exists t1 t2,
    generateStoryOutline env details
      (calculateTotalSegments (durationSeconds details))
      = Settles t1 (Fulfilled beats)
    /\ generateSegment env details 1
         (calculateTotalSegments (durationSeconds details))
         (App.or_else (App.item_at beats 0) (VString "Begin the journey.")) ""
       = Settles t2 (Fulfilled seg).
Proof.
  unfold App.initialRequests.
  destruct (withTimeout (timer_first env) (generateStoryOutline _ _ _) _ _)
    as [t1 [b1|e1]|] eqn:H1; try discriminate.
  unfold mbind at 1, promise_bind at 1, await at 1.
  destruct (withTimeout (timer_first env) (generateSegment _ _ _ _ _ _) _ _)
    as [t2 [s2|e2]|] eqn:H2; try discriminate.
  unfold mbind at 1, promise_bind at 1, await at 1.
  destruct (withTimeout (timer_first env) (generateSegmentAudio _ _ _) _ _)
    as [t3 [a3|e3]|] eqn:H3; try discriminate.
  simpl. intros [= _ <- <- <-].
  apply withTimeout_fulfilled in H1, H2. by exists t1, t2.
Qed.

(** X7.  When a start succeeds, the story holds exactly one segment: it
    has index 1, its audio, and a text that is not empty; the estimate is
    at least 1; and, the estimate being a valid array length, the outline
    has exactly one entry for each estimated segment. *)
Theorem first_story_shape (env : Env) (details : RouteDetails) (s : App.State)
    (t : Z) (beats : list JsValue) (seg1 : StorySegment) (audio : AudioBuffer) :
  App.initialRequests env details = Settles t (Fulfilled (beats, seg1, audio)) ->
  calculateTotalSegments (durationSeconds details) <= MAX_ARRAY_LENGTH ->
  exists st seg,
    App.story (App.final (App.handleGenerateStory env details s)) = Some st
    /\ App.appState (App.final (App.handleGenerateStory env details s))
         = READY_TO_PLAY
    /\ segments st = [seg]
    /\ index seg = 1 /\ audioBuffer seg = Some audio /\ text seg <> ""
    /\ 1 <= totalSegmentsEstimate st
    /\ totalSegmentsEstimate st = calculateTotalSegments (durationSeconds details)
    /\ Z.of_nat (length (outline st)) = totalSegmentsEstimate st.
Proof.
  intros Hreq Hmax.
  destruct (handleGenerateStory_outcome env details s)
    as (t' & s' & -> & _ & _ & _ & Hout).
  rewrite Hreq in Hout. destruct Hout as (_ & Hstate & _ & _ & Hstory).
  destruct (initialRequests_fulfilled _ _ _ _ _ _ Hreq) as (t1 & t2 & Ho & Hs).
  simpl. eexists _, _. split; [exact Hstory|]. split; [exact Hstate|].
  split; [reflexivity|]. simpl.
  assert (Htext : text seg1 <> "").
  { unfold generateSegment, mbind, promise_bind, await in Hs.
    destruct (generateContent env _) as [t3 [r|e]|]; simpl in Hs;
      try discriminate.
    injection Hs as _ <-. simpl. apply segment_text_not_empty. }
  assert (H1 : 1 <= calculateTotalSegments (durationSeconds details))
    by (unfold calculateTotalSegments; lia).
  repeat split; try assumption.
  eapply generateStoryOutline_length; [|exact Ho]. lia.
Qed.

Lemma first_story_shape_witness :
  exists st seg,
    App.story (App.final (App.handleGenerateStory Sample.env_ok Sample.details
                            App.initial)) = Some st
    /\ segments st = [seg]
    /\ index seg = 1
    /\ totalSegmentsEstimate st = 20
    /\ Z.of_nat (length (outline st)) = 20.
Proof.
  destruct (first_story_shape Sample.env_ok Sample.details App.initial 9300
              (replicate 20 (VString "Departure"))
              {| index := 1; text := "The road bends."; audioBuffer := None |}
              Sample.clip2
              ltac:(vm_compute; reflexivity) ltac:(vm_compute; discriminate))
    as (st & seg & Hst & _ & Hseg & Hi & _ & _ & _ & Ht & Hl).
  exists st, seg.
  split; [exact Hst|]. split; [exact Hseg|]. split; [exact Hi|].
  split; [rewrite Ht; reflexivity|rewrite Hl, Ht; reflexivity].
Defined.

(** X8.  Right after a successful start the buffering effect asks for
    segment 2 when the estimate is more than one segment, that is when
    the route lasts more than 45 seconds, and for nothing otherwise. *)
Theorem second_segment_follows (rank : AppState -> Z) (env : Env)
    (details : RouteDetails) (s : App.State) (t : Z)
    (answer : list JsValue * StorySegment * AudioBuffer) :
  App.isGeneratingRef s = false ->
  App.initialRequests env details = Settles t (Fulfilled answer) ->
  App.bufferingEffect rank (App.final (App.handleGenerateStory env details s))
    = (if Qle_bool (durationSeconds details) 45 then None else Some 2).
Proof.
  intros Hg Hreq. destruct answer as [[beats seg] audio].
  destruct (handleGenerateStory_outcome env details s)
    as (t' & s' & -> & _ & Hroute & Hguard & Hout).
  rewrite Hreq in Hout. destruct Hout as (_ & Hstate & _ & _ & Hstory).
  simpl. unfold App.bufferingEffect.
  rewrite Hstory, Hroute, Hstate, Hguard, Hg, Z.ltb_irrefl. simpl.
  change (Z.of_nat 1) with 1.
  replace (1 <? Z.of_nat (App.currentPlayingIndex s') + 3) with true
    by (symmetry; apply Z.ltb_lt; lia).
  simpl.
  pose proof (segments_le_iff (durationSeconds details) 1) as Hone.
  destruct (Qle_bool (durationSeconds details) 45) eqn:Hd.
  - apply Qle_bool_iff in Hd.
    replace (1 <? calculateTotalSegments (durationSeconds details)) with false;
      [reflexivity|].
    symmetry. apply Z.ltb_ge. apply Hone. split; [lia|exact Hd].
  - replace (1 <? calculateTotalSegments (durationSeconds details)) with true;
      [reflexivity|].
    symmetry. apply Z.ltb_lt. apply Z.nle_gt. intros Hle.
    apply Hone in Hle as [_ Hle].
    assert (Hle' : (durationSeconds details <= 45)%Q) by exact Hle.
    apply Qle_bool_iff in Hle'. congruence.
Qed.

Lemma second_segment_follows_witness :
  App.bufferingEffect declaration_rank
    (App.final (App.handleGenerateStory Sample.env_ok Sample.details App.initial))
  = Some 2.
Proof.
  exact (second_segment_follows declaration_rank Sample.env_ok Sample.details
           App.initial 9300
           (replicate 20 (VString "Departure"),
            {| index := 1; text := "The road bends."; audioBuffer := None |},
            Sample.clip2)
           eq_refl ltac:(vm_compute; reflexivity)).
Defined.

(** *** Planning a route *)

Section Planning.
Import RoutePlanner.

(** X9.  The directions path ends in exactly one of two ways.  Either a
    route is handed to [onRouteFound]: then the status was OK, the leg
    lasts at most 14400 seconds, the addresses, distance and duration are
    those of the leg, no error is shown and the loading flag is down.  Or
    no route is handed over and an error message is shown. *)
Theorem directions_path_outcome (startInput endInput : option string)
    (status : DirectionsStatus) (leg : Leg) (s : State) :
  match directionsPath startInput endInput status leg s with
  | (s', Some details) =>
      status = OK
      /\ (duration_value leg <= 14400)%Q
      /\ details = {| startAddress := start_address leg;
                     endAddress := end_address leg;
                     distance := distance_text leg;
                     duration := duration_text leg;
                     durationSeconds := duration_value leg;
                     travelMode := travelMode_in s;
                     voiceName := "Kore";
                     storyStyle := selectedStyle s |}
      /\ error s' = None
      /\ isLoading s' = false
  | (s', None) => exists msg, error s' = Some msg /\ msg <> ""
  end.
Proof.
  unfold directionsPath, handleCalculate.
  destruct (String.eqb (value_or startInput (startAddress_in s)) ""
            || String.eqb (value_or endInput (endAddress_in s)) "").
  { simpl. eexists. split; [reflexivity|discriminate]. }
  simpl. unfold directionsCallback.
  destruct status; simpl; try (eexists; split; [reflexivity|discriminate]).
  destruct (Qle_bool (duration_value leg) 14400) eqn:Hle; simpl.
  - apply Qle_bool_iff in Hle. repeat split. exact Hle.
  - eexists. split; [reflexivity|discriminate].
Qed.

(** X10.  With a start or an end missing, both in the input element and
    in the state, [handleCalculate] shows
    [Please define your journey start and end.], requests nothing and
    leaves the loading flag alone; otherwise it clears the error, raises
    the loading flag and asks the directions service exactly when the
    maps API is available and loaded, with what is in the input elements
    in preference to the state. *)
Theorem handleCalculate_request (startInput endInput : option string)
    (mapApiAvailable mapsLoaded : bool) (s : State) :
  let finalStart := value_or startInput (startAddress_in s) in
  let finalEnd := value_or endInput (endAddress_in s) in
  (finalStart = "" \/ finalEnd = "" ->
   handleCalculate startInput endInput mapApiAvailable mapsLoaded s
     = (setError (Some "Please define your journey start and end.") s, None))
  /\ (finalStart <> "" -> finalEnd <> "" ->
      exists s',
        error s' = None /\ isLoading s' = true
        /\ handleCalculate startInput endInput mapApiAvailable mapsLoaded s
           = (s', Some (if mapApiAvailable && mapsLoaded
                        then DirectionsRequest finalStart finalEnd (travelMode_in s)
                        else FallbackTimer finalStart finalEnd)))
  /\ (forall typed, startInput = Some typed -> typed <> "" -> finalStart = typed)
  /\ (forall typed, endInput = Some typed -> typed <> "" -> finalEnd = typed).
Proof.
  cbv zeta. unfold handleCalculate. repeat split.
  - intros [H|H]; rewrite H; [reflexivity|].
    by rewrite orb_true_r.
  - intros Hs He.
    apply String.eqb_neq in Hs, He. rewrite Hs, He. simpl.
    eexists. split; [|split]; [| |by destruct (mapApiAvailable && mapsLoaded)];
      reflexivity.
  - intros typed -> Hne. simpl. apply String.eqb_neq in Hne. by rewrite Hne.
  - intros typed -> Hne. simpl. apply String.eqb_neq in Hne. by rewrite Hne.
Qed.

End Planning.

Lemma handleCalculate_request_witness :
  let s := {| RoutePlanner.startAddress_in := "Pier 1";
              RoutePlanner.endAddress_in := "";
              RoutePlanner.manualDuration := 30;
              RoutePlanner.travelMode_in := WALKING;
              RoutePlanner.selectedStyle := NOIR;
              RoutePlanner.error := None; RoutePlanner.isLoading := false |} in
  RoutePlanner.handleCalculate None (Some "") true true s
    = (RoutePlanner.setError (Some "Please define your journey start and end.") s,
       None)
  /\ exists s',
       RoutePlanner.handleCalculate None (Some "Old Mill") true false s
         = (s', Some (RoutePlanner.FallbackTimer "Pier 1" "Old Mill")).
Proof.
  cbv zeta. split.
  - apply (proj1 (handleCalculate_request None (Some "") true true _)).
    by right.
  - destruct (proj1 (proj2 (handleCalculate_request None (Some "Old Mill")
                              true false
                              {| RoutePlanner.startAddress_in := "Pier 1";
                                 RoutePlanner.endAddress_in := "";
                                 RoutePlanner.manualDuration := 30;
                                 RoutePlanner.travelMode_in := WALKING;
                                 RoutePlanner.selectedStyle := NOIR;
                                 RoutePlanner.error := None;
                                 RoutePlanner.isLoading := false |}))
               ltac:(discriminate) ltac:(discriminate))
      as (s' & _ & _ & H).
    exists s'. exact H.
Defined.

Lemma minutes_le_iff (m n : Z) :
  (inject_Z (m * 60) <= 45 * inject_Z n)%Q <-> 4 * m <= 3 * n.
Proof.
  change (45%Q) with (inject_Z 45).
  rewrite <- inject_Z_mult, <- Zle_Qle. lia.
Qed.

Lemma segments_of_minutes (m : Z) :
  calculateTotalSegments (inject_Z (m * 60)) = Z.max 1 ((4 * m + 2) / 3).
Proof.
  apply Z.le_antisymm.
  - apply segments_le_iff. split; [lia|]. apply minutes_le_iff.
    pose proof (Z.div_mod (4 * m + 2) 3 ltac:(lia)).
    pose proof (Z.mod_pos_bound (4 * m + 2) 3 ltac:(lia)). lia.
  - destruct (proj1 (segments_le_iff (inject_Z (m * 60))
                       (calculateTotalSegments (inject_Z (m * 60))))
                    (Z.le_refl _)) as [H1 H2].
    apply minutes_le_iff in H2.
    assert ((4 * m + 2) / 3 < calculateTotalSegments (inject_Z (m * 60)) + 1).
    { apply Z.div_lt_upper_bound; lia. }
    lia.
Qed.

(** X11.  Without the maps API, and with a start and an end given, the
    fallback always hands a route to [onRouteFound], with the addresses
    as typed, the distance [Unknown] and a duration of 60 seconds for
    each minute of the slider; no limit is checked and no error is shown.
    Such a route is told in [max(1, floor((4 m + 2) / 3))] segments, m
    being the minutes; for the slider's range of 5 to 180 minutes these
    are between 7 and 240 segments. *)
Theorem manual_route (startInput endInput : option string)
    (mapApiAvailable mapsLoaded : bool) (s : RoutePlanner.State) :
  let finalStart := RoutePlanner.value_or startInput (RoutePlanner.startAddress_in s) in
  let finalEnd := RoutePlanner.value_or endInput (RoutePlanner.endAddress_in s) in
  let m := RoutePlanner.manualDuration s in
  mapApiAvailable && mapsLoaded = false ->
  finalStart <> "" -> finalEnd <> "" ->
  exists s' details,
    ManualRoute.fallbackPath startInput endInput mapApiAvailable mapsLoaded s
      = (s', Some details)
    /\ RoutePlanner.error s' = None /\ RoutePlanner.isLoading s' = false
    /\ startAddress details = finalStart /\ endAddress details = finalEnd
    /\ distance details = "Unknown"
    /\ durationSeconds details = inject_Z (m * 60)
    /\ calculateTotalSegments (durationSeconds details)
         = Z.max 1 ((4 * m + 2) / 3)
    /\ (5 <= m <= 180 ->
        7 <= calculateTotalSegments (durationSeconds details) <= 240).
Proof.
  cbv zeta. intros Hapi Hs He.
  unfold ManualRoute.fallbackPath, RoutePlanner.handleCalculate.
  apply String.eqb_neq in Hs, He. rewrite Hs, He, Hapi. simpl.
  eexists _, _. split; [reflexivity|]. simpl.
  repeat split; try apply segments_of_minutes;
    intros; rewrite segments_of_minutes.
  - pose proof (Z.div_mod (4 * RoutePlanner.manualDuration s + 2) 3 ltac:(lia)).
    pose proof (Z.mod_pos_bound (4 * RoutePlanner.manualDuration s + 2) 3 ltac:(lia)).
    lia.
  - pose proof (Z.div_mod (4 * RoutePlanner.manualDuration s + 2) 3 ltac:(lia)).
    pose proof (Z.mod_pos_bound (4 * RoutePlanner.manualDuration s + 2) 3 ltac:(lia)).
    lia.
Qed.

Lemma manual_route_witness :
  exists s' details,
    ManualRoute.fallbackPath (Some "Pier 1") (Some "Old Mill") false false
      {| RoutePlanner.startAddress_in := ""; RoutePlanner.endAddress_in := "";
         RoutePlanner.manualDuration := 30;
         RoutePlanner.travelMode_in := WALKING;
         RoutePlanner.selectedStyle := NOIR;
         RoutePlanner.error := None; RoutePlanner.isLoading := false |}
      = (s', Some details)
    /\ duration details = "30 mins"
    /\ calculateTotalSegments (durationSeconds details) = 40.
Proof.
  destruct (manual_route (Some "Pier 1") (Some "Old Mill") false false
              {| RoutePlanner.startAddress_in := ""; RoutePlanner.endAddress_in := "";
                 RoutePlanner.manualDuration := 30;
                 RoutePlanner.travelMode_in := WALKING;
                 RoutePlanner.selectedStyle := NOIR;
                 RoutePlanner.error := None; RoutePlanner.isLoading := false |}
              eq_refl ltac:(discriminate) ltac:(discriminate))
    as (s' & details & Hpath & _ & _ & _ & _ & _ & _ & Hn & _).
  exists s', details. split; [exact Hpath|].
  split; [|rewrite Hn; reflexivity].
  vm_compute in Hpath. injection Hpath as _ <-. reflexivity.
Defined.

(** X12.  A route that comes out of the directions path is told in at
    least 1 and at most 320 segments. *)
Theorem directions_segments_bounded (startInput endInput : option string)
    (status : RoutePlanner.DirectionsStatus) (leg : RoutePlanner.Leg)
    (s s' : RoutePlanner.State) (details : RouteDetails) :
  RoutePlanner.directionsPath startInput endInput status leg s
    = (s', Some details) ->
  1 <= calculateTotalSegments (durationSeconds details) <= 320.
Proof.
  unfold RoutePlanner.directionsPath.
  destruct (RoutePlanner.handleCalculate startInput endInput true true s)
    as [s1 [[o d m|fs fe]|]]; try discriminate.
  unfold RoutePlanner.directionsCallback.
  destruct status; try discriminate.
  destruct (Qle_bool (RoutePlanner.duration_value leg) 14400) eqn:Hle;
    simpl; [|discriminate].
  intros [= _ <-]. simpl. apply Qle_bool_iff in Hle.
  split; [unfold calculateTotalSegments; lia|].
  apply segments_le_iff. split; [lia|].
  eapply Qle_trans; [exact Hle|]. discriminate.
Qed.

Lemma directions_segments_bounded_witness :
  1 <= calculateTotalSegments 14400 <= 320.
Proof.
  exact (directions_segments_bounded None None RoutePlanner.OK
           {| RoutePlanner.start_address := "A"; RoutePlanner.end_address := "B";
              RoutePlanner.distance_text := "400 km";
              RoutePlanner.duration_text := "4 hours";
              RoutePlanner.duration_value := 14400 |}
           {| RoutePlanner.startAddress_in := "A"; RoutePlanner.endAddress_in := "B";
              RoutePlanner.manualDuration := 30;
              RoutePlanner.travelMode_in := DRIVING;
              RoutePlanner.selectedStyle := NOIR;
              RoutePlanner.error := None; RoutePlanner.isLoading := false |}
           _ _ eq_refl).
Defined.

(** *** The player's bookkeeping *)

Section PlayerBookkeeping.
Import StoryPlayer PlayerRuns.

Lemma timed_later (last now : Q) (s : State) :
  timed last s -> (last <= now)%Q -> timed now s.
Proof.
  intros (Hoff & Hstart & Hsrc) Hnow. repeat split; [exact Hoff| |exact Hsrc].
  eapply Qle_trans; [exact Hstart|exact Hnow].
Qed.

Lemma timed_playSegment (last now offset : Q) (seg : option StorySegment)
    (s : State) :
  timed last s -> (last <= now)%Q -> (0 <= offset)%Q ->
  timed now (playSegment seg offset now s).
Proof.
  intros Ht Hnow Hoff. unfold playSegment. destruct (clip seg) as [buf|].
  - destruct Ht as (Ho & _ & _). unfold timed. simpl.
    repeat split; [exact Ho| |exact Hoff]. lra.
  - by apply (timed_later last).
Qed.

Lemma timed_step (last : Q) (s : State) (ev : Event) :
  timed last s -> (last <= clock ev)%Q -> timed (clock ev) (step s ev).
Proof.
  intros Ht Hnow. pose proof (timed_later _ _ _ Ht Hnow) as Ht'.
  destruct ev as [props now|segment props now|props now]; simpl in *.
  - unfold togglePlayback. destruct (isPlaying s).
    + destruct Ht' as (Ho & Hs & _).
      destruct (audioContextRef s && negb (isBuffering s)); unfold timed; simpl;
        repeat split; try assumption; try apply Qle_refl. lra.
    + destruct (clip (segments (story props) !! currentSegmentIndex s)) eqn:Hc.
      * apply (timed_playSegment last); [|exact Hnow|by destruct Ht].
        exact Ht.
      * exact Ht'.
  - unfold onended. destruct (audioBuffer segment); [|exact Ht'].
    destruct (negb (audioContextRef s)); [exact Ht'|].
    destruct (Qle_bool _ _); [|exact Ht'].
    unfold handleSegmentEnd.
    destruct (clip (segments (story props) !! (indexRef s + 1)%nat)).
    + apply (timed_playSegment now); [|apply Qle_refl|apply Qle_refl].
      destruct Ht' as (_ & Hs & Hsrc). unfold timed. simpl.
      repeat split; [apply Qle_refl|exact Hs|exact Hsrc].
    + destruct Ht' as (_ & Hs & Hsrc).
      destruct (_ && _); unfold timed; simpl;
        (repeat split; [apply Qle_refl|exact Hs|exact Hsrc]).
  - unfold effects, resumeWhenReady. simpl.
    destruct (isBuffering s && isPlaying s && _); [|exact Ht'].
    apply (timed_playSegment now); [exact Ht'|apply Qle_refl|apply Qle_refl].
Qed.

(** X13.  When the audio clock never goes back, every offset that the
    player hands to [source.start] is zero or more, whatever the order of
    clicks, clip ends and renders: the recorded offset is never negative,
    the recorded start time is never later than the clock, and a source
    exists only with its audio context. *)
Theorem offsets_never_negative (evs : list Event) (s : State) (last : Q) :
  timed last s ->
  monotone last evs ->
  timed (clock_after last evs) (run s evs).
Proof.
  revert s last. induction evs as [|ev evs IH]; intros s last Ht Hm; [exact Ht|].
  destruct Hm as [Hnow Hm].
  change (timed (clock_after (clock ev) evs) (run (step s ev) evs)).
  apply IH; [by apply (timed_step last)|exact Hm].
Qed.

Lemma synced_step (s : State) (ev : Event) :
  synced s ->
  synced (step s ev)
  /\ (currentSegmentIndex s <= currentSegmentIndex (step s ev))%nat
  /\ (currentSegmentIndex (step s ev) <= S (currentSegmentIndex s))%nat
  /\ match ev with
     | Ended _ _ _ => True
     | _ => currentSegmentIndex (step s ev) = currentSegmentIndex s
     end.
Proof.
  unfold synced. intros Hs.
  destruct ev as [props now|segment props now|props now]; simpl.
  - unfold togglePlayback. destruct (isPlaying s).
    + destruct (audioContextRef s && negb (isBuffering s)); simpl; lia.
    + unfold playSegment.
      destruct (clip (segments (story props) !! currentSegmentIndex s)); simpl; lia.
  - unfold onended. destruct (audioBuffer segment); [|lia].
    destruct (negb (audioContextRef s)); [lia|].
    destruct (Qle_bool _ _); [|lia].
    unfold handleSegmentEnd, playSegment.
    destruct (clip (segments (story props) !! (indexRef s + 1)%nat)); simpl;
      [lia|].
    destruct (_ && _); simpl; lia.
  - unfold effects, resumeWhenReady, playSegment. simpl.
    destruct (isBuffering s && isPlaying s && _); simpl; [|lia].
    destruct (clip (segments (story props) !! currentSegmentIndex s)); simpl; lia.
Qed.

(** X14.  The current segment index never goes back and goes up by at
    most one for each clip that ended: a click on the play button and a
    render leave it alone, the end of a clip adds at most one. *)
Theorem index_moves_forward (evs : list Event) (s : State) :
  synced s ->
  (currentSegmentIndex s <= currentSegmentIndex (run s evs))%nat
  /\ (currentSegmentIndex (run s evs) <= currentSegmentIndex s + ended_count evs)%nat.
Proof.
  revert s. induction evs as [|ev evs IH]; intros s Hs; [simpl; lia|].
  destruct (synced_step s ev Hs) as (Hs' & Hup & Hone & Hsame).
  specialize (IH (step s ev) Hs'). simpl.
  unfold ended_count in *.
  destruct ev as [props now|segment props now|props now]; simpl in *; lia.
Qed.

(** X15.  When a clip ends and the next segment has no audio yet, while
    the story is not over or a generation is running, the player moves to
    the next index and waits; a render does not start anything as long as
    the audio is missing, and the first render that sees the audio starts
    that clip at offset 0 and ends the wait. *)
Theorem waits_then_resumes (handlerProps laterProps : Props)
    (buf : AudioBuffer) (now1 now2 : Q) (s : State) :
  isPlaying s = true ->
  clip (segments (story handlerProps) !! S (indexRef s)) = None ->
  (totalSegmentsEstimate (story handlerProps) <=? Z.of_nat (S (indexRef s)))
    && negb (isBackgroundGenerating handlerProps) = false ->
  clip (segments (story laterProps) !! S (indexRef s)) = Some buf ->
  let waiting := handleSegmentEnd handlerProps now1 s in
  let resumed := effects laterProps now2 waiting in
  (isBuffering waiting = true /\ isPlaying waiting = true
   /\ currentSegmentIndex waiting = S (indexRef s)
   /\ sourceRef waiting = sourceRef s)
  /\ (forall props now,
        clip (segments (story props) !! S (indexRef s)) = None ->
        effects props now waiting = syncIndexRef waiting)
  /\ (isBuffering resumed = false /\ isPlaying resumed = true
      /\ currentSegmentIndex resumed = S (indexRef s)
      /\ indexRef resumed = S (indexRef s)
      /\ sourceRef resumed = Some {| buffer := buf; startOffset := 0 |}
      /\ startTimeRef resumed = (now2 - 0)%Q).
Proof.
  intros Hplay Hnone Hgo Hsome. cbv zeta.
  assert (Hwait : handleSegmentEnd handlerProps now1 s =
            setIsBuffering true
              (setSegmentOffsetRef 0 (setCurrentSegmentIndex (S (indexRef s)) s))).
  { unfold handleSegmentEnd.
    replace (indexRef s + 1)%nat with (S (indexRef s)) by lia.
    by rewrite Hnone, Hgo. }
  rewrite Hwait. split; [by repeat split|]. split.
  - intros props now Hmiss. unfold effects, resumeWhenReady. simpl.
    rewrite Hmiss, Hplay. reflexivity.
  - unfold effects, resumeWhenReady. simpl. rewrite Hsome, Hplay. simpl.
    rewrite (playSegment_clip _ buf) by exact Hsome. by repeat split.
Qed.

Lemma waits_then_resumes_witness :
  let early := {| story := Sample.story1; isBackgroundGenerating := true |} in
  let later := {| story := Sample.story2; isBackgroundGenerating := false |} in
  let playing := playSegment (Some Sample.segment1) 0 100
                   (setIsPlaying true StoryPlayer.initial) in
  let waiting := handleSegmentEnd early 140 playing in
  let resumed := effects later 143 waiting in
  isBuffering waiting = true
  /\ sourceRef resumed = Some {| buffer := Sample.clip2; startOffset := 0 |}
  /\ isBuffering resumed = false
  /\ currentSegmentIndex resumed = 1%nat.
Proof.
  cbv zeta.
  destruct (waits_then_resumes
              {| story := Sample.story1; isBackgroundGenerating := true |}
              {| story := Sample.story2; isBackgroundGenerating := false |}
              Sample.clip2 140 143
              (playSegment (Some Sample.segment1) 0 100
                 (setIsPlaying true StoryPlayer.initial))
              eq_refl eq_refl eq_refl eq_refl)
    as ((Hw & _) & _ & (Hb & _ & Hi & _ & Hsrc & _)).
  split; [exact Hw|]. split; [exact Hsrc|]. split; [exact Hb|exact Hi].
Defined.

Lemma offsets_never_negative_witness :
  let props := {| story := Sample.story2; isBackgroundGenerating := false |} in
  let evs := [Toggle props 0; Toggle props 12; Toggle props 30;
              Ended Sample.segment1 props 58; Rendered props 58] in
  timed 58 (run StoryPlayer.initial evs)
  /\ sourceRef (run StoryPlayer.initial evs)
       = Some {| buffer := Sample.clip2; startOffset := 0 |}.
Proof.
  cbv zeta. split; [|reflexivity].
  apply (offsets_never_negative
           [Toggle {| story := Sample.story2; isBackgroundGenerating := false |} 0;
            Toggle {| story := Sample.story2; isBackgroundGenerating := false |} 12;
            Toggle {| story := Sample.story2; isBackgroundGenerating := false |} 30;
            Ended Sample.segment1
              {| story := Sample.story2; isBackgroundGenerating := false |} 58;
            Rendered {| story := Sample.story2; isBackgroundGenerating := false |} 58]
           StoryPlayer.initial 0).
  - repeat split; discriminate.
  - simpl. repeat split; discriminate.
Defined.

Lemma index_moves_forward_witness :
  let props := {| story := Sample.story2; isBackgroundGenerating := false |} in
  let evs := [Toggle props 0; Toggle props 12; Toggle props 30;
              Ended Sample.segment1 props 58; Rendered props 58] in
  (0 <= currentSegmentIndex (run StoryPlayer.initial evs))%nat
  /\ (currentSegmentIndex (run StoryPlayer.initial evs) <= 0 + 1)%nat
  /\ currentSegmentIndex (run StoryPlayer.initial evs) = 1%nat.
Proof.
  cbv zeta.
  destruct (index_moves_forward
              [Toggle {| story := Sample.story2; isBackgroundGenerating := false |} 0;
               Toggle {| story := Sample.story2; isBackgroundGenerating := false |} 12;
               Toggle {| story := Sample.story2; isBackgroundGenerating := false |} 30;
               Ended Sample.segment1
                 {| story := Sample.story2; isBackgroundGenerating := false |} 58;
               Rendered {| story := Sample.story2; isBackgroundGenerating := false |} 58]
              StoryPlayer.initial)
    as [Hlo Hhi].
  - unfold synced. simpl. lia.
  - split; [exact Hlo|]. split; [exact Hhi|reflexivity].
Defined.

End PlayerBookkeeping.

(** *** The context of a segment *)

Lemma substring_all (s : string) (m : nat) :
  (String.length s <= m)%nat -> String.substring 0 m s = s.
Proof.
  revert m. induction s as [|c s IH]; intros m Hm.
  - by destruct m.
  - destruct m as [|m]; simpl in *; [lia|]. rewrite IH by lia. reflexivity.
Qed.

Lemma substring_tail (s : string) (k : nat) :
  (k <= String.length s)%nat ->
  exists front,
    String.length front = k
    /\ s = (front ++ String.substring k (String.length s - k) s)%string.
Proof.
  revert k. induction s as [|c s IH]; intros k Hk.
  - exists EmptyString. simpl in *. replace k with 0%nat by lia. by split.
  - destruct k as [|k].
    + exists EmptyString. split; [reflexivity|].
      rewrite Nat.sub_0_r, substring_all by lia. reflexivity.
    + simpl in Hk. destruct (IH k ltac:(lia)) as (front & Hlen & Heq).
      exists (String c front). split; [simpl; lia|].
      change (String c s
              = String c (front ++ String.substring k (String.length s - k) s)%string).
      f_equal. exact Heq.
Qed.

Lemma length_append (a b : string) :
  String.length (a ++ b) = (String.length a + String.length b)%nat.
Proof. induction a as [|c a IH]; simpl; [reflexivity|]. by rewrite IH. Qed.

Lemma slice_last_spec (n : nat) (s : string) :
  exists front,
    s = (front ++ slice_last n s)%string
    /\ String.length (slice_last n s) = Nat.min n (String.length s).
Proof.
  unfold slice_last.
  destruct (Nat.le_gt_cases (String.length s) n) as [Hshort|Hlong].
  - exists EmptyString. replace (String.length s - n)%nat with 0%nat by lia.
    rewrite substring_all by exact Hshort. split; [reflexivity|lia].
  - destruct (substring_tail s (String.length s - n) ltac:(lia))
      as (front & Hlen & Heq).
    replace (String.length s - (String.length s - n))%nat with n in Heq by lia.
    exists front. split; [exact Heq|].
    apply (f_equal String.length) in Heq. rewrite length_append in Heq. lia.
Qed.

(** X16.  The earlier text that [generateNextSegment] hands to
    [generateSegment] is the end of the segment texts joined by single
    spaces: it is never longer than 3000 characters, and it is the whole
    joined text when that has at most 3000 characters. *)
Theorem previous_text_bounded (story : AudioStory) :
  let joined := String.concat " " (map text (segments story)) in
  (String.length (App.allPreviousText story) <= 3000)%nat
  /\ (exists front, joined = (front ++ App.allPreviousText story)%string)
  /\ ((String.length joined <= 3000)%nat -> App.allPreviousText story = joined).
Proof.
  cbv zeta. unfold App.allPreviousText.
  destruct (slice_last_spec 3000 (String.concat " " (map text (segments story))))
    as (front & Heq & Hlen).
  split; [rewrite Hlen; apply Nat.le_min_l|]. split; [by exists front|].
  intros Hshort. unfold slice_last.
  replace (String.length _ - 3000)%nat with 0%nat by lia.
  by apply substring_all.
Qed.

Lemma previous_text_bounded_witness :
  App.allPreviousText Sample.story2 = "Rain on the pier. The mill road.".
Proof.
  apply (proj2 (proj2 (previous_text_bounded Sample.story2))).
  vm_compute. repeat constructor.
Defined.

(** *** The API key *)

Section ApiKey.
Import Bootstrap.

Lemma strip_quotes_clean (s : string) : all_chars not_quote (strip_quotes s) = true.
Proof.
  induction s as [|c s IH]; [reflexivity|]. simpl.
  destruct (is_quote c) eqn:Hc; [exact IH|]. simpl.
  unfold not_quote at 1. by rewrite Hc.
Qed.

Lemma all_chars_app (p : ascii -> bool) (a b : string) :
  all_chars p (a ++ b) = all_chars p a && all_chars p b.
Proof.
  induction a as [|c a IH]; [reflexivity|].
  change (all_chars p (String c (a ++ b)) = all_chars p (String c a) && all_chars p b).
  simpl. by rewrite IH, andb_assoc.
Qed.

Lemma cuts_keeps (trim : string -> string) (p : ascii -> bool) (s : string) :
  cuts trim -> all_chars p s = true -> all_chars p (trim s) = true.
Proof.
  intros Hcut Hs. destruct (Hcut s) as (a & b & Heq).
  rewrite Heq in Hs. rewrite !all_chars_app in Hs.
  apply andb_true_iff in Hs as [_ Hs]. by apply andb_true_iff in Hs as [Hs _].
Qed.

Lemma ascii_trim_start_cuts (s : string) :
  exists a, s = (a ++ ascii_trim_start s)%string.
Proof.
  induction s as [|c s IH]; [by exists EmptyString|]. simpl.
  destruct (ascii_space c); [|by exists EmptyString].
  destruct IH as [a Ha]. exists (String c a).
  change (String c s = String c (a ++ ascii_trim_start s)%string). by f_equal.
Qed.

Lemma ascii_trim_end_cuts (s : string) :
  exists b, s = (ascii_trim_end s ++ b)%string.
Proof.
  induction s as [|c s IH]; [by exists EmptyString|]. simpl.
  destruct IH as [b Hb]. destruct (ascii_trim_end s) as [|d r].
  - destruct (ascii_space c).
    + by exists (String c s).
    + exists b. change (String c s = String c (EmptyString ++ b)%string).
      by f_equal.
  - exists b. change (String c s = String c (String d r ++ b)%string). by f_equal.
Qed.

Lemma ascii_trim_cuts : cuts ascii_trim.
Proof.
  intros s. unfold ascii_trim.
  destruct (ascii_trim_start_cuts s) as [a Ha].
  destruct (ascii_trim_end_cuts (ascii_trim_start s)) as [b Hb].
  exists a, b. by rewrite <- Hb.
Qed.

Lemma API_KEY_getApiKey (trim : string -> string) (key : option string) :
  API_KEY trim key = default "" (getApiKey trim key).
Proof.
  unfold API_KEY, getApiKey. destruct key as [k|]; [|reflexivity].
  by destruct (String.eqb k "").
Qed.

(** X17.  The key that the service client is built with is the
    environment's key with the quotes removed and then trimmed by the
    engine, and the empty string when there is no key; since trimming
    only cuts characters off the two ends, no double quote and no
    apostrophe is left in it.  The app's bootstrap reads the key the same
    way: it reports the missing key exactly when the client's key is
    empty. *)
Theorem api_key_cleaned (trim : string -> string) (key : option string) :
  cuts trim ->
  all_chars not_quote (API_KEY trim key) = true
  /\ API_KEY trim key =
       match key with
       | Some k => if String.eqb k "" then "" else trim (strip_quotes k)
       | None => ""
       end
  /\ API_KEY trim key = default "" (getApiKey trim key)
  /\ (bootstrapError trim key = Some MISSING_KEY_MESSAGE <-> API_KEY trim key = "")
  /\ (bootstrapError trim key = None <-> API_KEY trim key <> "").
Proof.
  intros Hcut.
  assert (Hcases : bootstrapError trim key =
            if String.eqb (API_KEY trim key) ""
            then Some MISSING_KEY_MESSAGE else None).
  { unfold bootstrapError, API_KEY, getApiKey. destruct key as [k|]; [|reflexivity].
    by destruct (String.eqb k ""). }
  split; [|split; [|split; [|split]]].
  - unfold API_KEY. destruct key as [k|]; [|reflexivity].
    destruct (String.eqb k ""); [reflexivity|].
    apply cuts_keeps; [exact Hcut|apply strip_quotes_clean].
  - reflexivity.
  - apply API_KEY_getApiKey.
  - rewrite Hcases. destruct (String.eqb (API_KEY trim key) "") eqn:H.
    + apply String.eqb_eq in H. by split.
    + apply String.eqb_neq in H. split; [discriminate|contradiction].
  - rewrite Hcases. destruct (String.eqb (API_KEY trim key) "") eqn:H.
    + apply String.eqb_eq in H. split; [discriminate|contradiction].
    + apply String.eqb_neq in H. by split.
Qed.

End ApiKey.

Lemma api_key_cleaned_witness :
  Bootstrap.all_chars Bootstrap.not_quote
    (Bootstrap.API_KEY ascii_trim (Some " 'AIza-123' ")) = true
  /\ Bootstrap.bootstrapError ascii_trim (Some "  ''  ")
       = Some Bootstrap.MISSING_KEY_MESSAGE
  /\ Bootstrap.bootstrapError ascii_trim (Some " 'AIza-123' ") = None
  /\ Bootstrap.API_KEY ascii_trim (Some " 'AIza-123' ") = "AIza-123".
Proof.
  split; [|split; [|split; [|reflexivity]]].
  - apply (proj1 (api_key_cleaned ascii_trim (Some " 'AIza-123' ") ascii_trim_cuts)).
  - apply (proj2 (proj1 (proj2 (proj2 (proj2
             (api_key_cleaned ascii_trim (Some "  ''  ") ascii_trim_cuts)))))).
    reflexivity.
  - apply (proj2 (proj2 (proj2 (proj2 (proj2
             (api_key_cleaned ascii_trim (Some " 'AIza-123' ") ascii_trim_cuts)))))).
    discriminate.
Defined.

(** *** More on the segment list and the buffering effect *)

(** X18.  The function handed to [setStory] never removes or replaces a
    segment: the result holds every segment of the previous story, the
    same estimate and the same outline, and either nothing more, when the
    index was there already, or exactly one more segment, the new one
    with its audio. *)
Theorem appendSegment_keeps (i : Z) (seg : StorySegment) (audio : AudioBuffer)
    (prev : AudioStory) :
  exists st,
    App.appendSegment i seg audio (Some prev) = Some st
    /\ totalSegmentsEstimate st = totalSegmentsEstimate prev
    /\ outline st = outline prev
    /\ (forall x, x ∈ segments prev -> x ∈ segments st)
    /\ (if App.has_index i (segments prev)
        then segments st = segments prev
        else segments st ≡ₚ
               segments prev ++ [ {| index := index seg; text := text seg;
                                     audioBuffer := Some audio |} ]).
Proof.
  unfold App.appendSegment.
  destruct (App.has_index i (segments prev)); eexists; (split; [reflexivity|]).
  - by repeat split.
  - simpl. repeat split; [|apply sort_by_index_perm].
    intros x Hx. rewrite sort_by_index_perm. apply elem_of_app. by left.
Qed.

(** X19.  A background generation that fails is not tried again by
    [generateNextSegment], which ends with one line for the start and
    one for the error on the console and the guard down.  It leaves the
    story, the route, the app state and the playing index as they were:
    these are the effect's dependencies, so the failure gives the effect
    no reason to run again.  When the playing index changes later, the
    effect decides as if the failed call had never been made, and it
    asks for the same segment again once playback has not gone back. *)
Theorem failed_segment_waits_for_a_change (rank : AppState -> Z) (env : Env)
    (i t : Z) (e : Error) (route : RouteDetails) (story : AudioStory)
    (s : App.State) :
  App.route s = Some route ->
  App.story s = Some story ->
  App.isGeneratingRef s = false ->
  App.segmentRequests env route story i = Settles t (Rejected e) ->
  let s' := App.final (App.generateNextSegment env i s) in
  App.bufferingDeps s' = App.bufferingDeps s
  /\ App.isGeneratingRef s' = false
  /\ App.console s' =
       App.console s ++ [App.Log_starting i; App.Error_segment_failed i e]
  /\ (forall j,
        App.bufferingEffect rank (App.setCurrentPlayingIndex j s')
        = App.bufferingEffect rank (App.setCurrentPlayingIndex j s))
  /\ (forall j,
        App.bufferingEffect rank s = Some i ->
        (App.currentPlayingIndex s <= j)%nat ->
        App.bufferingEffect rank (App.setCurrentPlayingIndex j s') = Some i).
Proof.
  intros Hr Hs Hg Hreq. cbv zeta.
  rewrite generateNextSegment_factors, Hr, Hs, Hg, Hreq. simpl.
  assert (Hsame : forall j,
            App.bufferingEffect rank
              (App.setCurrentPlayingIndex j
                 (App.leaveGeneration
                    (App.log (App.Error_segment_failed i e)
                       (App.enterGeneration i s))))
            = App.bufferingEffect rank (App.setCurrentPlayingIndex j s)).
  { intros j. unfold App.bufferingEffect. simpl. by rewrite Hr, Hs, Hg. }
  split; [reflexivity|]. split; [reflexivity|].
  split; [simpl; by rewrite <- app_assoc|].
  split; [exact Hsame|].
  intros j Hasked Hj. rewrite Hsame. revert Hasked.
  unfold App.bufferingEffect. simpl. rewrite Hr, Hs, Hg.
  destruct (rank (App.appState s) <? rank READY_TO_PLAY); [discriminate|].
  destruct (Z.of_nat (length (segments story))
              <? Z.of_nat (App.currentPlayingIndex s) + 3) eqn:H1;
    simpl; [|discriminate].
  destruct (Z.of_nat (length (segments story)) <? totalSegmentsEstimate story);
    simpl; [|discriminate].
  intros <-. apply Z.ltb_lt in H1.
  replace (Z.of_nat (length (segments story)) <? Z.of_nat j + 3) with true
    by (symmetry; apply Z.ltb_lt; lia).
  reflexivity.
Qed.

Lemma failed_segment_waits_for_a_change_witness :
  let s' := App.final (App.generateNextSegment Sample.env_down 2 Sample.ready) in
  App.bufferingDeps s' = App.bufferingDeps Sample.ready
  /\ App.bufferingEffect declaration_rank (App.setCurrentPlayingIndex 1 s') = Some 2.
Proof.
  cbv zeta.
  destruct (failed_segment_waits_for_a_change declaration_rank Sample.env_down 2 100
              (Err "503 Service Unavailable") Sample.details Sample.story1
              Sample.ready eq_refl eq_refl eq_refl eq_refl)
    as (Hdeps & _ & _ & _ & Hagain).
  split; [exact Hdeps|]. apply Hagain; [reflexivity|].
  change (App.currentPlayingIndex Sample.ready) with 0%nat. lia.
Defined.

Lemma segments_monotone (d1 d2 : Q) :
  (d1 <= d2)%Q -> calculateTotalSegments d1 <= calculateTotalSegments d2.
Proof.
  intros Hle. apply segments_le_iff.
  assert (H2 : calculateTotalSegments d2 <= calculateTotalSegments d2) by lia.
  apply segments_le_iff in H2 as [Hone Hcover].
  split; [exact Hone|]. eapply Qle_trans; [exact Hle|exact Hcover].
Qed.

Lemma of_Z_ordered (a b : Z) :
  1 <= a -> a <= b -> b <= 320 ->
  (Double.of_Z a <=? Double.of_Z b)%float = true.
Proof.
  intros Ha Hab Hb.
  assert (Hall : Double.ordered_from 1 (Z.to_nat 320) = true)
    by (vm_compute; reflexivity).
  pose proof (range_all_spec _ 1 320 a Hall ltac:(lia)) as Hrow.
  pose proof (range_all_spec _ 1 320 b Hrow ltac:(lia)) as Hcell.
  simpl in Hcell.
  replace (a <=? b) with true in Hcell by (symmetry; apply Z.leb_le; lia).
  exact Hcell.
Qed.

(** X20.  For whole numbers of seconds up to the four hours that a
    route may last, computed on doubles as the engine does: a longer
    route is never told in fewer segments, the segments at 45 seconds
    each cover the route, and 45 seconds more on a route that lasts at
    least one second add exactly one segment. *)
Theorem segments_grow_with_duration (n m : Z) :
  0 <= n -> n <= m -> m <= 14400 ->
  (Double.calculateTotalSegments (Double.of_Z n)
     <=? Double.calculateTotalSegments (Double.of_Z m))%float = true
  /\ (Double.of_Z n
        <=? 45 * Double.calculateTotalSegments (Double.of_Z n))%float = true
  /\ (0 < n -> n + 45 <= 14400 ->
      Double.calculateTotalSegments (Double.of_Z n + 45)%float
      = (Double.calculateTotalSegments (Double.of_Z n) + 1)%float).
Proof.
  intros Hn Hnm Hm. split; [|split].
  - rewrite !whole_seconds_exact by lia.
    change (Z.max 1 (Qceiling (inject_Z n / 45)))
      with (calculateTotalSegments (inject_Z n)).
    change (Z.max 1 (Qceiling (inject_Z m / 45)))
      with (calculateTotalSegments (inject_Z m)).
    apply of_Z_ordered.
    + by apply (segments_le_iff (inject_Z n)), Z.le_refl.
    + apply segments_monotone. by rewrite <- Zle_Qle.
    + apply segments_le_iff. split; [lia|].
      apply Qle_trans with (inject_Z 14400); [by rewrite <- Zle_Qle|].
      discriminate.
  - apply (range_all_spec Double.covered_at 0 14401);
      [vm_compute; reflexivity|lia].
  - intros Hpos Hroom. apply FloatAxioms.Leibniz.eqb_spec.
    apply (range_all_spec Double.one_more_at 1 14355);
      [vm_compute; reflexivity|lia].
Qed.

Lemma segments_grow_with_duration_witness :
  (Double.calculateTotalSegments (Double.of_Z 100)
     <=? Double.calculateTotalSegments (Double.of_Z 900))%float = true
  /\ Double.calculateTotalSegments (Double.of_Z 100 + 45)%float
     = (Double.calculateTotalSegments (Double.of_Z 100) + 1)%float.
Proof.
  split.
  - apply (proj1 (segments_grow_with_duration 100 900 ltac:(lia) ltac:(lia)
                    ltac:(lia))).
  - apply (proj2 (proj2 (segments_grow_with_duration 100 900 ltac:(lia)
                           ltac:(lia) ltac:(lia)))); lia.
Defined.

(** *** After the last segment *)

Section AfterTheEnd.
Import StoryPlayer PlayerRuns.

(** X21.  When the last clip ends, with no further audio, the next index
    at the estimate and nothing being generated, playback stops with the
    index one past the last segment.  A click on the play button then
    sets the player to playing and buffering without starting a source,
    and renders with the same story change nothing: the player waits for
    a segment that will not come. *)
Theorem play_after_the_end (props : Props) (now1 now2 : Q) (s : State) :
  clip (segments (story props) !! S (indexRef s)) = None ->
  totalSegmentsEstimate (story props) <= Z.of_nat (S (indexRef s)) ->
  isBackgroundGenerating props = false ->
  let stopped := syncIndexRef (handleSegmentEnd props now1 s) in
  let clicked := togglePlayback props now2 stopped in
  (isPlaying stopped = false
   /\ currentSegmentIndex stopped = S (indexRef s)
   /\ isBuffering stopped = isBuffering s)
  /\ (isPlaying clicked = true /\ isBuffering clicked = true
      /\ sourceRef clicked = sourceRef s
      /\ currentSegmentIndex clicked = S (indexRef s))
  /\ (forall now, effects props now clicked = clicked).
Proof.
  intros Hnone Hover Hidle. cbv zeta.
  assert (Hstop : handleSegmentEnd props now1 s =
            setIsPlaying false
              (setSegmentOffsetRef 0 (setCurrentSegmentIndex (S (indexRef s)) s))).
  { unfold handleSegmentEnd.
    replace (indexRef s + 1)%nat with (S (indexRef s)) by lia.
    rewrite Hnone, Hidle.
    replace (totalSegmentsEstimate (story props) <=? Z.of_nat (S (indexRef s)))
      with true by (symmetry; by apply Z.leb_le).
    reflexivity. }
  rewrite Hstop. unfold togglePlayback. simpl. rewrite Hnone. simpl.
  split; [by repeat split|]. split; [by repeat split|].
  intros now. unfold effects, resumeWhenReady. simpl. by rewrite Hnone.
Qed.

Lemma play_after_the_end_witness :
  let last := playSegment (Some Sample.segment2) 0 200
                (syncIndexRef (setCurrentSegmentIndex 1
                   (setIsPlaying true StoryPlayer.initial))) in
  let props2 := {| story := {| totalSegmentsEstimate := 2;
                               outline := outline Sample.story2;
                               segments := segments Sample.story2 |};
                   isBackgroundGenerating := false |} in
  let stopped := syncIndexRef (handleSegmentEnd props2 244 last) in
  let clicked := togglePlayback props2 250 stopped in
  isPlaying stopped = false
  /\ currentSegmentIndex stopped = 2%nat
  /\ isPlaying clicked = true /\ isBuffering clicked = true.
Proof.
  cbv zeta.
  destruct (play_after_the_end
              {| story := {| totalSegmentsEstimate := 2;
                             outline := outline Sample.story2;
                             segments := segments Sample.story2 |};
                 isBackgroundGenerating := false |}
              244 250
              (playSegment (Some Sample.segment2) 0 200
                 (syncIndexRef (setCurrentSegmentIndex 1
                    (setIsPlaying true StoryPlayer.initial))))
              eq_refl ltac:(simpl; lia) eq_refl)
    as ((H1 & H2 & _) & (H3 & H4 & _) & _).
  by repeat split.
Defined.

End AfterTheEnd.
